(** * UAE Law MCP: text normalizer, provision extractors, document resolver
      and citation tools

    A shallow embedding of the parsing and resolution core of the
    repository: [stripHtml] and the three zone parsers of
    [scripts/lib/fetcher.ts] (the parser half of that file),
    [resolveDocumentId] of [src/utils/statute-id.ts], [parseCitation] and
    [validateCitationTool] of the validate_citation tool, and
    [formatCitationTool] of [src/tools/format-citation.ts].

    JavaScript strings are sequences of UTF-16 code units, modelled as
    [list N]; [length] is the JavaScript [.length].  Regular expressions are
    kept as syntax trees that mirror the literals of the source and are run
    by a backtracking matcher with the priorities of the ECMAScript
    semantics (greedy and lazy quantifiers, ordered alternation, lookahead,
    anchors, capture groups). *)

From Stdlib Require Import String Ascii.
From Stdlib Require Import List NArith Bool Arith Lia.
Import ListNotations.

Set Implicit Arguments.

(* ================================================================= *)
(** ** JavaScript strings *)

Module Js.

Definition char := N.
Definition jsstring := list char.

Definition emit (cp : N) : jsstring :=
  if (cp <? 65536)%N then [cp]
  else [ (55296 + N.shiftr (cp - 65536) 10)%N ;
         (56320 + N.land (cp - 65536) 1023)%N ].

(** Source literals are UTF-8 text; [utf8_go] decodes them into UTF-16 code
    units ([pending] continuation bytes are still expected, [acc] holds the
    bits read so far). *)
Fixpoint utf8_go (pending : nat) (acc : N) (s : string) : jsstring :=
  match s with
  | EmptyString => []
  | String a s' =>
      let b := N_of_ascii a in
      match pending with
      | O =>
          if (b <? 128)%N then b :: utf8_go 0 0%N s'
          else if (b <? 224)%N then utf8_go 1 (N.land b 31) s'
          else if (b <? 240)%N then utf8_go 2 (N.land b 15) s'
          else utf8_go 3 (N.land b 7) s'
      | S O => emit (N.lor (N.shiftl acc 6) (N.land b 63)) ++ utf8_go 0 0%N s'
      | S p => utf8_go p (N.lor (N.shiftl acc 6) (N.land b 63)) s'
      end
  end.

Definition lit (s : string) : jsstring := utf8_go 0 0%N s.

Definition eqb (a b : jsstring) : bool :=
  if list_eq_dec N.eq_dec a b then true else false.

(** LineTerminator: LF, CR, LS, PS. *)
Definition is_line_terminator (c : char) : bool :=
  ((c =? 10) || (c =? 13) || (c =? 8232) || (c =? 8233))%N.

(** WhiteSpace and LineTerminator, the set of [\s] and of [trim]. *)
Definition is_space (c : char) : bool :=
  ((c =? 9) || (c =? 10) || (c =? 11) || (c =? 12) || (c =? 13) || (c =? 32)
   || (c =? 160) || (c =? 5760) || ((8192 <=? c) && (c <=? 8202))
   || (c =? 8232) || (c =? 8233) || (c =? 8239) || (c =? 8287)
   || (c =? 12288) || (c =? 65279))%N.

Definition is_digit (c : char) : bool := ((48 <=? c) && (c <=? 57))%N.

Definition is_upper (c : char) : bool := ((65 <=? c) && (c <=? 90))%N.
Definition is_lower (c : char) : bool := ((97 <=? c) && (c <=? 122))%N.

(** [\w] *)
Definition is_word (c : char) : bool :=
  is_upper c || is_lower c || is_digit c || (c =? 95)%N.

Definition to_upper (c : char) : char := if is_lower c then (c - 32)%N else c.
Definition to_lower (c : char) : char := if is_upper c then (c + 32)%N else c.

Fixpoint trim_start (s : jsstring) : jsstring :=
  match s with
  | c :: s' => if is_space c then trim_start s' else s
  | [] => []
  end.

Definition trim_end (s : jsstring) : jsstring := rev (trim_start (rev s)).

(** [String.prototype.trim] *)
Definition trim (s : jsstring) : jsstring := trim_end (trim_start s).

(** [s.substring(0, n)] *)
Definition substring0 (n : nat) (s : jsstring) : jsstring := firstn n s.

(** [s.split(c)[0]] for a one-character separator *)
Fixpoint split_head (c : char) (s : jsstring) : jsstring :=
  match s with
  | [] => []
  | x :: s' => if (x =? c)%N then [] else x :: split_head c s'
  end.

(** truthiness of a string *)
Definition truthy (s : jsstring) : bool :=
  match s with [] => false | _ => true end.

End Js.

Import Js.

(* ================================================================= *)
(** ** Regular expressions *)

Module Regex.

Inductive citem : Type :=
| CChar (c : char)
| CRange (lo hi : char)
| CSpace      (* \s *)
| CNotSpace   (* \S *)
| CDigit      (* \d *).

Inductive regex : Type :=
| Eps
| Chr (c : char)
| Cls (neg : bool) (items : list citem)
| Dot
| Seq (r1 r2 : regex)
| Alt (r1 r2 : regex)
| Star (greedy : bool) (r : regex)
| Group (i : nat) (r : regex)
| Ahead (r : regex)
| Bol
| Eol
| WordB.

Record flags := { ignoreCase : bool; multiline : bool }.

Definition fl_none := {| ignoreCase := false; multiline := false |}.
Definition fl_i := {| ignoreCase := true; multiline := false |}.
Definition fl_m := {| ignoreCase := false; multiline := true |}.

(** Smart constructors for the derived forms of the surface syntax. *)
Definition Plus (g : bool) (r : regex) : regex := Seq r (Star g r).
Definition Opt (r : regex) : regex := Alt r Eps.
Fixpoint Str (s : jsstring) : regex :=
  match s with
  | [] => Eps
  | [c] => Chr c
  | c :: s' => Seq (Chr c) (Str s')
  end.
Fixpoint Seqs (rs : list regex) : regex :=
  match rs with
  | [] => Eps
  | [r] => r
  | r :: rs' => Seq r (Seqs rs')
  end.
Fixpoint Alts (rs : list regex) : regex :=
  match rs with
  | [] => Eps
  | [r] => r
  | r :: rs' => Alt r (Alts rs')
  end.

Definition S_ := Cls false [CSpace].          (* \s *)
Definition D_ := Cls false [CDigit].          (* \d *)
Definition AZ_ := Cls false [CRange 65 90; CRange 97 122]%N.  (* [A-Za-z] *)
Definition ch (a : ascii) : char := N_of_ascii a.
Definition C_ (a : ascii) : regex := Chr (ch a).
Definition L_ (s : string) : regex := Str (lit s).

(** The matcher state: the consumed prefix (reversed), the remaining input
    and the captures set so far. *)
Record mstate := {
  before : jsstring;
  rest : jsstring;
  caps : list (nat * jsstring)
}.

Definition item_basic (it : citem) (x : char) : bool :=
  match it with
  | CChar c => (x =? c)%N
  | CRange lo hi => ((lo <=? x) && (x <=? hi))%N
  | CSpace => is_space x
  | CNotSpace => negb (is_space x)
  | CDigit => is_digit x
  end.

(** Under the [i] flag a character matches when its canonical form equals
    that of a member of the set.  Every cased character in the patterns of
    this program is an ASCII letter, for which the canonical form is the
    ASCII upper case; a code unit above 127 is never canonicalized to an
    ASCII one. *)
Definition item_match (fl : flags) (it : citem) (x : char) : bool :=
  item_basic it x
  || (ignoreCase fl && (item_basic it (to_upper x) || item_basic it (to_lower x))).

Definition chr_match (fl : flags) (c x : char) : bool :=
  if ignoreCase fl then (to_upper x =? to_upper c)%N else (x =? c)%N.

Definition cls_match (fl : flags) (neg : bool) (items : list citem) (x : char) : bool :=
  xorb neg (existsb (fun it => item_match fl it x) items).

Definition at_bol (fl : flags) (st : mstate) : bool :=
  match before st with
  | [] => true
  | p :: _ => multiline fl && is_line_terminator p
  end.

Definition at_eol (fl : flags) (st : mstate) : bool :=
  match rest st with
  | [] => true
  | n :: _ => multiline fl && is_line_terminator n
  end.

Definition at_wordb (st : mstate) : bool :=
  let a := match before st with [] => false | p :: _ => is_word p end in
  let b := match rest st with [] => false | n :: _ => is_word n end in
  xorb a b.

Definition advance (st : mstate) : mstate :=
  match rest st with
  | [] => st
  | x :: xs => {| before := x :: before st; rest := xs; caps := caps st |}
  end.

(** The text consumed between two states of one run. *)
Definition slice (st st' : mstate) : jsstring :=
  firstn (length (rest st) - length (rest st')) (rest st).

Definition set_cap (i : nat) (s : jsstring) (st : mstate) : mstate :=
  {| before := before st; rest := rest st; caps := (i, s) :: caps st |}.

Fixpoint get_cap (i : nat) (cs : list (nat * jsstring)) : option jsstring :=
  match cs with
  | [] => None
  | (j, s) :: cs' => if Nat.eqb i j then Some s else get_cap i cs'
  end.

Definition cont := mstate -> option mstate.

Definition orelse (a b : option mstate) : option mstate :=
  match a with Some x => Some x | None => b end.

(** One quantifier [r*] or [r*?]: [n] bounds the iterations by the
    remaining input, since an iteration that consumes nothing is rejected
    (as the RepeatMatcher of the language does). *)
Fixpoint star_loop (greedy : bool) (step : mstate -> cont -> option mstate)
    (n : nat) (st : mstate) (k : cont) : option mstate :=
  match n with
  | O => k st
  | S n' =>
      let iter :=
        step st (fun st' =>
          if Nat.ltb (length (rest st')) (length (rest st))
          then star_loop greedy step n' st' k else None) in
      if greedy then orelse iter (k st) else orelse (k st) iter
  end.

(** The backtracking matcher, in continuation-passing style.  No capture
    group of this program stands under a quantifier, so the per-iteration
    reset of captures is not modelled. *)
Fixpoint m (fl : flags) (r : regex) (st : mstate) (k : cont) {struct r}
  : option mstate :=
  match r with
  | Eps => k st
  | Chr c =>
      match rest st with
      | x :: _ => if chr_match fl c x then k (advance st) else None
      | [] => None
      end
  | Cls neg items =>
      match rest st with
      | x :: _ => if cls_match fl neg items x then k (advance st) else None
      | [] => None
      end
  | Dot =>
      match rest st with
      | x :: _ => if is_line_terminator x then None else k (advance st)
      | [] => None
      end
  | Seq r1 r2 => m fl r1 st (fun st' => m fl r2 st' k)
  | Alt r1 r2 => orelse (m fl r1 st k) (m fl r2 st k)
  | Star g r1 => star_loop g (m fl r1) (length (rest st)) st k
  | Group i r1 => m fl r1 st (fun st' => k (set_cap i (slice st st') st'))
  | Ahead r1 =>
      match m fl r1 st Some with
      | Some st' => k {| before := before st; rest := rest st; caps := caps st' |}
      | None => None
      end
  | Bol => if at_bol fl st then k st else None
  | Eol => if at_eol fl st then k st else None
  | WordB => if at_wordb st then k st else None
  end.

(** A successful match, as the array returned by [exec] or [match]:
    [m_pre] is [input.substring(0, index)], [m_text] is element 0. *)
Record mresult := {
  m_pre : jsstring;
  m_text : jsstring;
  m_caps : list (nat * jsstring);
  m_post : jsstring
}.

Definition group (i : nat) (res : mresult) : option jsstring :=
  get_cap i (m_caps res).

Definition match_at (fl : flags) (r : regex) (bef s : jsstring) : option mstate :=
  m fl r {| before := bef; rest := s; caps := [] |} Some.

Definition mk_result (bef s : jsstring) (st' : mstate) : mresult :=
  {| m_pre := rev bef;
     m_text := firstn (length s - length (rest st')) s;
     m_caps := caps st';
     m_post := rest st' |}.

(** Leftmost match at or after the current position. *)
Fixpoint search (fl : flags) (r : regex) (bef s : jsstring) {struct s}
  : option mresult :=
  match match_at fl r bef s with
  | Some st' => Some (mk_result bef s st')
  | None =>
      match s with
      | [] => None
      | c :: s' => search fl r (c :: bef) s'
      end
  end.

(** [s.match(r)] for a regex without the [g] flag. *)
Definition str_match (fl : flags) (r : regex) (s : jsstring) : option mresult :=
  search fl r [] s.

(** [r.test(s)] for a regex without the [g] flag. *)
Definition test (fl : flags) (r : regex) (s : jsstring) : bool :=
  match str_match fl r s with Some _ => true | None => false end.

(** [s.replace(r, repl)] for a regex with the [g] flag and a replacement
    text without [$] patterns.  [skip] counts the characters of the current
    match that are still to be passed over.  After an empty match the scan
    moves on by one character, which is kept. *)
Fixpoint replace_go (fl : flags) (r : regex) (repl : jsstring) (skip : nat)
    (bef s : jsstring) {struct s} : jsstring :=
  match skip with
  | S n =>
      match s with
      | [] => []
      | c :: s' => replace_go fl r repl n (c :: bef) s'
      end
  | O =>
      match match_at fl r bef s with
      | Some st' =>
          let len := length s - length (rest st') in
          repl ++
          match s with
          | [] => []
          | c :: s' =>
              if Nat.eqb len 0 then c :: replace_go fl r repl 0 (c :: bef) s'
              else replace_go fl r repl (len - 1) (c :: bef) s'
          end
      | None =>
          match s with
          | [] => []
          | c :: s' => c :: replace_go fl r repl 0 (c :: bef) s'
          end
      end
  end.

Definition replace_all (fl : flags) (r : regex) (repl : jsstring) (s : jsstring)
  : jsstring :=
  replace_go fl r repl 0 [] s.

(** [s.replace(r, repl)] for a regex without the [g] flag. *)
Definition replace_first (fl : flags) (r : regex) (repl : jsstring) (s : jsstring)
  : jsstring :=
  match str_match fl r s with
  | Some res => m_pre res ++ repl ++ m_post res
  | None => s
  end.

(** The loop [while ((x = r.exec(s)) !== null) { ... }] for a regex with
    the [g] flag: the list of all matches, left to right.  An empty match
    leaves [lastIndex] where it is, so that the loop of the source would not
    end: this is [None]. *)
Fixpoint exec_go (fl : flags) (r : regex) (skip : nat) (bef s : jsstring)
    {struct s} : option (list mresult) :=
  match skip with
  | S n =>
      match s with
      | [] => Some []
      | c :: s' => exec_go fl r n (c :: bef) s'
      end
  | O =>
      match match_at fl r bef s with
      | Some st' =>
          let len := length s - length (rest st') in
          match s with
          | [] => None
          | c :: s' =>
              if Nat.eqb len 0 then None
              else option_map (cons (mk_result bef s st'))
                     (exec_go fl r (len - 1) (c :: bef) s')
          end
      | None =>
          match s with
          | [] => Some []
          | c :: s' => exec_go fl r 0 (c :: bef) s'
          end
      end
  end.

Definition exec_all (fl : flags) (r : regex) (s : jsstring) : option (list mresult) :=
  exec_go fl r 0 [] s.

End Regex.

Import Regex.

(* ================================================================= *)
(** ** The text normalizer *)

Definition re_br : regex :=            (* /<br\s*\/?>/gi *)
  Seqs [C_ "<"; C_ "b"; C_ "r"; Star true S_; Opt (C_ "/"); C_ ">"].
Definition re_tag : regex :=           (* /<[^>]+>/g *)
  Seqs [C_ "<"; Plus true (Cls true [CChar (ch ">")]); C_ ">"].
Definition re_zwsp : regex := Chr 8203%N.       (* /\u200B/g *)
Definition re_blanks : regex :=        (* /[ \t]+/g *)
  Plus true (Cls false [CChar 32%N; CChar 9%N]).
Definition re_blank_lines : regex :=   (* /\n\s*\n/g *)
  Seqs [Chr 10%N; Star true S_; Chr 10%N].
Definition re_line_edges : regex :=    (* /^\s+|\s+$/gm *)
  Alt (Seq Bol (Plus true S_)) (Seq (Plus true S_) Eol).

(** The entity-decoding half of the chain of [stripHtml]. *)
Definition decode_entities (html : jsstring) : jsstring :=
  let s := replace_all fl_i re_br [10%N] html in
  let s := replace_all fl_none re_tag (lit " ") s in
  let s := replace_all fl_none (L_ "&nbsp;") (lit " ") s in
  let s := replace_all fl_none (L_ "&#xA0;") (lit " ") s in
  let s := replace_all fl_none (L_ "&#160;") (lit " ") s in
  let s := replace_all fl_none (L_ "&amp;") (lit "&") s in
  let s := replace_all fl_none (L_ "&lt;") (lit "<") s in
  let s := replace_all fl_none (L_ "&gt;") (lit ">") s in
  let s := replace_all fl_none (L_ "&quot;") [34%N] s in
  let s := replace_all fl_none (L_ "&#39;") (lit "'") s in
  let s := replace_all fl_none (L_ "&#8212;") [8212%N] s in
  let s := replace_all fl_none (L_ "&#8217;") [8217%N] s in
  let s := replace_all fl_none (L_ "&#8220;") [8220%N] s in
  replace_all fl_none (L_ "&#8221;") [8221%N] s.

(** The whitespace half of the chain of [stripHtml]. *)
Definition collapse_whitespace (s : jsstring) : jsstring :=
  let s := replace_all fl_none re_zwsp [] s in
  let s := replace_all fl_none re_blanks (lit " ") s in
  let s := replace_all fl_none re_blank_lines [10%N] s in
  let s := replace_all fl_m re_line_edges [] s in
  trim s.

Definition stripHtml (html : jsstring) : jsstring :=
  collapse_whitespace (decode_entities html).

(* ================================================================= *)
(** ** Insertion-ordered maps with string keys *)

(** A JavaScript [Map] keeps its entries in the order of first insertion;
    [set] on a key already present replaces the value where it stands. *)
Module JsMap.

Section Ops.
Variable V : Type.

Definition t := list (jsstring * V).

Fixpoint get (k : jsstring) (mp : t) : option V :=
  match mp with
  | [] => None
  | (k', v) :: mp' => if Js.eqb k k' then Some v else get k mp'
  end.

Fixpoint set (k : jsstring) (v : V) (mp : t) : t :=
  match mp with
  | [] => [(k, v)]
  | (k', v') :: mp' =>
      if Js.eqb k k' then (k', v) :: mp' else (k', v') :: set k v mp'
  end.

Definition keys (mp : t) : list jsstring := map fst mp.
Definition values (mp : t) : list V := map snd mp.

End Ops.

End JsMap.

(* ================================================================= *)
(** ** The data model of the parsers *)

Inductive doc_status := in_force | amended | repealed | not_yet_in_force.
Inductive legal_zone_t := federal | difc | adgm.
Inductive federal_type := fdl | fl | cd.

Record ParsedProvision := {
  provision_ref : jsstring;
  chapter : option jsstring;
  section : jsstring;
  title : jsstring;
  content : jsstring;
  language : jsstring
}.

Record ParsedDefinition := {
  term : jsstring;
  definition : jsstring;
  source_provision : option jsstring
}.

Record ParsedDocument := {
  id : jsstring;
  doc_title : jsstring;
  title_en : jsstring;
  short_name : jsstring;
  status : doc_status;
  issued_date : jsstring;
  in_force_date : jsstring;
  url : jsstring;
  description : option jsstring;
  legal_zone : legal_zone_t;
  doc_language : jsstring;
  provisions : list ParsedProvision;
  definitions : list ParsedDefinition
}.

Record FederalLawEntry := {
  f_id : jsstring;
  f_title : jsstring;
  f_titleEn : jsstring;
  f_shortName : jsstring;
  f_type : federal_type;
  f_number : N;
  f_year : N;
  f_status : doc_status;
  f_issuedDate : jsstring;
  f_inForceDate : jsstring;
  f_url : jsstring
}.

Record DifcLawEntry := {
  d_id : jsstring;
  d_title : jsstring;
  d_shortName : jsstring;
  d_lawNumber : N;
  d_year : N;
  d_status : doc_status;
  d_issuedDate : jsstring;
  d_inForceDate : jsstring;
  d_url : jsstring
}.

Record AdgmRegulationEntry := {
  a_id : jsstring;
  a_title : jsstring;
  a_shortName : jsstring;
  a_regulationType : jsstring;
  a_year : N;
  a_status : doc_status;
  a_issuedDate : jsstring;
  a_inForceDate : jsstring;
  a_url : jsstring
}.

(** Element [i] of a match array.  Every group of the patterns below takes
    part in every match of its pattern, so the element is never undefined. *)
Definition grp (i : nat) (res : mresult) : jsstring :=
  match group i res with Some s => s | None => [] end.

Definition bind {A B : Type} (a : option A) (f : A -> option B) : option B :=
  match a with Some x => f x | None => None end.

Notation "x <- a ;; b" := (bind a (fun x => b))
  (at level 61, a at next level, right associativity).

Fixpoint foldM {A S : Type} (f : S -> A -> option S) (l : list A) (s : S)
  : option S :=
  match l with
  | [] => Some s
  | x :: l' => s' <- f s x ;; foldM f l' s'
  end.

(* ----------------------------------------------------------------- *)
(** *** Deduplication *)

(** The loop [for (const prov of provisions) { ... byRef.set(...) }]. *)
Definition dedup_step (byRef : JsMap.t ParsedProvision) (prov : ParsedProvision)
  : JsMap.t ParsedProvision :=
  match JsMap.get (provision_ref prov) byRef with
  | None => JsMap.set (provision_ref prov) prov byRef
  | Some existing =>
      if Nat.ltb (length (content existing)) (length (content prov))
      then JsMap.set (provision_ref prov) prov byRef
      else byRef
  end.

Definition dedup_provisions (ps : list ParsedProvision) : list ParsedProvision :=
  JsMap.values (fold_left dedup_step ps []).

Definition dedup_def_step (byTerm : JsMap.t ParsedDefinition) (def : ParsedDefinition)
  : JsMap.t ParsedDefinition :=
  match JsMap.get (term def) byTerm with
  | None => JsMap.set (term def) def byTerm
  | Some existing =>
      if Nat.ltb (length (definition existing)) (length (definition def))
      then JsMap.set (term def) def byTerm
      else byTerm
  end.

Definition dedup_definitions (ds : list ParsedDefinition) : list ParsedDefinition :=
  JsMap.values (fold_left dedup_def_step ds []).

(* ================================================================= *)
(** ** The patterns of the parsers *)

Definition any_ : regex := Cls false [CSpace; CNotSpace].        (* [\s\S] *)
Definition not_gt : regex := Cls true [CChar (ch ">")].          (* [^>] *)
Definition not_lt : regex := Cls true [CChar (ch "<")].          (* [^<] *)
Definition not_quote : regex := Cls true [CChar 34%N].           (* [^\x22] *)
Definition quote_ : regex := Chr 34%N.
(** NUM, the pattern \d+[A-Za-z]* of a number with a suffix *)
Definition num_suffix : regex := Seq (Plus true D_) (Star true AZ_).

Definition ar_article : jsstring := lit "المادة".
Definition ar_bab : jsstring := lit "الباب".
Definition ar_fasl : jsstring := lit "الفصل".
Definition ar_min : jsstring := lit "من".
Definition ar_definitions1 : jsstring := lit "تعريفات".
Definition ar_definitions2 : jsstring := lit "تعاريف".

(** /MARKER\s*\(?\s*(\d+)\s*\)?\s*([\s\S]*?)(?=MARKER\s*\(?\s*\d+|$)/g with
    MARKER the Arabic or the English word for an article. *)
Definition federal_article_re (marker : jsstring) : regex :=
  Seqs [Str marker; Star true S_; Opt (C_ "("); Star true S_;
        Group 1 (Plus true D_);
        Star true S_; Opt (C_ ")"); Star true S_;
        Group 2 (Star false any_);
        Ahead (Alt (Seqs [Str marker; Star true S_; Opt (C_ "("); Star true S_;
                          Plus true D_])
                   Eol)].

Definition re_article_ar : regex := federal_article_re ar_article.
Definition re_article_en : regex := federal_article_re (lit "Article").

(** /(?:الباب|الفصل)\s+([\u0600-\u06FF\s]+)/g *)
Definition re_chapter_ar : regex :=
  Seqs [Alt (Str ar_bab) (Str ar_fasl); Plus true S_;
        Group 1 (Plus true (Cls false [CRange 1536%N 1791%N; CSpace]))].

(** /(?:HEADS)\s+(NUM)\s*[-\u2013:]\s*(.+?)(?=<|$)/gi *)
Definition chapter_re (heads : list regex) : regex :=
  Seqs [Alts heads; Plus true S_; Group 1 num_suffix; Star true S_;
        Cls false [CChar (ch "-"); CChar 8211%N; CChar (ch ":")];
        Star true S_; Group 2 (Plus false Dot);
        Ahead (Alt (C_ "<") Eol)].

Definition re_chapter_en : regex := chapter_re [L_ "Chapter"; L_ "Part"].
Definition re_chapter_difc : regex := chapter_re [L_ "Part"; L_ "Chapter"].
Definition re_chapter_adgm : regex :=
  chapter_re [L_ "Part"; L_ "Chapter"; L_ "Division"].

(** /<[^>]*>(TEXT)<\/[^>]*>/ with TEXT the pattern [^<]* . *)
Definition re_title_ar : regex :=
  Seqs [C_ "<"; Star true not_gt; C_ ">"; Group 1 (Star true not_lt);
        C_ "<"; C_ "/"; Star true not_gt; C_ ">"].

(** /<(?:strong|b|h\d)[^>]*>([^<]+)<\/(?:strong|b|h\d)>/i *)
Definition re_title_en : regex :=
  Seqs [C_ "<"; Alts [L_ "strong"; L_ "b"; Seq (C_ "h") D_]; Star true not_gt;
        C_ ">"; Group 1 (Plus true not_lt);
        C_ "<"; C_ "/"; Alts [L_ "strong"; L_ "b"; Seq (C_ "h") D_]; C_ ">"].

(** /تعريفات|تعاريف/ *)
Definition re_isdef_ar : regex := Alt (Str ar_definitions1) (Str ar_definitions2).

(** /\bdefinitions?\b/i *)
Definition re_isdef_en : regex :=
  Seqs [WordB; L_ "definition"; Opt (C_ "s"); WordB].

Definition open_quote : regex := Cls false [CChar 34%N; CChar 8220%N].   (* [\x22\u201C] *)
Definition close_quote : regex := Cls false [CChar 34%N; CChar 8221%N].  (* [\x22\u201D] *)
Definition not_close_quote : regex := Cls true [CChar 34%N; CChar 8221%N].

(** /[\x22\u201C]([^\x22\u201D]+)[\x22\u201D]\s*[:\uFF1A]\s*([^.]+\.)/g *)
Definition re_def_ar : regex :=
  Seqs [open_quote; Group 1 (Plus true not_close_quote); close_quote;
        Star true S_; Cls false [CChar (ch ":"); CChar 65306%N]; Star true S_;
        Group 2 (Seq (Plus true (Cls true [CChar (ch ".")])) (C_ "."))].

(** /[\x22\u201C]([^\x22\u201D]+)[\x22\u201D]\s*(?:means?|includes?|has the meaning)\s+([\s\S]*?)(?=[\x22\u201C]|$)/gi *)
Definition re_def_en : regex :=
  Seqs [open_quote; Group 1 (Plus true not_close_quote); close_quote;
        Star true S_;
        Alts [Seq (L_ "mean") (Opt (C_ "s")); Seq (L_ "include") (Opt (C_ "s"));
              L_ "has the meaning"];
        Plus true S_; Group 2 (Star false any_);
        Ahead (Alt open_quote Eol)].

(** /<[^>]*class=\x22[^\x22]*(?:KINDS)[^\x22]*\x22[^>]*>([\s\S]*?)<\/[^>]+>/i *)
Definition description_re (kinds : list regex) : regex :=
  Seqs [C_ "<"; Star true not_gt; L_ "class="; quote_; Star true not_quote;
        Alts kinds; Star true not_quote; quote_; Star true not_gt; C_ ">";
        Group 1 (Star false any_);
        C_ "<"; C_ "/"; Plus true not_gt; C_ ">"].

Definition re_desc_ar : regex := description_re [L_ "long-title"; L_ "preamble"].
Definition re_desc_en : regex :=
  description_re [L_ "long-title"; L_ "preamble"; L_ "subtitle"].

(** /(?:MARKERS)\s*(NUM)\s*([\s\S]*?)(?=(?:MARKERS)\s*NUM|$)/gi *)
Definition zone_article_re (markers : list regex) : regex :=
  Seqs [Alts markers; Star true S_; Group 1 num_suffix; Star true S_;
        Group 2 (Star false any_);
        Ahead (Alt (Seqs [Alts markers; Star true S_; num_suffix]) Eol)].

Definition re_article_difc : regex := zone_article_re [L_ "Article"; L_ "Section"].
Definition re_section_adgm : regex :=
  zone_article_re [L_ "Section"; L_ "Rule"; L_ "Regulation"].

(* ================================================================= *)
(** ** The zone parsers *)

Fixpoint last_opt {A : Type} (l : list A) : option A :=
  match l with
  | [] => None
  | [x] => Some x
  | _ :: l' => last_opt l'
  end.

(** The working data of one extraction pass. *)
Record pass := {
  currentChapter : jsstring;
  raw_provisions : list ParsedProvision;
  raw_definitions : list ParsedDefinition
}.

Definition empty_pass : pass :=
  {| currentChapter := []; raw_provisions := []; raw_definitions := [] |}.

(** The inner loop over [chapterScan.exec(beforeArticle)] and the update of
    [currentChapter]. *)
Definition scan_chapter (fl : flags) (chapterScan : regex)
    (beforeArticle current : jsstring) : option jsstring :=
  chaps <- exec_all fl chapterScan beforeArticle ;;
  Some match last_opt chaps with
       | Some lastChapter => trim (stripHtml (m_text lastChapter))
       | None => current
       end.

Definition extract_title (fl : flags) (titleRe : regex) (rawContent : jsstring)
  : jsstring :=
  match str_match fl titleRe rawContent with
  | Some titleMatch => trim (stripHtml (grp 1 titleMatch))
  | None => []
  end.

Definition max_content : nat := 12 * 1000.
Definition max_definition : nat := 4 * 1000.

Definition push_provision (prefix articleNum current ttl rawContent lang : jsstring)
    (ps : list ParsedProvision) : list ParsedProvision :=
  let content := stripHtml rawContent in
  if Nat.ltb 5 (length content) then
    ps ++ [ {| provision_ref := prefix ++ articleNum;
               chapter := if truthy current then Some current else None;
               section := articleNum;
               title := ttl;
               content := substring0 max_content content;
               language := lang |} ]
  else ps.

Definition def_of_match (prefix articleNum : jsstring) (defMatch : mresult)
  : list ParsedDefinition :=
  let term := trim (stripHtml (grp 1 defMatch)) in
  let definition := trim (stripHtml (grp 2 defMatch)) in
  if truthy term && Nat.ltb 3 (length definition) then
    [ {| term := term;
         definition :=
           substring0 max_definition ([8220%N] ++ term ++ [8221%N; 32%N] ++ definition);
         source_provision := Some (prefix ++ articleNum) |} ]
  else [].

Definition extract_definitions (isDef : bool) (fl : flags) (defPattern : regex)
    (prefix articleNum rawContent : jsstring) (ds : list ParsedDefinition)
  : option (list ParsedDefinition) :=
  if isDef then
    defs <- exec_all fl defPattern rawContent ;;
    Some (ds ++ flat_map (def_of_match prefix articleNum) defs)
  else Some ds.

(** One iteration of the loop over [articlePattern.exec(html)]. *)
Definition article_step (flChap : flags) (chapterScan : regex)
    (flTitle : flags) (titleRe : regex)
    (flIsDef : flags) (isDefRe : regex) (flDef : flags) (defPattern : regex)
    (prefix lang : jsstring) (acc : pass) (articleMatch : mresult) : option pass :=
  let articleNum := grp 1 articleMatch in
  let rawContent := grp 2 articleMatch in
  let beforeArticle := m_pre articleMatch in
  chap <- scan_chapter flChap chapterScan beforeArticle (currentChapter acc) ;;
  let ttl := extract_title flTitle titleRe rawContent in
  let ps := push_provision prefix articleNum chap ttl rawContent lang
              (raw_provisions acc) in
  ds <- extract_definitions (test flIsDef isDefRe rawContent) flDef defPattern
          prefix articleNum rawContent (raw_definitions acc) ;;
  Some {| currentChapter := chap; raw_provisions := ps; raw_definitions := ds |}.

(* ----------------------------------------------------------------- *)
(** *** Federal laws *)

Definition isArabic (html : jsstring) : bool := test fl_none (Str ar_article) html.

Definition federal_language (html : jsstring) : jsstring :=
  if isArabic html then lit "ar" else lit "en".

(** The extraction pass of [parseFederalLawHtml], before deduplication. *)
Definition federal_pass (html : jsstring) : option pass :=
  let ar := isArabic html in
  let articlePattern := if ar then re_article_ar else re_article_en in
  articles <- exec_all fl_none articlePattern html ;;
  foldM (article_step
           (if ar then fl_none else fl_i) (if ar then re_chapter_ar else re_chapter_en)
           (if ar then fl_none else fl_i) (if ar then re_title_ar else re_title_en)
           (if ar then fl_none else fl_i) (if ar then re_isdef_ar else re_isdef_en)
           (if ar then fl_none else fl_i) (if ar then re_def_ar else re_def_en)
           (lit "art") (federal_language html))
        articles empty_pass.

Definition federal_description (html : jsstring) : option jsstring :=
  match str_match fl_i (if isArabic html then re_desc_ar else re_desc_en) html with
  | Some descMatch => Some (stripHtml (grp 1 descMatch))
  | None => None
  end.

Definition parseFederalLawHtml (html : jsstring) (law : FederalLawEntry)
  : option ParsedDocument :=
  p <- federal_pass html ;;
  Some {| id := f_id law;
          doc_title := f_title law;
          title_en := f_titleEn law;
          short_name := f_shortName law;
          status := f_status law;
          issued_date := f_issuedDate law;
          in_force_date := f_inForceDate law;
          url := f_url law;
          description := federal_description html;
          legal_zone := federal;
          doc_language := federal_language html;
          provisions := dedup_provisions (raw_provisions p);
          definitions := dedup_definitions (raw_definitions p) |}.

(* ----------------------------------------------------------------- *)
(** *** DIFC laws *)

Definition difc_pass (html : jsstring) : option pass :=
  articles <- exec_all fl_i re_article_difc html ;;
  foldM (article_step fl_i re_chapter_difc fl_i re_title_en fl_i re_isdef_en
           fl_i re_def_en (lit "art") (lit "en"))
        articles empty_pass.

Definition parseDifcLawHtml (html : jsstring) (law : DifcLawEntry)
  : option ParsedDocument :=
  p <- difc_pass html ;;
  Some {| id := d_id law;
          doc_title := d_title law;
          title_en := d_title law;
          short_name := d_shortName law;
          status := d_status law;
          issued_date := d_issuedDate law;
          in_force_date := d_inForceDate law;
          url := d_url law;
          description := None;
          legal_zone := difc;
          doc_language := lit "en";
          provisions := dedup_provisions (raw_provisions p);
          definitions := dedup_definitions (raw_definitions p) |}.

(* ----------------------------------------------------------------- *)
(** *** ADGM regulations *)

Definition adgm_pass (html : jsstring) : option pass :=
  sections <- exec_all fl_i re_section_adgm html ;;
  foldM (article_step fl_i re_chapter_adgm fl_i re_title_en fl_i re_isdef_en
           fl_i re_def_en (lit "s") (lit "en"))
        sections empty_pass.

Definition parseAdgmRegulationHtml (html : jsstring) (regulation : AdgmRegulationEntry)
  : option ParsedDocument :=
  p <- adgm_pass html ;;
  Some {| id := a_id regulation;
          doc_title := a_title regulation;
          title_en := a_title regulation;
          short_name := a_shortName regulation;
          status := a_status regulation;
          issued_date := a_issuedDate regulation;
          in_force_date := a_inForceDate regulation;
          url := a_url regulation;
          description := None;
          legal_zone := adgm;
          doc_language := lit "en";
          provisions := dedup_provisions (raw_provisions p);
          definitions := dedup_definitions (raw_definitions p) |}.

(* ================================================================= *)
(** ** The document store *)

(** The rows of [legal_documents] and [legal_provisions] that the tools
    read, in the order in which a scan of the table yields them. *)
Record doc_row := {
  row_id : jsstring;
  row_title : jsstring;
  row_short_name : option jsstring;
  row_title_en : option jsstring;
  row_status : jsstring;
  row_legal_zone : option jsstring
}.

Record prov_row := {
  p_document_id : jsstring;
  p_provision_ref : jsstring;
  p_section : option jsstring
}.

Record database := {
  legal_documents : list doc_row;
  legal_provisions : list prov_row
}.

(** [value = ?] on a nullable text column *)
Definition sql_eq (v : option jsstring) (x : jsstring) : bool :=
  match v with Some s => Js.eqb s x | None => false end.

(** [... LIMIT 1] and [.get()]: the first row of the result *)
Definition get_first {A : Type} (cond : A -> bool) (rows : list A) : option A :=
  find cond rows.

(* ================================================================= *)
(** ** Patterns of the resolver and of the citation tools *)

Definition comma_semi : regex := Cls false [CChar (ch ","); CChar (ch ";")].
Definition art_word : regex := Alt (L_ "Article") (Seq (L_ "Art") (Opt (C_ "."))).
Definition sec_word : regex := Alt (L_ "Section") (Seq (C_ "s") (Opt (C_ "."))).

(** /(?:NO)?(\d+)\s*\/\s*(\d{4})/ with NO the pattern No\.?\s* . *)
Definition re_fdl : regex :=
  Seqs [Opt (Seqs [L_ "No"; Opt (C_ "."); Star true S_]);
        Group 1 (Plus true D_); Star true S_; C_ "/"; Star true S_;
        Group 2 (Seqs [D_; D_; D_; D_])].

(** /^ARTICLE\s+(NUM)\s+(?:MIN\s+)?(.+)$/ with ARTICLE and MIN the Arabic
    words for article and of *)
Definition re_cite_arabic : regex :=
  Seqs [Bol; Str ar_article; Plus true S_; Group 1 num_suffix; Plus true S_;
        Opt (Seq (Str ar_min) (Plus true S_)); Group 2 (Plus true Dot); Eol].

(** /^(?:WORD)\s*(NUM)\s*[,;]?\s+(.+)$/i *)
Definition prefix_re (word : regex) : regex :=
  Seqs [Bol; word; Star true S_; Group 1 num_suffix; Star true S_;
        Opt comma_semi; Plus true S_; Group 2 (Plus true Dot); Eol].

(** /^(.+?)[,;]\s*(?:WORD)\s*(NUM)$/i *)
Definition suffix_re (word : regex) : regex :=
  Seqs [Bol; Group 1 (Plus false Dot); comma_semi; Star true S_; word;
        Star true S_; Group 2 num_suffix; Eol].

Definition re_artFirst : regex := prefix_re art_word.
Definition re_secFirst : regex := prefix_re sec_word.
Definition re_artLast : regex := suffix_re art_word.
Definition re_secLast : regex := suffix_re sec_word.

(** /^([a-z]+-[\d-]+)\s*[,;]\s*(?:art\.?|s\.?)\s*(NUM)$/i *)
Definition re_idBased : regex :=
  Seqs [Bol;
        Group 1 (Seqs [Plus true (Cls false [CRange 97%N 122%N]); C_ "-";
                       Plus true (Cls false [CDigit; CChar (ch "-")])]);
        Star true S_; comma_semi; Star true S_;
        Alt (Seq (L_ "art") (Opt (C_ "."))) (Seq (C_ "s") (Opt (C_ ".")));
        Star true S_; Group 2 num_suffix; Eol].

(** The citation patterns of [formatCitationTool], whose article word also
    admits the Arabic one. *)
Definition art_word_fmt : regex :=
  Alts [L_ "Article"; Seq (L_ "Art") (Opt (C_ ".")); Str ar_article].
Definition re_fmt_artFirst : regex := prefix_re art_word_fmt.
Definition re_fmt_artLast : regex := suffix_re art_word_fmt.

(** /\b(?:DIFC|ADGM)\b/i *)
Definition re_difc_adgm : regex :=
  Seqs [WordB; Alt (L_ "DIFC") (L_ "ADGM"); WordB].

(** /^(?:art|s)/ *)
Definition re_ref_prefix : regex := Seq Bol (Alt (L_ "art") (C_ "s")).

(* ================================================================= *)
(** ** The document identifier resolver *)

Section Store.

(** The storage engine's [LOWER] function and [LIKE] operator
    ([sql_like v p] is [v LIKE p]); the engine is not part of the
    repository. *)
Variable sql_lower : jsstring -> jsstring.
Variable sql_like : jsstring -> jsstring -> bool.

Definition like_opt (v : option jsstring) (p : jsstring) : bool :=
  match v with Some s => sql_like s p | None => false end.

Definition lower_opt (v : option jsstring) : option jsstring :=
  option_map sql_lower v.

Definition contains_pattern (x : jsstring) : jsstring := [37%N] ++ x ++ [37%N].

Definition q_direct (trimmed : jsstring) (r : doc_row) : bool :=
  Js.eqb (row_id r) trimmed.

Definition q_short_name (trimmed : jsstring) (r : doc_row) : bool :=
  sql_eq (lower_opt (row_short_name r)) (sql_lower trimmed).

Definition q_federal_ids (num year : jsstring) (r : doc_row) : bool :=
  Js.eqb (row_id r) (lit "fdl-" ++ num ++ lit "-" ++ year)
  || Js.eqb (row_id r) (lit "fl-" ++ num ++ lit "-" ++ year)
  || Js.eqb (row_id r) (lit "cd-" ++ num ++ lit "-" ++ year).

Definition q_title (trimmed : jsstring) (r : doc_row) : bool :=
  sql_like (row_title r) (contains_pattern trimmed)
  || like_opt (row_short_name r) (contains_pattern trimmed)
  || like_opt (row_title_en r) (contains_pattern trimmed).

Definition q_lower (trimmed : jsstring) (r : doc_row) : bool :=
  sql_like (sql_lower (row_title r)) (sql_lower (contains_pattern trimmed))
  || like_opt (lower_opt (row_short_name r)) (sql_lower (contains_pattern trimmed))
  || like_opt (lower_opt (row_title_en r)) (sql_lower (contains_pattern trimmed)).

Definition resolve_by_title (db : database) (trimmed : jsstring) : option jsstring :=
  match get_first (q_title trimmed) (legal_documents db) with
  | Some titleResult => Some (row_id titleResult)
  | None =>
      match get_first (q_lower trimmed) (legal_documents db) with
      | Some lowerResult => Some (row_id lowerResult)
      | None => None
      end
  end.

Definition resolveDocumentId (db : database) (input : jsstring) : option jsstring :=
  let trimmed := trim input in
  if negb (truthy trimmed) then None else
  match get_first (q_direct trimmed) (legal_documents db) with
  | Some directMatch => Some (row_id directMatch)
  | None =>
  match get_first (q_short_name trimmed) (legal_documents db) with
  | Some shortNameMatch => Some (row_id shortNameMatch)
  | None =>
  match str_match fl_none re_fdl trimmed with
  | Some fdlPattern =>
      let num := grp 1 fdlPattern in
      let year := grp 2 fdlPattern in
      match get_first (q_federal_ids num year) (legal_documents db) with
      | Some fdlId => Some (row_id fdlId)
      | None => resolve_by_title db trimmed
      end
  | None => resolve_by_title db trimmed
  end end end.

(* ================================================================= *)
(** ** validate_citation *)

Record Citation := {
  documentRef : jsstring;
  articleRef : option jsstring
}.

Definition cite (doc : jsstring) (art : option jsstring) : option Citation :=
  Some {| documentRef := doc; articleRef := art |}.

(** The result type of the source admits [null], although no path of the
    function returns it. *)
Definition parseCitation (citation : jsstring) : option Citation :=
  let trimmed := trim citation in
  match str_match fl_none re_cite_arabic trimmed with
  | Some arabicMatch => cite (trim (grp 2 arabicMatch)) (Some (grp 1 arabicMatch))
  | None =>
  match str_match fl_i re_artFirst trimmed with
  | Some artFirst => cite (trim (grp 2 artFirst)) (Some (grp 1 artFirst))
  | None =>
  match str_match fl_i re_secFirst trimmed with
  | Some secFirst => cite (trim (grp 2 secFirst)) (Some (grp 1 secFirst))
  | None =>
  match str_match fl_i re_artLast trimmed with
  | Some artLast => cite (trim (grp 1 artLast)) (Some (grp 2 artLast))
  | None =>
  match str_match fl_i re_secLast trimmed with
  | Some secLast => cite (trim (grp 1 secLast)) (Some (grp 2 secLast))
  | None =>
  match str_match fl_i re_idBased trimmed with
  | Some idBased => cite (trim (grp 1 idBased)) (Some (grp 2 idBased))
  | None => cite trimmed None
  end end end end end end.

Record ValidateCitationResult := {
  valid : bool;
  v_citation : jsstring;
  normalized : option jsstring;
  document_id : option jsstring;
  document_title : option jsstring;
  v_provision_ref : option jsstring;
  v_status : option jsstring;
  v_legal_zone : option jsstring;
  warnings : list jsstring
}.

Definition msg_could_not_parse : jsstring := lit "Could not parse citation format".
Definition msg_repealed : jsstring := lit "WARNING: This law has been repealed.".
Definition msg_amended : jsstring :=
  lit "Note: This law has been amended. Verify you are referencing the current version.".
Definition msg_document_not_found (ref : jsstring) : jsstring :=
  lit "Document not found: " ++ [34%N] ++ ref ++ [34%N].
Definition msg_provision_not_found (ref ttl : jsstring) : jsstring :=
  lit "Provision " ++ [34%N] ++ ref ++ [34%N] ++ lit " not found in " ++ ttl.

Definition status_warnings (st : jsstring) : list jsstring :=
  if Js.eqb st (lit "repealed") then [msg_repealed]
  else if Js.eqb st (lit "amended") then [msg_amended]
  else [].

Definition q_provision (docId ref : jsstring) (p : prov_row) : bool :=
  Js.eqb (p_document_id p) docId
  && (Js.eqb (p_provision_ref p) ref
      || Js.eqb (p_provision_ref p) (lit "art" ++ ref)
      || Js.eqb (p_provision_ref p) (lit "s" ++ ref)
      || sql_eq (p_section p) ref).

Definition zone_prefix (zone : option jsstring) : jsstring :=
  if sql_eq zone (lit "federal") then lit "Article" else lit "Section".

(** The results of [validateCitationTool]; the metadata envelope around
    them does not depend on the citation and is left out.  Reading a field
    of a row that is not there throws: this is the outer [None]. *)
Definition validateCitationTool (db : database) (citation : jsstring)
  : option ValidateCitationResult :=
  match parseCitation citation with
  | None =>
      Some {| valid := false; v_citation := citation; normalized := None;
              document_id := None; document_title := None;
              v_provision_ref := None; v_status := None; v_legal_zone := None;
              warnings := [msg_could_not_parse] |}
  | Some parsed =>
  match resolveDocumentId db (documentRef parsed) with
  | None =>
      Some {| valid := false; v_citation := citation; normalized := None;
              document_id := None; document_title := None;
              v_provision_ref := None; v_status := None; v_legal_zone := None;
              warnings := [msg_document_not_found (documentRef parsed)] |}
  | Some docId =>
  match get_first (fun r => Js.eqb (row_id r) docId) (legal_documents db) with
  | None => None
  | Some doc =>
      let warnings := status_warnings (row_status doc) in
      match articleRef parsed with
      | Some ref =>
          if truthy ref then
            match get_first (q_provision docId ref) (legal_provisions db) with
            | None =>
                Some {| valid := false; v_citation := citation; normalized := None;
                        document_id := Some docId;
                        document_title := Some (row_title doc);
                        v_provision_ref := None; v_status := None;
                        v_legal_zone := row_legal_zone doc;
                        warnings :=
                          warnings ++ [msg_provision_not_found ref (row_title doc)] |}
            | Some provision =>
                let articleNum :=
                  replace_first fl_none re_ref_prefix [] (p_provision_ref provision) in
                let prefix := zone_prefix (row_legal_zone doc) in
                Some {| valid := true; v_citation := citation;
                        normalized :=
                          Some (prefix ++ lit " " ++ articleNum ++ lit ", " ++ row_title doc);
                        document_id := Some docId;
                        document_title := Some (row_title doc);
                        v_provision_ref := Some (p_provision_ref provision);
                        v_status := Some (row_status doc);
                        v_legal_zone := row_legal_zone doc;
                        warnings := warnings |}
            end
          else
            Some {| valid := true; v_citation := citation;
                    normalized := Some (row_title doc);
                    document_id := Some docId;
                    document_title := Some (row_title doc);
                    v_provision_ref := None;
                    v_status := Some (row_status doc);
                    v_legal_zone := row_legal_zone doc;
                    warnings := warnings |}
      | None =>
          Some {| valid := true; v_citation := citation;
                  normalized := Some (row_title doc);
                  document_id := Some docId;
                  document_title := Some (row_title doc);
                  v_provision_ref := None;
                  v_status := Some (row_status doc);
                  v_legal_zone := row_legal_zone doc;
                  warnings := warnings |}
      end
  end end end.

End Store.

(* ================================================================= *)
(** ** format_citation *)

Inductive cite_format := full | short | pinpoint.

Definition format_name (f : cite_format) : jsstring :=
  match f with full => lit "full" | short => lit "short" | pinpoint => lit "pinpoint" end.

Record FormatCitationResult := {
  original : jsstring;
  formatted : jsstring;
  format : jsstring
}.

(** [a ?? b] *)
Definition nullish {A : Type} (a b : option A) : option A :=
  match a with Some x => Some x | None => b end.

Definition elem (i : nat) (mt : option mresult) : option jsstring :=
  match mt with Some res => group i res | None => None end.

Definition fmt_article (trimmed : jsstring) : option jsstring :=
  let artFirst := str_match fl_i re_fmt_artFirst trimmed in
  let artLast := str_match fl_i re_fmt_artLast trimmed in
  let secFirst := str_match fl_i re_secFirst trimmed in
  let secLast := str_match fl_i re_secLast trimmed in
  nullish (elem 1 artFirst) (nullish (elem 2 artLast)
    (nullish (elem 1 secFirst) (elem 2 secLast))).

Definition fmt_law (trimmed : jsstring) : jsstring :=
  let artFirst := str_match fl_i re_fmt_artFirst trimmed in
  let artLast := str_match fl_i re_fmt_artLast trimmed in
  let secFirst := str_match fl_i re_secFirst trimmed in
  let secLast := str_match fl_i re_secLast trimmed in
  match nullish (elem 2 artFirst) (nullish (elem 1 artLast)
          (nullish (elem 2 secFirst) (elem 1 secLast))) with
  | Some law => law
  | None => trimmed
  end.

Definition isDifcAdgm (law : jsstring) : bool := test fl_i re_difc_adgm law.

Definition provisionWord (law : jsstring) : jsstring :=
  if isDifcAdgm law then lit "Section" else lit "Article".
Definition provisionAbbrev (law : jsstring) : jsstring :=
  if isDifcAdgm law then lit "s" else lit "Art.".

Definition render (f : cite_format) (article : option jsstring) (law : jsstring)
  : jsstring :=
  match article with
  | None => law
  | Some a =>
      if truthy a then
        match f with
        | short =>
            provisionAbbrev law ++ lit " " ++ a ++ lit ", "
              ++ trim (split_head (ch "(") law)
        | pinpoint => provisionAbbrev law ++ lit " " ++ a
        | full => provisionWord law ++ lit " " ++ a ++ lit ", " ++ law
        end
      else law
  end.

Definition formatCitationTool (citation : jsstring) (fmt : option cite_format)
  : FormatCitationResult :=
  let f := match fmt with Some f => f | None => full end in
  let trimmed := trim citation in
  {| original := citation;
     formatted := render f (fmt_article trimmed) (fmt_law trimmed);
     format := format_name f |}.

(* ================================================================= *)
(** ** An instance of the storage engine's operators *)

(** [LOWER] and [LIKE] in the manner of SQLite's built-in ones: ASCII case
    folding, [%] for any run of characters and [_] for one character.  The
    fixtures below are run against this instance. *)
Module Sqlite.

Definition lower (s : jsstring) : jsstring := map to_lower s.

Fixpoint like_go (p s : jsstring) {struct p} : bool :=
  match p with
  | [] => match s with [] => true | _ => false end
  | c :: p' =>
      if (c =? 37)%N then
        (fix any (s : jsstring) : bool :=
           like_go p' s || match s with [] => false | _ :: s' => any s' end) s
      else
        match s with
        | [] => false
        | x :: s' => ((c =? 95)%N || (to_upper x =? to_upper c)%N) && like_go p' s'
        end
  end.

Definition like (v p : jsstring) : bool := like_go p v.

End Sqlite.

(* ================================================================= *)
(** * Notions used in the statements *)

(** [needle] occurs in [hay]. *)
Definition contains (needle hay : jsstring) : Prop :=
  exists pre post, hay = pre ++ needle ++ post.

(** [st'] is reached from [st] by consuming the text [xs]. *)
Definition advances_by (xs : jsstring) (st st' : mstate) : Prop :=
  rest st = xs ++ rest st' /\ before st' = rev xs ++ before st.

Definition advances (st st' : mstate) : Prop :=
  exists xs, advances_by xs st st'.

Definition advances_strictly (st st' : mstate) : Prop :=
  exists xs, xs <> [] /\ advances_by xs st st'.

(** A sufficient syntactic condition for a pattern to consume at least one
    character in every match. *)
Fixpoint consumes (r : regex) : bool :=
  match r with
  | Chr _ | Cls _ _ | Dot => true
  | Seq r1 r2 => consumes r1 || consumes r2
  | Alt r1 r2 => consumes r1 && consumes r2
  | Group _ r1 => consumes r1
  | Eps | Star _ _ | Ahead _ | Bol | Eol | WordB => false
  end.

(** [q] is the first provision of the extraction pass [l] that is longest
    among those carrying its reference: every earlier one is strictly
    shorter and no later one is longer. *)
Definition first_longest (q : ParsedProvision) (l : list ParsedProvision) : Prop :=
  exists l1 l2, l = l1 ++ q :: l2 /\
    (forall p, In p l1 -> provision_ref p = provision_ref q ->
               length (content p) < length (content q)) /\
    (forall p, In p l2 -> provision_ref p = provision_ref q ->
               length (content p) <= length (content q)).

(** [out] is [raw] deduplicated by [provision_ref]. *)
Definition deduplicated (raw out : list ParsedProvision) : Prop :=
  NoDup (map provision_ref out) /\
  (forall q, In q out -> first_longest q raw) /\
  (forall p, In p raw ->
     exists q, In q out /\ provision_ref q = provision_ref p /\
               length (content p) <= length (content q)).

(** The invariant of the deduplication loop after the provisions [l]. *)
Definition dedup_inv (l : list ParsedProvision) (mp : JsMap.t ParsedProvision) : Prop :=
  NoDup (JsMap.keys mp) /\
  (forall k v, JsMap.get k mp = Some v -> provision_ref v = k /\ first_longest v l) /\
  (forall p, In p l -> JsMap.get (provision_ref p) mp <> None).

(** What the parsers store for the body [body] of a marker. *)
Definition stored_from (body : jsstring) (p : ParsedProvision) : Prop :=
  5 < length (stripHtml body) /\
  content p = firstn max_content (stripHtml body).

Definition stored_ok (articles : list mresult) (p : ParsedProvision) : Prop :=
  5 < length (content p) <= 12 * 1000 /\
  exists articleMatch, In articleMatch articles /\ stored_from (grp 2 articleMatch) p.

(** The rest of [s] after the literal [w], compared as the flags say. *)
Fixpoint strip_prefix (fl : flags) (w s : jsstring) : option jsstring :=
  match w with
  | [] => Some s
  | c :: w' =>
      match s with
      | x :: s' => if chr_match fl c x then strip_prefix fl w' s' else None
      | [] => None
      end
  end.

(* ----------------------------------------------------------------- *)
(** *** The citation patterns as a priority list *)

(** A citation pattern with the numbers of the groups that hold the law and
    the article. *)
Record cite_pattern := {
  cp_flags : flags;
  cp_re : regex;
  cp_doc : nat;
  cp_art : nat
}.

Definition citation_patterns : list cite_pattern :=
  [ {| cp_flags := fl_none; cp_re := re_cite_arabic; cp_doc := 2; cp_art := 1 |};
    {| cp_flags := fl_i; cp_re := re_artFirst; cp_doc := 2; cp_art := 1 |};
    {| cp_flags := fl_i; cp_re := re_secFirst; cp_doc := 2; cp_art := 1 |};
    {| cp_flags := fl_i; cp_re := re_artLast; cp_doc := 1; cp_art := 2 |};
    {| cp_flags := fl_i; cp_re := re_secLast; cp_doc := 1; cp_art := 2 |};
    {| cp_flags := fl_i; cp_re := re_idBased; cp_doc := 1; cp_art := 2 |} ].

(** The first pattern of the list that matches, with its match. *)
Fixpoint first_matching (ps : list cite_pattern) (trimmed : jsstring)
  : option (cite_pattern * mresult) :=
  match ps with
  | [] => None
  | p :: ps' =>
      match str_match (cp_flags p) (cp_re p) trimmed with
      | Some res => Some (p, res)
      | None => first_matching ps' trimmed
      end
  end.

Definition parse_by_priority (citation : jsstring) : Citation :=
  let trimmed := trim citation in
  match first_matching citation_patterns trimmed with
  | Some (p, res) =>
      {| documentRef := trim (grp (cp_doc p) res);
         articleRef := Some (grp (cp_art p) res) |}
  | None => {| documentRef := trimmed; articleRef := None |}
  end.

Definition is_match (fl : flags) (r : regex) (s : jsstring) : bool :=
  match str_match fl r s with Some _ => true | None => false end.

(* ----------------------------------------------------------------- *)
(** *** The resolver as a list of strategies *)

Section Stages.
Variable sql_lower : jsstring -> jsstring.
Variable sql_like : jsstring -> jsstring -> bool.

Definition stage := database -> jsstring -> option jsstring.

Definition first_id (q : doc_row -> bool) (db : database) : option jsstring :=
  option_map row_id (get_first q (legal_documents db)).

(** 1. exact identifier *)
Definition stage_exact_id : stage := fun db t => first_id (q_direct t) db.

(** 2. short name, compared in lower case *)
Definition stage_short_name : stage :=
  fun db t => first_id (q_short_name sql_lower t) db.

(** 3. number/year probe of the federal identifier shapes *)
Definition stage_number_year : stage :=
  fun db t =>
    match str_match fl_none re_fdl t with
    | Some mt => first_id (q_federal_ids (grp 1 mt) (grp 2 mt)) db
    | None => None
    end.

(** 4. [LIKE] on title, short name and English title *)
Definition stage_substring : stage :=
  fun db t => first_id (q_title sql_like t) db.

(** 5. the same on the lower-cased fields *)
Definition stage_substring_lower : stage :=
  fun db t => first_id (q_lower sql_lower sql_like t) db.

Definition stages : list stage :=
  [stage_exact_id; stage_short_name; stage_number_year; stage_substring;
   stage_substring_lower].

Fixpoint first_success (ss : list stage) (db : database) (t : jsstring)
  : option jsstring :=
  match ss with
  | [] => None
  | s :: ss' =>
      match s db t with
      | Some id => Some id
      | None => first_success ss' db t
      end
  end.

End Stages.

(** A store in which the identifier of the second document occurs in the
    title of the first. *)
Definition fixture_commentary : doc_row :=
  {| row_id := lit "x-1";
     row_title := lit "Commentary on fdl-45-2021";
     row_short_name := None;
     row_title_en := None;
     row_status := lit "repealed";
     row_legal_zone := Some (lit "difc") |}.

Definition fixture_pdpl : doc_row :=
  {| row_id := lit "fdl-45-2021";
     row_title := lit "Federal Decree-Law No. 45 of 2021";
     row_short_name := Some (lit "PDPL");
     row_title_en := Some (lit "Federal Decree-Law No. 45 of 2021 on Personal Data Protection");
     row_status := lit "in_force";
     row_legal_zone := Some (lit "federal") |}.

Definition fixture_db : database :=
  {| legal_documents := [fixture_commentary; fixture_pdpl];
     legal_provisions :=
       [ {| p_document_id := lit "fdl-45-2021"; p_provision_ref := lit "art2";
            p_section := Some (lit "2") |};
         {| p_document_id := lit "x-1"; p_provision_ref := lit "s3";
            p_section := Some (lit "3") |} ] |}.

(** A provision reference without its leading [art] or [s]. *)
Definition strip_ref_prefix (ref : jsstring) : jsstring :=
  match strip_prefix fl_none (lit "art") ref with
  | Some n => n
  | None =>
      match strip_prefix fl_none (lit "s") ref with
      | Some n => n
      | None => ref
      end
  end.

(* ----------------------------------------------------------------- *)
(** *** The zone tokens of a law text *)

Definition ends_with_word (pre : jsstring) : bool :=
  match rev pre with c :: _ => is_word c | [] => false end.

Definition starts_with_word (post : jsstring) : bool :=
  match post with c :: _ => is_word c | [] => false end.

(** [law] holds the word DIFC or ADGM, in any mix of cases, not joined to a
    letter, digit or underscore on either side. *)
Definition has_zone_token (law : jsstring) : Prop :=
  exists pre w post,
    law = pre ++ w ++ post /\
    (map to_upper w = lit "DIFC" \/ map to_upper w = lit "ADGM") /\
    ends_with_word pre = false /\ starts_with_word post = false.

(* ----------------------------------------------------------------- *)
(** *** Runs of one character class *)

(** A matcher that consumes one character satisfying [P]. *)
Definition char_step (P : char -> bool) : mstate -> cont -> option mstate :=
  fun st k =>
    match rest st with
    | x :: _ => if P x then k (advance st) else None
    | [] => None
    end.

Fixpoint take_while (P : char -> bool) (s : jsstring) : jsstring :=
  match s with
  | x :: s' => if P x then x :: take_while P s' else []
  | [] => []
  end.

Fixpoint drop_while (P : char -> bool) (s : jsstring) : jsstring :=
  match s with
  | x :: s' => if P x then drop_while P s' else s
  | [] => []
  end.

(** The tail after a maximal run: empty or headed by a character outside
    the class. *)
Definition run_end (P : char -> bool) (tail : jsstring) : Prop :=
  match tail with [] => True | y :: _ => P y = false end.

(** The order in which a greedy quantifier over a class offers the
    positions of the run [xs] to its continuation: the far end first. *)
Fixpoint greedy_run (k : cont) (bef : jsstring) (cs : list (nat * jsstring))
    (xs tail : jsstring) : option mstate :=
  match xs with
  | [] => k {| before := bef; rest := tail; caps := cs |}
  | x :: xs' =>
      orelse (greedy_run k (x :: bef) cs xs' tail)
             (k {| before := bef; rest := xs ++ tail; caps := cs |})
  end.

(** The same for a lazy quantifier: the near end first. *)
Fixpoint lazy_run (k : cont) (bef : jsstring) (cs : list (nat * jsstring))
    (xs tail : jsstring) : option mstate :=
  match xs with
  | [] => k {| before := bef; rest := tail; caps := cs |}
  | x :: xs' =>
      orelse (k {| before := bef; rest := xs ++ tail; caps := cs |})
             (lazy_run k (x :: bef) cs xs' tail)
  end.

(* ----------------------------------------------------------------- *)
(** *** Normal form of the whitespace of a text *)

(** Two neighbours that the whitespace half of [stripHtml] never leaves
    side by side: two spaces, or a line terminator next to any whitespace. *)
Definition bad_pair (a b : char) : bool :=
  ((a =? 32)%N && (b =? 32)%N)
  || (is_space a && is_line_terminator b)
  || (is_line_terminator a && is_space b).

Fixpoint no_bad_pairs (s : jsstring) : bool :=
  match s with
  | a :: s' =>
      match s' with
      | b :: _ => negb (bad_pair a b) && no_bad_pairs s'
      | [] => true
      end
  | [] => true
  end.

Definition head_not_space (s : jsstring) : bool :=
  match s with c :: _ => negb (is_space c) | [] => true end.

(** No zero-width space, no tab, no whitespace at either end and no
    [bad_pair]. *)
Definition ws_normal (s : jsstring) : bool :=
  forallb (fun c => negb (c =? 8203)%N && negb (c =? 9)%N) s
  && head_not_space s && head_not_space (rev s) && no_bad_pairs s.

(** Neither [<] nor [&]. *)
Definition markup_free (s : jsstring) : bool :=
  forallb (fun c => negb (c =? 60)%N && negb (c =? 38)%N) s.

(** The character with which every match of a pattern starts, when the
    pattern fixes it. *)
Fixpoint first_char (r : regex) : option char :=
  match r with
  | Chr c => Some c
  | Seq r1 _ => first_char r1
  | Group _ r1 => first_char r1
  | _ => None
  end.

(** The class [[ \t]] of the blank-collapsing pattern. *)
Definition blank : char -> bool := cls_match fl_none false [CChar 32%N; CChar 9%N].

(** [ws_normal] as a proposition. *)
Record normal (t : jsstring) : Prop := {
  n_chars : Forall (fun c => c <> 8203%N /\ c <> 9%N) t;
  n_head : head_not_space t = true;
  n_last : head_not_space (rev t) = true;
  n_pairs : no_bad_pairs t = true
}.

(** No two spaces in a row. *)
Fixpoint no_double_space (s : jsstring) : bool :=
  match s with
  | a :: s' =>
      match s' with
      | b :: _ => negb ((a =? 32)%N && (b =? 32)%N) && no_double_space s'
      | [] => true
      end
  | [] => true
  end.

(** The continuation of [\s+] in the second alternative of the line-edge
    pattern: the test of [$] under the [m] flag. *)
Definition k_eol : cont := fun st' => if at_eol fl_m st' then Some st' else None.

(** The test of [^] under the [m] flag, on the consumed prefix. *)
Definition bol (bef : jsstring) : bool :=
  match bef with [] => true | p :: _ => is_line_terminator p end.

(** The scans of the two whitespace replacements that change adjacency. *)
Abbreviation edges_go := (replace_go fl_m re_line_edges []).
Abbreviation blanks_go := (replace_go fl_none re_blanks (lit " ")).

(* ----------------------------------------------------------------- *)
(** *** Provision numbers with a suffix *)

Definition is_letter (c : char) : bool := is_upper c || is_lower c.

(** A body without marker, used after the numbers of the examples. *)
Definition sample_body : jsstring := lit " applies to all persons.".

(** Entries of the configured lists of laws. *)
Definition law_pdpl : FederalLawEntry :=
  {| f_id := lit "fdl-45-2021";
     f_title := lit "المرسوم بقانون اتحادي رقم 45 لسنة 2021 بشأن حماية البيانات الشخصية";
     f_titleEn := lit "Federal Decree-Law No. 45 of 2021 on Personal Data Protection";
     f_shortName := lit "PDPL";
     f_type := fdl; f_number := 45; f_year := 2021;
     f_status := in_force;
     f_issuedDate := lit "2021-09-20";
     f_inForceDate := lit "2022-01-02";
     f_url := lit "https://moj.gov.ae/en/legislation/federal-decree-law-45-2021" |}.

(** The body of the examples as a parser stores it. *)
Definition body_text : jsstring := lit "applies to all persons.".

(** A non-empty string of decimal digits. *)
Definition digits (ds : jsstring) : Prop :=
  ds <> [] /\ Forall (fun c => is_digit c = true) ds.

(** The provision stored for the number [num] followed by [sample_body]. *)
Definition suffixed (prefix num : jsstring) : ParsedProvision :=
  {| provision_ref := prefix ++ num; chapter := None; section := num;
     title := []; content := body_text; language := lit "en" |}.

(** The end of a DIFC or ADGM article pattern, after the number: the body
    and the lookahead [look]. *)
Definition tail_re (look : regex) : regex :=
  Seq (Star true S_) (Seq (Group 2 (Star false any_)) (Ahead look)).

Definition zone_look (markers : list regex) : regex :=
  Alt (Seqs [Alts markers; Star true S_; num_suffix]) Eol.

(** Whether the pattern has a capture group numbered [i]. *)
Fixpoint has_group (i : nat) (r : regex) : bool :=
  match r with
  | Seq r1 r2 | Alt r1 r2 => has_group i r1 || has_group i r2
  | Star _ r1 | Ahead r1 => has_group i r1
  | Group j r1 => Nat.eqb i j || has_group i r1
  | Eps | Chr _ | Cls _ _ | Dot | Bol | Eol | WordB => false
  end.

(** The matcher moved over digits only and left the captures alone. *)
Definition over_digits (st st' : mstate) : Prop :=
  exists xs, Forall (fun c => is_digit c = true) xs /\ advances_by xs st st' /\
             caps st' = caps st.

Definition keeps_cap (i : nat) (st st' : mstate) : Prop :=
  get_cap i (caps st') = get_cap i (caps st).

(** Every successful run of [step] calls its continuation on a state
    related to the first by [R]. *)
Definition step_keeps (R : mstate -> mstate -> Prop)
    (step : mstate -> cont -> option mstate) : Prop :=
  forall st k res, step st k = Some res -> exists st', R st st' /\ k st' = Some res.

Definition law_difc_dpl : DifcLawEntry :=
  {| d_id := lit "difc-law-5-2020";
     d_title := lit "DIFC Data Protection Law, DIFC Law No. 5 of 2020";
     d_shortName := lit "DIFC DPL";
     d_lawNumber := 5; d_year := 2020;
     d_status := in_force;
     d_issuedDate := lit "2020-07-01";
     d_inForceDate := lit "2020-07-01";
     d_url := lit "https://www.difclaws.com/laws-and-regulations/data-protection" |}.

Definition reg_adgm_dpr : AdgmRegulationEntry :=
  {| a_id := lit "adgm-dpr-2021";
     a_title := lit "ADGM Data Protection Regulations 2021";
     a_shortName := lit "ADGM DPR";
     a_regulationType := lit "regulations";
     a_year := 2021;
     a_status := in_force;
     a_issuedDate := lit "2021-02-14";
     a_inForceDate := lit "2021-02-14";
     a_url := lit "https://adgm.com/legal-framework/data-protection" |}.

(* ================================================================= *)
(** * Further notions: the text kept by the normalizer *)

(** Whitespace in the sense of [\s], or the zero-width space: the
    characters that the second half of [stripHtml] may drop or replace. *)
Definition is_blank (c : char) : bool := is_space c || (c =? 8203)%N.

(** The characters of [s] that are not blank, in order. *)
Definition text_of (s : jsstring) : jsstring :=
  filter (fun c => negb (is_blank c)) s.

Definition item_blank (it : citem) : bool :=
  match it with
  | CChar c => is_blank c
  | CSpace => true
  | CRange _ _ | CNotSpace | CDigit => false
  end.

(** A syntactic condition under which a pattern, run without the [i] flag,
    consumes blank characters only. *)
Fixpoint only_blank (r : regex) : bool :=
  match r with
  | Eps | Bol | Eol | WordB | Ahead _ => true
  | Chr c => is_blank c
  | Cls neg items => negb neg && forallb item_blank items
  | Dot => false
  | Seq r1 r2 | Alt r1 r2 => only_blank r1 && only_blank r2
  | Star _ r1 | Group _ r1 => only_blank r1
  end.

(** The matcher moved over blank characters only. *)
Definition over_blank (st st' : mstate) : Prop :=
  exists xs, Forall (fun c => is_blank c = true) xs /\ advances_by xs st st'.

(* ================================================================= *)
(** * Further notions: what the parsers store *)

(** A provision number as the DIFC and ADGM patterns read it: decimal
    digits, at least one, then ASCII letters. *)
Definition numbered (num : jsstring) : Prop :=
  exists ds ls, digits ds /\ Forall (fun c => is_letter c = true) ls /\ num = ds ++ ls.

(** The matcher moved over a text with the property [P]. *)
Definition over (P : jsstring -> Prop) (st st' : mstate) : Prop :=
  exists xs, P xs /\ advances_by xs st st'.

(** [String(ref).replace(/^(?:art|s)/, '')], the article number that the
    tools show for a stored reference. *)
Definition article_number (ref : jsstring) : jsstring :=
  replace_first fl_none re_ref_prefix [] ref.

(** [w] occurs in [hay] in some mix of upper and lower case. *)
Definition occurs_ci (w hay : jsstring) : Prop :=
  exists pre u post, hay = pre ++ u ++ post /\ map to_upper u = map to_upper w.

(** The fields of a provision that the extraction loop fills from the match
    [am] of the article pattern. *)
Definition built_from (prefix lang : jsstring) (flTitle : flags) (titleRe : regex)
    (am : mresult) (p : ParsedProvision) : Prop :=
  provision_ref p = prefix ++ grp 1 am /\
  section p = grp 1 am /\
  language p = lang /\
  title p = extract_title flTitle titleRe (grp 2 am) /\
  content p = firstn max_content (stripHtml (grp 2 am)).

(** A chapter heading as stored: absent, or a non-empty text in normal
    form. *)
Definition chapter_ok (c : option jsstring) : Prop :=
  match c with
  | None => True
  | Some t => t <> [] /\ normal t
  end.

(* ----------------------------------------------------------------- *)
(** *** Deduplication by a key *)

Section Keyed.
Variable V : Type.
Variable key : V -> jsstring.
Variable size : V -> nat.

(** One round of a loop that keeps, under each key, the entry seen first
    among the largest: [if (!existing || size(v) > size(existing)) set]. *)
Definition keep_step (mp : JsMap.t V) (v : V) : JsMap.t V :=
  match JsMap.get (key v) mp with
  | None => JsMap.set (key v) v mp
  | Some existing =>
      if Nat.ltb (size existing) (size v) then JsMap.set (key v) v mp else mp
  end.

(** [q] is the first entry of [l] that is largest among those with its key. *)
Definition first_largest (q : V) (l : list V) : Prop :=
  exists l1 l2, l = l1 ++ q :: l2 /\
    (forall p, In p l1 -> key p = key q -> size p < size q) /\
    (forall p, In p l2 -> key p = key q -> size p <= size q).

Definition deduplicated_by (raw out : list V) : Prop :=
  NoDup (map key out) /\
  (forall q, In q out -> first_largest q raw) /\
  (forall p, In p raw -> exists q, In q out /\ key q = key p /\ size p <= size q).

Definition keep_inv (l : list V) (mp : JsMap.t V) : Prop :=
  NoDup (JsMap.keys mp) /\
  (forall k v, JsMap.get k mp = Some v -> key v = k /\ first_largest v l) /\
  (forall p, In p l -> JsMap.get (key p) mp <> None).

End Keyed.

Definition definition_size (d : ParsedDefinition) : nat := length (definition d).

(** A definition as the extraction loop stores it under the provision
    prefix [prefix]. *)
Definition definition_ok (prefix : jsstring) (d : ParsedDefinition) : Prop :=
  term d <> [] /\ normal (term d) /\
  length (definition d) <= 4 * 1000 /\
  (exists text, normal text /\ 3 < length text /\
     definition d = firstn max_definition ([8220%N] ++ term d ++ [8221%N; 32%N] ++ text)) /\
  (exists num, numbered num /\ source_provision d = Some (prefix ++ num)).

(* ----------------------------------------------------------------- *)
(** *** Well-formed identifiers *)

(** The identifiers of the store are non-empty and carry no whitespace at
    either end, as the identifiers that the parsers and the build write. *)
Definition ids_trimmed (db : database) : Prop :=
  forall row, In row (legal_documents db) ->
    row_id row <> [] /\ trim (row_id row) = row_id row.

(* ----------------------------------------------------------------- *)
(** *** Citations written by format_citation *)

(** A law text on one line, not empty and without whitespace at its ends. *)
Definition plain (law : jsstring) : Prop :=
  law <> [] /\ head_not_space law = true /\ head_not_space (rev law) = true /\
  Forall (fun c => is_line_terminator c = false) law.

(** The text [word a, law] of the full format. *)
Definition cited (word a law : jsstring) : jsstring :=
  word ++ [32%N] ++ a ++ [44%N; 32%N] ++ law.

(* ================================================================= *)
(** * get_provision, check_currency and validate_eu_compliance *)

From Stdlib Require Import Sorting.Sorted Sorting.Permutation.

(** ** The store with all the columns that these tools read *)

(** A row of [legal_documents]: [doc_key] holds the columns that the
    resolver and validate_citation read. *)
Record document_record := {
  doc_key : doc_row;
  doc_url : option jsstring;
  doc_issued_date : option jsstring;
  doc_in_force_date : option jsstring
}.

(** A row of [legal_provisions], with its integer key [prov_id]. *)
Record provision_record := {
  prov_id : N;
  prov_key : prov_row;
  prov_chapter : option jsstring;
  prov_title : option jsstring;
  prov_content : jsstring;
  prov_language : option jsstring
}.

Record eu_reference := {
  ref_document_id : jsstring;
  ref_eu_document_id : jsstring;
  ref_implementation_status : option jsstring
}.

(** [eu_references] is [None] when the database has no such table, in which
    case a query on it throws. *)
Record store := {
  document_rows : list document_record;
  provision_rows : list provision_record;
  eu_references : option (list eu_reference)
}.

(** The same tables with the columns of the resolver only. *)
Definition tables (db : store) : database :=
  {| legal_documents := map doc_key (document_rows db);
     legal_provisions := map prov_key (provision_rows db) |}.

(** [String(v)] for a nullable text column *)
Definition js_String (v : option jsstring) : jsstring :=
  match v with Some s => s | None => lit "null" end.

(** The decimal digits of a natural number, as [String(n)] writes a count. *)
Fixpoint dec_go (fuel : nat) (n : N) (acc : jsstring) : jsstring :=
  match fuel with
  | O => acc
  | S fuel' =>
      let acc' := (48 + n mod 10)%N :: acc in
      if (n / 10 =? 0)%N then acc' else dec_go fuel' (n / 10)%N acc'
  end.

Definition dec (n : N) : jsstring := dec_go (S (N.size_nat n)) n [].

(** [SELECT ... FROM legal_documents WHERE id = ?] *)
Definition document_by_id (db : store) (docId : jsstring) : option document_record :=
  get_first (fun d => Js.eqb (row_id (doc_key d)) docId) (document_rows db).

(* ----------------------------------------------------------------- *)
(** ** get_provision *)

Record GetProvisionInput := {
  in_document_id : jsstring;
  in_section : option jsstring;
  in_provision_ref : option jsstring;
  in_article : option jsstring;
  in_as_of_date : option jsstring
}.

Record ProvisionResult := {
  gp_document_id : jsstring;
  gp_document_title : jsstring;
  gp_provision_ref : jsstring;
  gp_chapter : option jsstring;
  gp_section : jsstring;
  gp_title : option jsstring;
  gp_content : jsstring;
  gp_article_number : jsstring;
  gp_url : option jsstring;
  gp_legal_zone : option jsstring;
  gp_language : option jsstring
}.

(** The response of get_provision: the results and, of the metadata, the
    note, the one part that depends on the request. *)
Record GetProvisionResponse := {
  gp_results : list ProvisionResult;
  gp_note : option jsstring
}.

Definition note_no_document (input_id : jsstring) : jsstring :=
  lit "No document found matching " ++ [34%N] ++ input_id ++ [34%N].

Definition note_no_provision (ref resolvedId : jsstring) : jsstring :=
  lit "Provision " ++ [34%N] ++ ref ++ [34%N] ++ lit " not found in document "
    ++ [34%N] ++ resolvedId ++ [34%N].

Definition provision_result (resolvedId : jsstring) (docRow : document_record)
    (p : provision_record) : ProvisionResult :=
  {| gp_document_id := resolvedId;
     gp_document_title := row_title (doc_key docRow);
     gp_provision_ref := p_provision_ref (prov_key p);
     gp_chapter := prov_chapter p;
     gp_section := js_String (p_section (prov_key p));
     gp_title := prov_title p;
     gp_content := prov_content p;
     gp_article_number := article_number (p_provision_ref (prov_key p));
     gp_url := doc_url docRow;
     gp_legal_zone := row_legal_zone (doc_key docRow);
     gp_language := prov_language p |}.

(** [ORDER BY id]: a stable insertion sort on the integer key. *)
Fixpoint insert_by_id (p : provision_record) (l : list provision_record)
  : list provision_record :=
  match l with
  | [] => [p]
  | q :: l' => if (prov_id p <=? prov_id q)%N then p :: l else q :: insert_by_id p l'
  end.

Definition order_by_id (l : list provision_record) : list provision_record :=
  fold_right insert_by_id [] l.

Section Tools.

Variable sql_lower : jsstring -> jsstring.
Variable sql_like : jsstring -> jsstring -> bool.

Definition of_document (docId : jsstring) (p : provision_record) : bool :=
  Js.eqb (p_document_id (prov_key p)) docId.

(** [document_id = ? AND provision_ref = ?] *)
Definition q_ref (docId ref : jsstring) (p : provision_record) : bool :=
  of_document docId p && Js.eqb (p_provision_ref (prov_key p)) ref.

(** [document_id = ? AND section = ?] *)
Definition q_section (docId ref : jsstring) (p : provision_record) : bool :=
  of_document docId p && sql_eq (p_section (prov_key p)) ref.

(** [document_id = ? AND (provision_ref LIKE ? OR section LIKE ?)] *)
Definition q_like (docId ref : jsstring) (p : provision_record) : bool :=
  of_document docId p
  && (sql_like (p_provision_ref (prov_key p)) (contains_pattern ref)
      || like_opt sql_like (p_section (prov_key p)) (contains_pattern ref)).

(** The five lookups of a reference, each tried when the ones before it
    have found nothing. *)
Definition find_provision (db : store) (resolvedId refTrimmed : jsstring)
  : option provision_record :=
  let rows := provision_rows db in
  match get_first (q_ref resolvedId refTrimmed) rows with
  | Some p => Some p
  | None =>
  match get_first (q_ref resolvedId (lit "art" ++ refTrimmed)) rows with
  | Some p => Some p
  | None =>
  match get_first (q_ref resolvedId (lit "s" ++ refTrimmed)) rows with
  | Some p => Some p
  | None =>
  match get_first (q_section resolvedId refTrimmed) rows with
  | Some p => Some p
  | None => get_first (q_like resolvedId refTrimmed) rows
  end end end end.

(** The resolved identifier as the tools test it: [if (!resolvedId)] takes
    an empty identifier for none. *)
Definition resolved (db : store) (input : jsstring) : option jsstring :=
  match resolveDocumentId sql_lower sql_like (tables db) input with
  | Some resolvedId => if truthy resolvedId then Some resolvedId else None
  | None => None
  end.

Definition getProvision (db : store) (input : GetProvisionInput)
  : GetProvisionResponse :=
  match resolved db (in_document_id input) with
  | None =>
      {| gp_results := [];
         gp_note := Some (note_no_document (in_document_id input)) |}
  | Some resolvedId =>
  match document_by_id db resolvedId with
  | None => {| gp_results := []; gp_note := None |}
  | Some docRow =>
      let ref := nullish (in_article input)
                   (nullish (in_provision_ref input) (in_section input)) in
      match ref with
      | Some ref =>
          if truthy ref then
            match find_provision db resolvedId (trim ref) with
            | Some provision =>
                {| gp_results := [provision_result resolvedId docRow provision];
                   gp_note := None |}
            | None =>
                {| gp_results := [];
                   gp_note := Some (note_no_provision ref resolvedId) |}
            end
          else
            {| gp_results :=
                 map (provision_result resolvedId docRow)
                     (order_by_id (filter (of_document resolvedId) (provision_rows db)));
               gp_note := None |}
      | None =>
          {| gp_results :=
               map (provision_result resolvedId docRow)
                   (order_by_id (filter (of_document resolvedId) (provision_rows db)));
             gp_note := None |}
      end
  end end.

(* ----------------------------------------------------------------- *)
(** ** check_currency *)

Record CheckCurrencyInput := {
  cc_in_document_id : jsstring;
  cc_in_provision_ref : option jsstring;
  cc_in_as_of_date : option jsstring
}.

Record CheckCurrencyResult := {
  cc_document_id : jsstring;
  cc_title : jsstring;
  cc_status : jsstring;
  cc_issued_date : option jsstring;
  cc_in_force_date : option jsstring;
  cc_legal_zone : option jsstring;
  cc_warnings : list jsstring
}.

Definition msg_currency_repealed : jsstring :=
  lit "This law has been repealed and is no longer in force.".
Definition msg_currency_not_yet : jsstring :=
  lit "This law has not yet entered into force.".

Definition currency_warnings (st : jsstring) : list jsstring :=
  if Js.eqb st (lit "repealed") then [msg_currency_repealed]
  else if Js.eqb st (lit "not_yet_in_force") then [msg_currency_not_yet]
  else [].

(** Reading a field of a row that is not there throws: this is [None]. *)
Definition checkCurrency (db : store) (input : CheckCurrencyInput)
  : option CheckCurrencyResult :=
  match resolved db (cc_in_document_id input) with
  | None =>
      Some {| cc_document_id := cc_in_document_id input;
              cc_title := lit "Unknown";
              cc_status := lit "not_found";
              cc_issued_date := None; cc_in_force_date := None;
              cc_legal_zone := None;
              cc_warnings := [msg_document_not_found (cc_in_document_id input)] |}
  | Some resolvedId =>
      match document_by_id db resolvedId with
      | None => None
      | Some doc =>
          Some {| cc_document_id := row_id (doc_key doc);
                  cc_title := row_title (doc_key doc);
                  cc_status := row_status (doc_key doc);
                  cc_issued_date := doc_issued_date doc;
                  cc_in_force_date := doc_in_force_date doc;
                  cc_legal_zone := row_legal_zone (doc_key doc);
                  cc_warnings := currency_warnings (row_status (doc_key doc)) |}
      end
  end.

(* ----------------------------------------------------------------- *)
(** ** validate_eu_compliance *)

Record ValidateEUComplianceInput := {
  eu_in_document_id : jsstring;
  eu_in_provision_ref : option jsstring;
  eu_in_eu_document_id : option jsstring
}.

Inductive compliance := compliant | partial | unclear | not_applicable.

Record EUComplianceResult := {
  eu_document_id : jsstring;
  eu_document_title : jsstring;
  compliance_status : compliance;
  eu_references_found : nat;
  eu_legal_zone : option jsstring;
  eu_warnings : list jsstring;
  recommendations : list jsstring
}.

Definition msg_eu_unavailable : jsstring :=
  lit "EU/international references not available in this database tier".
Definition msg_eu_none : jsstring :=
  lit "No EU/international cross-references found for this law. This may be a purely domestic statute.".
Definition msg_eu_repealed : jsstring := lit "This law has been repealed.".
Definition msg_eu_replacement : jsstring := lit "Check for replacement legislation.".
Definition msg_eu_partial (n : nat) : jsstring :=
  dec (N.of_nat n) ++ lit " EU/international reference(s) have partial implementation status.".
Definition msg_eu_unknown (n : nat) : jsstring :=
  dec (N.of_nat n)
    ++ lit " EU/international reference(s) have unknown implementation status. Manual review recommended.".

(** [COUNT] over [WHERE document_id = ?], with [AND eu_document_id = ?]
    when the request names one. *)
Definition count_references (refs : list eu_reference) (docId : jsstring)
    (eu_id : option jsstring) : nat :=
  length (filter (fun e =>
    Js.eqb (ref_document_id e) docId
    && match eu_id with
       | Some x => if truthy x then Js.eqb (ref_eu_document_id e) x else true
       | None => true
       end) refs).

Definition status_eqb (a b : option jsstring) : bool :=
  match a, b with
  | Some x, Some y => Js.eqb x y
  | None, None => true
  | _, _ => false
  end.

(** [GROUP BY implementation_status] with [COUNT]: one row for each status,
    the null one among them.  The order of the groups is the engine's; here
    it is that of first occurrence, and nothing below depends on it. *)
Fixpoint tally (st : option jsstring) (groups : list (option jsstring * nat))
  : list (option jsstring * nat) :=
  match groups with
  | [] => [(st, 1)]
  | (k, n) :: groups' =>
      if status_eqb st k then (k, S n) :: groups' else (k, n) :: tally st groups'
  end.

Definition group_by_status (refs : list eu_reference) (docId : jsstring)
  : list (option jsstring * nat) :=
  fold_left (fun groups e => tally (ref_implementation_status e) groups)
            (filter (fun e => Js.eqb (ref_document_id e) docId) refs) [].

(** [new Map(pairs)] and [Map.get] on keys that are a string or null. *)
Fixpoint status_map_set (k : option jsstring) (v : nat)
    (mp : list (option jsstring * nat)) : list (option jsstring * nat) :=
  match mp with
  | [] => [(k, v)]
  | (k', v') :: mp' =>
      if status_eqb k k' then (k', v) :: mp' else (k', v') :: status_map_set k v mp'
  end.

Definition status_map (pairs : list (option jsstring * nat))
  : list (option jsstring * nat) :=
  fold_left (fun mp kv => status_map_set (fst kv) (snd kv) mp) pairs [].

Fixpoint status_map_get (k : option jsstring) (mp : list (option jsstring * nat))
  : option nat :=
  match mp with
  | [] => None
  | (k', v) :: mp' => if status_eqb k k' then Some v else status_map_get k mp'
  end.

(** [statusMap.get(name) ?? 0] *)
Definition status_count (mp : list (option jsstring * nat)) (name : jsstring) : nat :=
  match status_map_get (Some name) mp with Some n => n | None => 0 end.

Definition validateEUCompliance (db : store) (input : ValidateEUComplianceInput)
  : option EUComplianceResult :=
  match resolved db (eu_in_document_id input) with
  | None =>
      Some {| eu_document_id := eu_in_document_id input;
              eu_document_title := lit "Unknown";
              compliance_status := not_applicable;
              eu_references_found := 0;
              eu_legal_zone := None;
              eu_warnings := [msg_document_not_found (eu_in_document_id input)];
              recommendations := [] |}
  | Some resolvedId =>
  match document_by_id db resolvedId with
  | None => None
  | Some doc =>
  match eu_references db with
  | None =>
      Some {| eu_document_id := resolvedId;
              eu_document_title := row_title (doc_key doc);
              compliance_status := not_applicable;
              eu_references_found := 0;
              eu_legal_zone := row_legal_zone (doc_key doc);
              eu_warnings := [msg_eu_unavailable];
              recommendations := [] |}
  | Some refs =>
      let euRefCount := count_references refs resolvedId (eu_in_eu_document_id input) in
      if Nat.eqb euRefCount 0 then
        Some {| eu_document_id := resolvedId;
                eu_document_title := row_title (doc_key doc);
                compliance_status := not_applicable;
                eu_references_found := 0;
                eu_legal_zone := row_legal_zone (doc_key doc);
                eu_warnings := [];
                recommendations := [msg_eu_none] |}
      else
        let repealed_ := Js.eqb (row_status (doc_key doc)) (lit "repealed") in
        let warnings0 := if repealed_ then [msg_eu_repealed] else [] in
        let recommendations0 := if repealed_ then [msg_eu_replacement] else [] in
        let statusMap := status_map (group_by_status refs resolvedId) in
        let completeCount := status_count statusMap (lit "complete") in
        let partialCount := status_count statusMap (lit "partial") in
        let unknownCount := status_count statusMap (lit "unknown") in
        let verdict :=
          if Nat.ltb 0 completeCount && Nat.eqb partialCount 0 && Nat.eqb unknownCount 0
          then (compliant, warnings0, recommendations0)
          else if Nat.ltb 0 partialCount
          then (partial, warnings0 ++ [msg_eu_partial partialCount], recommendations0)
          else (unclear, warnings0,
                if Nat.ltb 0 unknownCount
                then recommendations0 ++ [msg_eu_unknown unknownCount]
                else recommendations0) in
        Some {| eu_document_id := resolvedId;
                eu_document_title := row_title (doc_key doc);
                compliance_status := fst (fst verdict);
                eu_references_found := euRefCount;
                eu_legal_zone := row_legal_zone (doc_key doc);
                eu_warnings := snd (fst verdict);
                recommendations := snd verdict |}
  end end end.

End Tools.

(* ----------------------------------------------------------------- *)
(** ** Notions for the statements on the tools *)

(** The provisions of the document [docId], in the order of a scan. *)
Definition provisions_of (db : store) (docId : jsstring) : list provision_record :=
  filter (of_document docId) (provision_rows db).

(** The number of references of [docId] with the implementation status
    [name]. *)
Definition references_with (refs : list eu_reference) (docId name : jsstring) : nat :=
  length (filter (fun e => Js.eqb (ref_document_id e) docId
                           && status_eqb (ref_implementation_status e) (Some name))
                 refs).

(** The reference that a request names: [article ?? provision_ref ?? section]. *)
Definition requested_ref (input : GetProvisionInput) : option jsstring :=
  nullish (in_article input) (nullish (in_provision_ref input) (in_section input)).

(** The count held by a map of statuses under [k], none being 0. *)
Definition count_of (k : option jsstring) (mp : list (option jsstring * nat)) : nat :=
  match status_map_get k mp with Some n => n | None => 0 end.

Definition sorted_by_id (l : list provision_record) : Prop :=
  StronglySorted (fun a b => (prov_id a <= prov_id b)%N) l.

(** A store for the examples: two documents, three provisions. *)
Definition fixture_store : store :=
  {| document_rows :=
       [ {| doc_key := fixture_commentary; doc_url := None;
            doc_issued_date := None; doc_in_force_date := None |};
         {| doc_key := fixture_pdpl;
            doc_url := Some (lit "https://moj.gov.ae/en/legislation/federal-decree-law-45-2021");
            doc_issued_date := Some (lit "2021-09-20");
            doc_in_force_date := Some (lit "2022-01-02") |} ];
     provision_rows :=
       [ {| prov_id := 7;
            prov_key := {| p_document_id := lit "fdl-45-2021";
                           p_provision_ref := lit "art2";
                           p_section := Some (lit "2") |};
            prov_chapter := None; prov_title := Some (lit "Scope");
            prov_content := lit "This Decree-Law applies to the processing of personal data.";
            prov_language := Some (lit "en") |};
         {| prov_id := 9;
            prov_key := {| p_document_id := lit "x-1";
                           p_provision_ref := lit "s3";
                           p_section := Some (lit "3") |};
            prov_chapter := None; prov_title := None;
            prov_content := lit "Commentary on the scope.";
            prov_language := Some (lit "en") |};
         {| prov_id := 3;
            prov_key := {| p_document_id := lit "fdl-45-2021";
                           p_provision_ref := lit "art1";
                           p_section := Some (lit "1") |};
            prov_chapter := None; prov_title := Some (lit "Definitions");
            prov_content := lit "In this Decree-Law the following words have the meanings given.";
            prov_language := Some (lit "en") |} ];
     eu_references :=
       Some [ {| ref_document_id := lit "fdl-45-2021";
                 ref_eu_document_id := lit "regulation:2016/679";
                 ref_implementation_status := Some (lit "complete") |};
              {| ref_document_id := lit "fdl-45-2021";
                 ref_eu_document_id := lit "regulation:910/2014";
                 ref_implementation_status := Some (lit "partial") |};
              {| ref_document_id := lit "fdl-45-2021";
                 ref_eu_document_id := lit "regulation:2016/679";
                 ref_implementation_status := None |} ] |}.

(* ================================================================= *)
(** * The rate-limited client of [scripts/lib/fetcher.ts] *)

From Stdlib Require Import ZArith.

(** [String(z)] for an integer *)
Definition dec_Z (z : Z) : jsstring :=
  if (z <? 0)%Z then [45%N] ++ dec (Z.to_N (- z)) else dec (Z.to_N z).

Definition MIN_DELAY_MS : Z := 500.
Definition MOJ_BASE : jsstring := lit "https://moj.gov.ae".
Definition DIFC_BASE : jsstring := lit "https://www.difclaws.com".
Definition ADGM_BASE : jsstring := lit "https://adgm.com".

(** What the network gives for one call of [fetch]: a response, whose body
    may fail to be read, or a rejection. *)
Record Response := {
  resp_status : N;
  resp_text : option jsstring;
  resp_content_type : option jsstring
}.

Inductive reply := Answers (resp : Response) | NetworkError.

Record FetchResult := {
  fr_status : N;
  fr_body : jsstring;
  fr_contentType : jsstring;
  fr_url : jsstring
}.

(** What a call does, in order, and how it ends. *)
Inductive effect :=
  | Request (url : jsstring)
  | Log (line : jsstring)
  | Sleep (ms : Z).

Inductive outcome :=
  | Returns (result : FetchResult)
  | Rejects                       (* the error of [fetch] or of [text()] *)
  | Throws (message : jsstring).

(** [rateLimit]: [now] is the first reading of the clock and [woken] the
    one after the wait, if there is one; the result is the wait and the new
    value of [lastRequestTime]. *)
Definition rateLimit (lastRequestTime now woken : Z) : list effect * Z :=
  let elapsed := (now - lastRequestTime)%Z in
  (if (elapsed <? MIN_DELAY_MS)%Z then [Sleep (MIN_DELAY_MS - elapsed)%Z] else [],
   woken).

(** [response.status === 429 || response.status >= 500] *)
Definition retryable (st : N) : bool := ((st =? 429) || (500 <=? st))%N.

(** [Math.pow(2, attempt + 1) * 1000] *)
Definition backoff (attempt : nat) : Z := (2 ^ Z.of_nat (attempt + 1) * 1000)%Z.

Definition log_retry (st : N) (url : jsstring) (attempt : nat) : jsstring :=
  lit "  HTTP " ++ dec st ++ lit " for " ++ url ++ lit ", retrying in "
    ++ dec_Z (backoff attempt) ++ lit "ms...".

Definition msg_failed (url : jsstring) (maxRetries : Z) : jsstring :=
  lit "Failed to fetch " ++ url ++ lit " after " ++ dec_Z maxRetries ++ lit " retries".

(** The end of an attempt that is not retried. *)
Definition settle (url : jsstring) (r : reply) : outcome :=
  match r with
  | NetworkError => Rejects
  | Answers resp =>
      match resp_text resp with
      | None => Rejects
      | Some body =>
          Returns {| fr_status := resp_status resp;
                     fr_body := body;
                     fr_contentType :=
                       match resp_content_type resp with Some t => t | None => [] end;
                     fr_url := url |}
      end
  end.

(** The loop [for (attempt = 0; attempt <= maxRetries; attempt++)], with
    [left] iterations to go; [server n] is the reply to the call of [fetch]
    in iteration [n]. *)
Fixpoint attempts (server : nat -> reply) (url : jsstring) (maxRetries : Z)
    (left : nat) (attempt : nat) : list effect * outcome :=
  match left with
  | O => ([], Throws (msg_failed url maxRetries))
  | S left' =>
      match server attempt with
      | Answers resp =>
          if retryable (resp_status resp) && (Z.of_nat attempt <? maxRetries)%Z then
            let next := attempts server url maxRetries left' (S attempt) in
            (Request url :: Log (log_retry (resp_status resp) url attempt)
               :: Sleep (backoff attempt) :: fst next,
             snd next)
          else ([Request url], settle url (Answers resp))
      | NetworkError => ([Request url], Rejects)
      end
  end.

(** A run of the client: what it did, how it ended and the value it left in
    [lastRequestTime]. *)
Record run := {
  run_effects : list effect;
  run_outcome : outcome;
  run_lastRequestTime : Z
}.

(** [fetchWithRateLimit(url, {}, maxRetries)] for an integer [maxRetries],
    called when the clock reads [now]. *)
Definition fetchWithRateLimit (server : nat -> reply) (lastRequestTime now woken : Z)
    (url : jsstring) (maxRetries : Z) : run :=
  let limited := rateLimit lastRequestTime now woken in
  let tries := attempts server url maxRetries (Z.to_nat (maxRetries + 1)) 0 in
  {| run_effects := fst limited ++ fst tries;
     run_outcome := snd tries;
     run_lastRequestTime := snd limited |}.

(** [lawUrl.startsWith('http') ? lawUrl : base + lawUrl] *)
Definition full_url (base lawUrl : jsstring) : jsstring :=
  match strip_prefix fl_none (lit "http") lawUrl with
  | Some _ => lawUrl
  | None => base ++ lawUrl
  end.

Definition fetchFederalContent (server : nat -> reply) (lastRequestTime now woken : Z)
    (lawUrl : jsstring) : run :=
  fetchWithRateLimit server lastRequestTime now woken (full_url MOJ_BASE lawUrl) 3.

Definition fetchDIFCContent (server : nat -> reply) (lastRequestTime now woken : Z)
    (lawUrl : jsstring) : run :=
  fetchWithRateLimit server lastRequestTime now woken (full_url DIFC_BASE lawUrl) 3.

Definition fetchADGMContent (server : nat -> reply) (lastRequestTime now woken : Z)
    (regulationUrl : jsstring) : run :=
  fetchWithRateLimit server lastRequestTime now woken (full_url ADGM_BASE regulationUrl) 3.

(** The requests and the waits of a run. *)
Definition requests (es : list effect) : list jsstring :=
  flat_map (fun e => match e with Request u => [u] | _ => [] end) es.

Definition sleeps (es : list effect) : list Z :=
  flat_map (fun e => match e with Sleep ms => [ms] | _ => [] end) es.

(** The first [k] replies ask for a retry. *)
Definition retried (server : nat -> reply) (k : nat) : Prop :=
  forall j, j < k -> exists resp, server j = Answers resp /\
                                  retryable (resp_status resp) = true.

Definition asks_retry (r : reply) : bool :=
  match r with Answers resp => retryable (resp_status resp) | NetworkError => false end.

(* ================================================================= *)
(** * The command line of the ingestion script *)

(** A number that is an integer or [NaN], which is all that [parseInt]
    returns.  [Int z] stands for the double nearest to [z]; the two differ
    only from 2^53 on, far above the length of any array. *)
Inductive number := NaN | Int (z : Z).

(** the value of a run of decimal digits, read from the left *)
Fixpoint digits_value (acc : Z) (ds : jsstring) : Z :=
  match ds with
  | [] => acc
  | d :: ds' => digits_value (10 * acc + Z.of_N (d - 48))%Z ds'
  end.

(** [parseInt(s, 10)]: leading white space is skipped, one sign is read,
    then the digits up to the first character that is not one; without a
    digit the result is [NaN]. *)
Definition parseInt (s : jsstring) : number :=
  let trimmed := trim_start s in
  let signed :=
    match trimmed with
    | c :: rest =>
        if (c =? 45)%N then ((-1)%Z, rest)
        else if (c =? 43)%N then (1%Z, rest)
        else (1%Z, trimmed)
    | [] => (1%Z, [])
    end in
  match take_while is_digit (snd signed) with
  | [] => NaN
  | ds => Int (fst signed * digits_value 0 ds)
  end.

(** truthiness of a number *)
Definition number_truthy (n : number) : bool :=
  match n with
  | NaN => false
  | Int z => negb (z =? 0)%Z
  end.

(** [array.slice(0, end)] *)
Definition slice_to {A : Type} (l : list A) (end_ : number) : list A :=
  let len := Z.of_nat (length l) in
  let relativeEnd := match end_ with NaN => 0%Z | Int z => z end in
  let final :=
    if (relativeEnd <? 0)%Z then Z.max (len + relativeEnd) 0
    else Z.min relativeEnd len in
  firstn (Z.to_nat final) l.

Record CliArgs := {
  cli_limit : option number;
  cli_skipFetch : bool;
  cli_source : jsstring
}.

(** The loop of [parseArgs] from the argument at hand: [--limit] and
    [--source] take the next argument with them when there is one and it is
    not empty. *)
Fixpoint parseArgs_from (args : list jsstring) (acc : CliArgs) : CliArgs :=
  match args with
  | [] => acc
  | arg :: rest =>
      let next := match rest with v :: _ => truthy v | [] => false end in
      if Js.eqb arg (lit "--limit") && next then
        match rest with
        | v :: rest' =>
            parseArgs_from rest'
              {| cli_limit := Some (parseInt v);
                 cli_skipFetch := cli_skipFetch acc;
                 cli_source := cli_source acc |}
        | [] => acc
        end
      else if Js.eqb arg (lit "--skip-fetch") then
        parseArgs_from rest
          {| cli_limit := cli_limit acc;
             cli_skipFetch := true;
             cli_source := cli_source acc |}
      else if Js.eqb arg (lit "--source") && next then
        match rest with
        | v :: rest' =>
            parseArgs_from rest'
              {| cli_limit := cli_limit acc;
                 cli_skipFetch := cli_skipFetch acc;
                 cli_source := v |}
        | [] => acc
        end
      else parseArgs_from rest acc
  end.

(** [parseArgs()] for the arguments [process.argv.slice(2)] *)
Definition parseArgs (args : list jsstring) : CliArgs :=
  parseArgs_from args
    {| cli_limit := None; cli_skipFetch := false; cli_source := lit "all" |}.

(** [limit ? laws.slice(0, limit) : laws] *)
Definition limited {A : Type} (limit : option number) (laws : list A) : list A :=
  match limit with
  | Some n => if number_truthy n then slice_to laws n else laws
  | None => laws
  end.

(** The laws that [main] hands to the phase of [zone], if it runs it. *)
Definition phase_laws {A : Type} (cli : CliArgs) (zone : jsstring) (laws : list A)
    : option (list A) :=
  if Js.eqb (cli_source cli) (lit "all") || Js.eqb (cli_source cli) zone
  then Some (limited (cli_limit cli) laws)
  else None.

(** an argument that is neither [--limit] nor [--source] *)
Definition plain_arg (arg : jsstring) : bool :=
  negb (Js.eqb arg (lit "--limit")) && negb (Js.eqb arg (lit "--source")).

(* ================================================================= *)
(** * The tool registry *)

(** A tool of the registry, by its name and the fields its schema
    requires. *)
Record Tool := { tool_name : jsstring; tool_required : list jsstring }.

Definition ABOUT_TOOL : Tool :=
  {| tool_name := lit "about"; tool_required := [] |}.
Definition LIST_SOURCES_TOOL : Tool :=
  {| tool_name := lit "list_sources"; tool_required := [] |}.

Definition TOOLS : list Tool :=
  [ {| tool_name := lit "search_legislation"; tool_required := [lit "query"] |};
    {| tool_name := lit "get_provision"; tool_required := [lit "document_id"] |};
    {| tool_name := lit "validate_citation"; tool_required := [lit "citation"] |};
    {| tool_name := lit "build_legal_stance"; tool_required := [lit "query"] |};
    {| tool_name := lit "format_citation"; tool_required := [lit "citation"] |};
    {| tool_name := lit "check_currency"; tool_required := [lit "document_id"] |};
    {| tool_name := lit "get_eu_basis"; tool_required := [lit "document_id"] |};
    {| tool_name := lit "get_uae_implementations";
       tool_required := [lit "eu_document_id"] |};
    {| tool_name := lit "search_eu_implementations"; tool_required := [] |};
    {| tool_name := lit "get_provision_eu_basis";
       tool_required := [lit "document_id"; lit "provision_ref"] |};
    {| tool_name := lit "validate_eu_compliance";
       tool_required := [lit "document_id"] |} ].

(** [buildTools(db, context)]; the probe of the definitions table changes
    nothing. *)
Definition buildTools (context : bool) : list Tool :=
  (TOOLS ++ [LIST_SOURCES_TOOL]) ++ (if context then [ABOUT_TOOL] else []).

(** The functions that the request handler calls. *)
Inductive handler :=
  | searchLegislation_ | getProvision_ | validateCitationTool_ | buildLegalStance_
  | formatCitationTool_ | checkCurrency_ | getEUBasis_ | getUAEImplementations_
  | searchEUImplementations_ | getProvisionEUBasis_ | validateEUCompliance_
  | listSources_ | getAbout_.

(** Where the [switch] of the request handler sends a name. *)
Inductive route :=
  | Calls (h : handler)
  | NotConfigured
  | UnknownTool.

Definition dispatch (context : bool) (name : jsstring) : route :=
  if Js.eqb name (lit "search_legislation") then Calls searchLegislation_
  else if Js.eqb name (lit "get_provision") then Calls getProvision_
  else if Js.eqb name (lit "validate_citation") then Calls validateCitationTool_
  else if Js.eqb name (lit "build_legal_stance") then Calls buildLegalStance_
  else if Js.eqb name (lit "format_citation") then Calls formatCitationTool_
  else if Js.eqb name (lit "check_currency") then Calls checkCurrency_
  else if Js.eqb name (lit "get_eu_basis") then Calls getEUBasis_
  else if Js.eqb name (lit "get_uae_implementations") then Calls getUAEImplementations_
  else if Js.eqb name (lit "search_eu_implementations") then Calls searchEUImplementations_
  else if Js.eqb name (lit "get_provision_eu_basis") then Calls getProvisionEUBasis_
  else if Js.eqb name (lit "validate_eu_compliance") then Calls validateEUCompliance_
  else if Js.eqb name (lit "list_sources") then Calls listSources_
  else if Js.eqb name (lit "about") then
    if context then Calls getAbout_ else NotConfigured
  else UnknownTool.

(* ================================================================= *)
(** * Properties of the matcher *)

Module JsFacts.

Lemma eqb_eq (a b : jsstring) : Js.eqb a b = true <-> a = b.
Proof.
  unfold Js.eqb. destruct (list_eq_dec N.eq_dec a b); split; congruence.
Qed.

Lemma eqb_refl (a : jsstring) : Js.eqb a a = true.
Proof. apply eqb_eq. reflexivity. Qed.

Lemma eqb_neq (a b : jsstring) : Js.eqb a b = false <-> a <> b.
Proof.
  unfold Js.eqb. destruct (list_eq_dec N.eq_dec a b); split; congruence.
Qed.

End JsFacts.

Module RegexFacts.

Lemma advances_refl st : advances st st.
Proof. exists []. split; reflexivity. Qed.

Lemma advances_by_trans xs ys st1 st2 st3 :
  advances_by xs st1 st2 -> advances_by ys st2 st3 ->
  advances_by (xs ++ ys) st1 st3.
Proof.
  intros [H1 H2] [H3 H4]. split.
  - rewrite H1, H3, app_assoc. reflexivity.
  - rewrite H4, H2, rev_app_distr, app_assoc. reflexivity.
Qed.

Lemma advances_trans st1 st2 st3 :
  advances st1 st2 -> advances st2 st3 -> advances st1 st3.
Proof.
  intros [xs H1] [ys H2]. exists (xs ++ ys). eapply advances_by_trans; eauto.
Qed.

Lemma advances_strictly_l st1 st2 st3 :
  advances_strictly st1 st2 -> advances st2 st3 -> advances_strictly st1 st3.
Proof.
  intros (xs & Hne & H1) [ys H2]. exists (xs ++ ys). split.
  - destruct xs; [congruence | discriminate].
  - eapply advances_by_trans; eauto.
Qed.

Lemma advances_strictly_r st1 st2 st3 :
  advances st1 st2 -> advances_strictly st2 st3 -> advances_strictly st1 st3.
Proof.
  intros [xs H1] (ys & Hne & H2). exists (xs ++ ys). split.
  - destruct xs; [exact Hne | discriminate].
  - eapply advances_by_trans; eauto.
Qed.

Lemma advances_strictly_weaken st st' :
  advances_strictly st st' -> advances st st'.
Proof. intros (xs & _ & H). exists xs. exact H. Qed.

Lemma advances_advance st x xs :
  rest st = x :: xs -> advances_strictly st (advance st).
Proof.
  intros H. exists [x]. split; [discriminate|].
  unfold advance, advances_by. rewrite H. simpl. split; reflexivity.
Qed.

Lemma advances_length st st' :
  advances st st' -> length (rest st') <= length (rest st).
Proof. intros (xs & H & _). rewrite H, length_app. lia. Qed.

Lemma advances_strictly_length st st' :
  advances_strictly st st' -> length (rest st') < length (rest st).
Proof.
  intros (xs & Hne & H & _). rewrite H, length_app.
  destruct xs; [congruence | simpl; lia].
Qed.

(** Whatever a matcher step returns was accepted by its continuation at a
    state further along the input. *)
Definition step_sound (step : mstate -> cont -> option mstate) : Prop :=
  forall st k res, step st k = Some res ->
    exists st', advances st st' /\ k st' = Some res.

Lemma star_loop_sound g step :
  step_sound step -> forall n, step_sound (star_loop g step n).
Proof.
  intros Hs n. induction n as [|n IH]; intros st k res H; simpl in H.
  - exists st. split; [apply advances_refl | exact H].
  - assert (Hiter : forall r0,
      step st (fun st' =>
        if Nat.ltb (length (rest st')) (length (rest st))
        then star_loop g step n st' k else None) = Some r0 ->
      exists st', advances st st' /\ k st' = Some r0).
    { intros r0 Hr. apply Hs in Hr. destruct Hr as (st1 & Ha & Hk).
      destruct (Nat.ltb _ _); [|discriminate].
      apply IH in Hk. destruct Hk as (st2 & Ha2 & Hk2).
      exists st2. split; [eapply advances_trans; eauto | exact Hk2]. }
    destruct g; unfold orelse in H.
    + destruct (step st _) eqn:E.
      * inversion H; subst. apply Hiter. reflexivity.
      * exists st. split; [apply advances_refl | exact H].
    + destruct (k st) eqn:E.
      * inversion H; subst. exists st. split; [apply advances_refl | exact E].
      * apply Hiter. exact H.
Qed.

Lemma m_sound fl r : step_sound (m fl r).
Proof.
  induction r; intros st k res H; simpl in H.
  - exists st. split; [apply advances_refl | exact H].
  - destruct (rest st) eqn:E; [discriminate|].
    destruct (chr_match fl c c0); [|discriminate].
    exists (advance st). split; [|exact H].
    apply advances_strictly_weaken. eapply advances_advance; eauto.
  - destruct (rest st) eqn:E; [discriminate|].
    destruct (cls_match fl neg items c); [|discriminate].
    exists (advance st). split; [|exact H].
    apply advances_strictly_weaken. eapply advances_advance; eauto.
  - destruct (rest st) eqn:E; [discriminate|].
    destruct (is_line_terminator c); [discriminate|].
    exists (advance st). split; [|exact H].
    apply advances_strictly_weaken. eapply advances_advance; eauto.
  - apply IHr1 in H. destruct H as (st1 & Ha & H).
    apply IHr2 in H. destruct H as (st2 & Hb & H).
    exists st2. split; [eapply advances_trans; eauto | exact H].
  - unfold orelse in H. destruct (m fl r1 st k) eqn:E.
    + inversion H; subst. apply IHr1. exact E.
    + apply IHr2. exact H.
  - eapply star_loop_sound; eauto.
  - apply IHr in H. destruct H as (st1 & Ha & H).
    exists (set_cap i (slice st st1) st1). split; [|exact H].
    destruct Ha as (xs & Ha). exists xs. exact Ha.
  - destruct (m fl r st Some) eqn:E; [|discriminate].
    eexists. split; [|exact H]. exists []. split; reflexivity.
  - destruct (at_bol fl st); [|discriminate].
    exists st. split; [apply advances_refl | exact H].
  - destruct (at_eol fl st); [|discriminate].
    exists st. split; [apply advances_refl | exact H].
  - destruct (at_wordb st); [|discriminate].
    exists st. split; [apply advances_refl | exact H].
Qed.

(** A pattern that [consumes] hands its continuation a state strictly
    further along. *)
Lemma m_consumes fl r :
  consumes r = true ->
  forall st k res, m fl r st k = Some res ->
    exists st', advances_strictly st st' /\ k st' = Some res.
Proof.
  induction r; intros Hc st k res H; simpl in Hc; try discriminate; simpl in H.
  - destruct (rest st) eqn:E; [discriminate|].
    destruct (chr_match fl c c0); [|discriminate].
    exists (advance st). split; [eapply advances_advance; eauto | exact H].
  - destruct (rest st) eqn:E; [discriminate|].
    destruct (cls_match fl neg items c); [|discriminate].
    exists (advance st). split; [eapply advances_advance; eauto | exact H].
  - destruct (rest st) eqn:E; [discriminate|].
    destruct (is_line_terminator c); [discriminate|].
    exists (advance st). split; [eapply advances_advance; eauto | exact H].
  - destruct (consumes r1) eqn:E1.
    + apply IHr1 in H; [|reflexivity]. destruct H as (st1 & Ha & H).
      apply m_sound in H. destruct H as (st2 & Hb & H).
      exists st2. split; [eapply advances_strictly_l; eauto | exact H].
    + simpl in Hc. apply m_sound in H. destruct H as (st1 & Ha & H).
      apply IHr2 in H; [|exact Hc]. destruct H as (st2 & Hb & H).
      exists st2. split; [eapply advances_strictly_r; eauto | exact H].
  - apply andb_true_iff in Hc. destruct Hc as [Hc1 Hc2].
    unfold orelse in H. destruct (m fl r1 st k) eqn:E.
    + inversion H; subst. apply IHr1; assumption.
    + apply IHr2; assumption.
  - apply IHr in H; [|exact Hc]. destruct H as (st1 & Ha & H).
    exists (set_cap i (slice st st1) st1). split; [|exact H].
    destruct Ha as (xs & Hne & Ha). exists xs. split; assumption.
Qed.

Lemma match_at_advances fl r bef s st' :
  match_at fl r bef s = Some st' ->
  exists xs, s = xs ++ rest st' /\ before st' = rev xs ++ bef.
Proof.
  unfold match_at. intros H. apply m_sound in H.
  destruct H as (st1 & (xs & Ha & Hb) & Hk). inversion Hk; subst.
  exists xs. split; assumption.
Qed.

Lemma match_at_consumes fl r bef s st' :
  consumes r = true -> match_at fl r bef s = Some st' ->
  length (rest st') < length s.
Proof.
  unfold match_at. intros Hc H. eapply m_consumes in H; [|exact Hc].
  destruct H as (st1 & Ha & Hk). inversion Hk; subst.
  apply advances_strictly_length in Ha. exact Ha.
Qed.

(** The [exec] loop of a pattern that [consumes] ends. *)
Lemma exec_go_total fl r :
  consumes r = true ->
  forall s skip bef, exists l, exec_go fl r skip bef s = Some l.
Proof.
  intros Hc s. induction s as [|c s IH]; intros skip bef; cbn -[Nat.sub].
  - destruct skip; [|eexists; reflexivity].
    destruct (match_at fl r bef []) eqn:E; [|eexists; reflexivity].
    apply match_at_consumes in E; [|exact Hc]. simpl in E. lia.
  - destruct skip as [|n]; [|apply IH].
    destruct (match_at fl r bef (c :: s)) eqn:E; [|apply IH].
    pose proof (match_at_consumes _ _ _ _ Hc E) as Hlen.
    destruct (Nat.eqb _ 0) eqn:E0.
    + apply Nat.eqb_eq in E0. simpl length in *. lia.
    + destruct (IH (S (length s) - length (rest m0) - 1) (c :: bef)) as [l Hl].
      rewrite Hl. eexists. reflexivity.
Qed.

Lemma exec_all_total fl r s :
  consumes r = true -> exists l, exec_all fl r s = Some l.
Proof. intros Hc. apply exec_go_total. exact Hc. Qed.

End RegexFacts.

(* ================================================================= *)
(** * Properties of the insertion-ordered map and of deduplication *)

Module JsMapFacts.
Import JsFacts.

Section Facts.
Variable V : Type.
Implicit Types (mp : JsMap.t V) (k : jsstring) (v : V).

Lemma get_set_eq k v mp : JsMap.get k (JsMap.set k v mp) = Some v.
Proof.
  induction mp as [|[k' v'] mp IH]; simpl.
  - rewrite eqb_refl. reflexivity.
  - destruct (Js.eqb k k') eqn:E; simpl; rewrite E; [reflexivity | exact IH].
Qed.

Lemma get_set_neq k k' v mp :
  k <> k' -> JsMap.get k' (JsMap.set k v mp) = JsMap.get k' mp.
Proof.
  intros Hne. induction mp as [|[k0 v0] mp IH]; simpl.
  - destruct (Js.eqb k' k) eqn:E; [|reflexivity].
    apply eqb_eq in E. congruence.
  - destruct (Js.eqb k k0) eqn:E; simpl.
    + apply eqb_eq in E. subst k0.
      destruct (Js.eqb k' k) eqn:E'; [|reflexivity].
      apply eqb_eq in E'. congruence.
    + rewrite IH. reflexivity.
Qed.

Lemma get_None_keys k mp : JsMap.get k mp = None <-> ~ In k (JsMap.keys mp).
Proof.
  induction mp as [|[k' v'] mp IH]; simpl.
  - tauto.
  - destruct (Js.eqb k k') eqn:E.
    + apply eqb_eq in E. subst. split; [discriminate | tauto].
    + apply eqb_neq in E. rewrite IH. split; [intros H [H1|H1]; congruence | tauto].
Qed.

Lemma keys_set_present k v mp :
  JsMap.get k mp <> None -> JsMap.keys (JsMap.set k v mp) = JsMap.keys mp.
Proof.
  induction mp as [|[k' v'] mp IH]; simpl; intros H.
  - congruence.
  - destruct (Js.eqb k k') eqn:E; simpl; [reflexivity|].
    f_equal. apply IH. exact H.
Qed.

Lemma keys_set_absent k v mp :
  JsMap.get k mp = None -> JsMap.keys (JsMap.set k v mp) = JsMap.keys mp ++ [k].
Proof.
  induction mp as [|[k' v'] mp IH]; simpl; intros H.
  - reflexivity.
  - destruct (Js.eqb k k') eqn:E; [discriminate|]. simpl.
    f_equal. apply IH. exact H.
Qed.

Lemma nodup_keys_set k v mp :
  NoDup (JsMap.keys mp) -> NoDup (JsMap.keys (JsMap.set k v mp)).
Proof.
  intros Hnd. destruct (JsMap.get k mp) eqn:E.
  - rewrite keys_set_present; [exact Hnd | congruence].
  - rewrite keys_set_absent by exact E.
    apply NoDup_app; [exact Hnd | repeat constructor; simpl; tauto |].
    intros x Hx [Hx'|[]]. subst x. apply get_None_keys in E. tauto.
Qed.

Lemma in_get k v mp :
  NoDup (JsMap.keys mp) -> In (k, v) mp -> JsMap.get k mp = Some v.
Proof.
  induction mp as [|[k' v'] mp IH]; simpl; intros Hnd Hin; [tauto|].
  inversion Hnd as [|? ? Hnotin Hnd']; subst.
  destruct Hin as [Hin|Hin].
  - inversion Hin; subst. rewrite eqb_refl. reflexivity.
  - destruct (Js.eqb k k') eqn:E.
    + apply eqb_eq in E. subst k'. exfalso. apply Hnotin.
      change (In (fst (k, v)) (map fst mp)). apply in_map. exact Hin.
    + apply IH; assumption.
Qed.

Lemma in_values_get v mp :
  NoDup (JsMap.keys mp) -> In v (JsMap.values mp) ->
  exists k, JsMap.get k mp = Some v.
Proof.
  intros Hnd Hin. unfold JsMap.values in Hin. apply in_map_iff in Hin.
  destruct Hin as ([k v'] & Hv & Hin). simpl in Hv. subst v'.
  exists k. apply in_get; assumption.
Qed.

Lemma get_in_values k v mp : JsMap.get k mp = Some v -> In v (JsMap.values mp).
Proof.
  induction mp as [|[k' v'] mp IH]; simpl; intros H; [discriminate|].
  destruct (Js.eqb k k'); [inversion H; subst; left; reflexivity | right; auto].
Qed.

End Facts.

End JsMapFacts.

Module DedupFacts.
Import JsFacts JsMapFacts.

Lemma first_longest_in q l : first_longest q l -> In q l.
Proof.
  intros (l1 & l2 & H & _). subst l. apply in_or_app. right. left. reflexivity.
Qed.

Lemma first_longest_max q l p :
  first_longest q l -> In p l -> provision_ref p = provision_ref q ->
  length (content p) <= length (content q).
Proof.
  intros (l1 & l2 & H & Hl1 & Hl2) Hin Href. subst l.
  apply in_app_or in Hin. destruct Hin as [Hin|[Hin|Hin]].
  - specialize (Hl1 p Hin Href). lia.
  - subst p. lia.
  - apply Hl2; assumption.
Qed.

Lemma first_longest_snoc_other q l p :
  first_longest q l ->
  (provision_ref p = provision_ref q -> length (content p) <= length (content q)) ->
  first_longest q (l ++ [p]).
Proof.
  intros (l1 & l2 & H & Hl1 & Hl2) Hp. subst l.
  exists l1, (l2 ++ [p]). split; [|split].
  - rewrite <- app_assoc. reflexivity.
  - exact Hl1.
  - intros x Hx Href. apply in_app_or in Hx. destruct Hx as [Hx|[Hx|[]]].
    + apply Hl2; assumption.
    + subst x. apply Hp. exact Href.
Qed.

Lemma first_longest_snoc_new l p :
  (forall x, In x l -> provision_ref x = provision_ref p ->
             length (content x) < length (content p)) ->
  first_longest p (l ++ [p]).
Proof.
  intros H. exists l, []. split; [reflexivity|]. split; [exact H|].
  intros x [].
Qed.

Lemma dedup_inv_nil : dedup_inv [] [].
Proof.
  split; [constructor|]. split.
  - intros k v H. discriminate.
  - intros p [].
Qed.

Lemma dedup_step_inv l mp p :
  dedup_inv l mp -> dedup_inv (l ++ [p]) (dedup_step mp p).
Proof.
  intros (Hnd & Hget & Hall). unfold dedup_step.
  destruct (JsMap.get (provision_ref p) mp) as [existing|] eqn:E.
  - destruct (Hget _ _ E) as [Hk Hfl].
    destruct (Nat.ltb _ _) eqn:Elt.
    + apply Nat.ltb_lt in Elt. split; [apply nodup_keys_set; exact Hnd|]. split.
      * intros k v Hkv.
        destruct (list_eq_dec N.eq_dec (provision_ref p) k) as [Heq|Hne].
        -- subst k. rewrite get_set_eq in Hkv. inversion Hkv; subst v.
           split; [reflexivity|]. apply first_longest_snoc_new.
           intros x Hx Href.
           assert (length (content x) <= length (content existing)).
           { eapply first_longest_max; eauto. congruence. }
           lia.
        -- rewrite get_set_neq in Hkv by exact Hne.
           destruct (Hget _ _ Hkv) as [Hk' Hfl']. split; [exact Hk'|].
           apply first_longest_snoc_other; [exact Hfl'|]. intros Href. congruence.
      * intros x Hx.
        destruct (list_eq_dec N.eq_dec (provision_ref p) (provision_ref x)) as [Heq|Hne].
        -- rewrite <- Heq, get_set_eq. discriminate.
        -- rewrite get_set_neq by exact Hne.
           apply in_app_or in Hx. destruct Hx as [Hx|[Hx|[]]]; [auto | congruence].
    + apply Nat.ltb_ge in Elt. split; [exact Hnd|]. split.
      * intros k v Hkv. destruct (Hget _ _ Hkv) as [Hk' Hfl']. split; [exact Hk'|].
        apply first_longest_snoc_other; [exact Hfl'|]. intros Href.
        assert (v = existing) by congruence. subst v. exact Elt.
      * intros x Hx. apply in_app_or in Hx. destruct Hx as [Hx|[Hx|[]]]; [auto|].
        subst x. congruence.
  - split; [apply nodup_keys_set; exact Hnd|]. split.
    + intros k v Hkv.
      destruct (list_eq_dec N.eq_dec (provision_ref p) k) as [Heq|Hne].
      * subst k. rewrite get_set_eq in Hkv. inversion Hkv; subst v.
        split; [reflexivity|]. apply first_longest_snoc_new.
        intros x Hx Href. exfalso. apply (Hall x Hx). congruence.
      * rewrite get_set_neq in Hkv by exact Hne.
        destruct (Hget _ _ Hkv) as [Hk' Hfl']. split; [exact Hk'|].
        apply first_longest_snoc_other; [exact Hfl'|]. intros Href. congruence.
    + intros x Hx.
      destruct (list_eq_dec N.eq_dec (provision_ref p) (provision_ref x)) as [Heq|Hne].
      * rewrite <- Heq, get_set_eq. discriminate.
      * rewrite get_set_neq by exact Hne.
        apply in_app_or in Hx. destruct Hx as [Hx|[Hx|[]]]; [auto | congruence].
Qed.

Lemma dedup_fold_inv ps : forall l mp,
  dedup_inv l mp -> dedup_inv (l ++ ps) (fold_left dedup_step ps mp).
Proof.
  induction ps as [|p ps IH]; intros l mp H; simpl.
  - rewrite app_nil_r. exact H.
  - replace (l ++ p :: ps) with ((l ++ [p]) ++ ps) by (rewrite <- app_assoc; reflexivity).
    apply IH. apply dedup_step_inv. exact H.
Qed.

Lemma keys_refs mp l :
  dedup_inv l mp -> map provision_ref (JsMap.values mp) = JsMap.keys mp.
Proof.
  intros (Hnd & Hget & _). unfold JsMap.values, JsMap.keys. rewrite map_map.
  apply map_ext_in. intros [k v] Hin. simpl.
  apply in_get in Hin; [|exact Hnd]. apply Hget in Hin. tauto.
Qed.

(** The deduplication loop keeps, for every reference, the first longest
    provision of the pass. *)
Lemma dedup_provisions_spec ps : deduplicated ps (dedup_provisions ps).
Proof.
  pose proof (dedup_fold_inv ps dedup_inv_nil) as Hinv. simpl in Hinv.
  unfold dedup_provisions. set (mp := fold_left dedup_step ps []) in *.
  pose proof Hinv as (Hnd & Hget & Hall). split; [|split].
  - rewrite (keys_refs Hinv). exact Hnd.
  - intros q Hq. apply in_values_get in Hq; [|exact Hnd].
    destruct Hq as [k Hk]. apply Hget in Hk. tauto.
  - intros p Hp. specialize (Hall p Hp).
    destruct (JsMap.get (provision_ref p) mp) as [q|] eqn:E; [|congruence].
    exists q. destruct (Hget _ _ E) as [Hk Hfl]. split; [|split].
    + eapply get_in_values; eauto.
    + exact Hk.
    + eapply first_longest_max; eauto.
Qed.

Lemma dedup_provisions_subset ps q : In q (dedup_provisions ps) -> In q ps.
Proof.
  intros H. apply first_longest_in. apply (dedup_provisions_spec ps). exact H.
Qed.

End DedupFacts.

(* ================================================================= *)
(** * Properties of the zone parsers *)

Module ParserFacts.
Import JsFacts RegexFacts DedupFacts.

Lemma foldM_total {A S : Type} (f : S -> A -> option S) :
  (forall s x, exists s', f s x = Some s') ->
  forall l s, exists s', foldM f l s = Some s'.
Proof.
  intros Hf l. induction l as [|x l IH]; intros s; simpl.
  - eexists; reflexivity.
  - destruct (Hf s x) as [s1 H1]. rewrite H1. simpl. apply IH.
Qed.

Lemma foldM_invariant {A S : Type} (f : S -> A -> option S) (P : S -> Prop) l :
  (forall s x s', In x l -> P s -> f s x = Some s' -> P s') ->
  forall s s', P s -> foldM f l s = Some s' -> P s'.
Proof.
  induction l as [|x l IH]; intros Hf s s' Hs H; simpl in H.
  - inversion H; subst. exact Hs.
  - destruct (f s x) as [s1|] eqn:E; [|discriminate]. simpl in H.
    eapply IH; [| |exact H].
    + intros s0 y s0' Hy. apply Hf. right. exact Hy.
    + eapply Hf; [left; reflexivity | exact Hs | exact E].
Qed.

Section Step.
Variables (flChap : flags) (chapterScan : regex) (flTitle : flags) (titleRe : regex)
          (flIsDef : flags) (isDefRe : regex) (flDef : flags) (defPattern : regex)
          (prefix lang : jsstring).
Hypothesis chapter_consumes : consumes chapterScan = true.
Hypothesis def_consumes : consumes defPattern = true.

Let step := article_step flChap chapterScan flTitle titleRe flIsDef isDefRe
              flDef defPattern prefix lang.

Lemma article_step_total acc am : exists acc', step acc am = Some acc'.
Proof.
  unfold step, article_step, scan_chapter, extract_definitions.
  destruct (@exec_all_total flChap chapterScan (m_pre am) chapter_consumes) as [chaps Hc].
  rewrite Hc. simpl.
  destruct (test flIsDef isDefRe (grp 2 am)).
  - destruct (@exec_all_total flDef defPattern (grp 2 am) def_consumes) as [defs Hd].
    rewrite Hd. simpl. eexists; reflexivity.
  - simpl. eexists; reflexivity.
Qed.

Lemma article_step_provisions acc am acc' :
  step acc am = Some acc' ->
  exists chap ttl,
    raw_provisions acc' =
      push_provision prefix (grp 1 am) chap ttl (grp 2 am) lang (raw_provisions acc).
Proof.
  unfold step, article_step. intros H.
  destruct (scan_chapter _ _ _ _) as [chap|]; [|discriminate]. simpl in H.
  destruct (extract_definitions _ _ _ _ _ _ _) as [ds|]; [|discriminate].
  simpl in H. inversion H; subst. simpl. eexists _, _. reflexivity.
Qed.

Lemma push_provision_short articleNum chap ttl body ps :
  length (stripHtml body) <= 5 ->
  push_provision prefix articleNum chap ttl body lang ps = ps.
Proof.
  intros H. unfold push_provision.
  destruct (Nat.ltb 5 _) eqn:E; [|reflexivity]. apply Nat.ltb_lt in E. lia.
Qed.

Lemma push_provision_in p articleNum chap ttl body ps :
  In p (push_provision prefix articleNum chap ttl body lang ps) ->
  In p ps \/
  (5 < length (stripHtml body) /\
   provision_ref p = prefix ++ articleNum /\ section p = articleNum /\
   content p = firstn max_content (stripHtml body) /\ language p = lang).
Proof.
  unfold push_provision. destruct (Nat.ltb 5 _) eqn:E; [|tauto].
  apply Nat.ltb_lt in E. intros H. apply in_app_or in H.
  destruct H as [H|[H|[]]]; [left; exact H|]. subst p. right.
  split; [exact E|]. repeat split; reflexivity.
Qed.

Lemma pass_stored_ok articles acc :
  foldM step articles empty_pass = Some acc ->
  Forall (stored_ok articles) (raw_provisions acc).
Proof.
  intros H.
  refine (@foldM_invariant _ _ step
            (fun s => Forall (stored_ok articles) (raw_provisions s))
            articles _ empty_pass acc _ H); [|constructor].
  intros s x s' Hx Hs Hstep.
  apply article_step_provisions in Hstep. destruct Hstep as (chap & ttl & Hp).
  rewrite Hp. apply Forall_forall. intros p Hin.
  apply push_provision_in in Hin. destruct Hin as [Hin|(Hlen & _ & _ & Hc & _)].
  - rewrite Forall_forall in Hs. apply Hs. exact Hin.
  - split.
    + rewrite Hc, length_firstn. unfold max_content. lia.
    + exists x. split; [exact Hx|]. split; assumption.
Qed.

Lemma pass_total articles : exists acc, foldM step articles empty_pass = Some acc.
Proof. apply foldM_total. apply article_step_total. Qed.

End Step.

Lemma consumes_patterns :
  consumes re_article_ar = true /\ consumes re_article_en = true /\
  consumes re_article_difc = true /\ consumes re_section_adgm = true /\
  consumes re_chapter_ar = true /\ consumes re_chapter_en = true /\
  consumes re_chapter_difc = true /\ consumes re_chapter_adgm = true /\
  consumes re_def_ar = true /\ consumes re_def_en = true.
Proof. repeat split; vm_compute; reflexivity. Qed.

Ltac consumes_tac :=
  first [ apply consumes_patterns
        | match goal with |- consumes (if ?b then _ else _) = true =>
            destruct b; apply consumes_patterns end ].

(** Every extraction pass ends and every provision it has pushed is the
    normalized body of one of the matches, longer than 5 and cut at 12000. *)
Lemma federal_pass_ok html :
  exists articles acc,
    exec_all fl_none (if isArabic html then re_article_ar else re_article_en) html
      = Some articles /\
    federal_pass html = Some acc /\
    Forall (stored_ok articles) (raw_provisions acc).
Proof.
  unfold federal_pass.
  destruct (@exec_all_total fl_none
              (if isArabic html then re_article_ar else re_article_en) html)
    as [articles Ha]; [consumes_tac|].
  rewrite Ha. simpl.
  match goal with |- context [foldM ?f articles empty_pass] =>
    assert (Ht : exists acc, foldM f articles empty_pass = Some acc)
  end.
  { apply pass_total; consumes_tac. }
  destruct Ht as [acc Hacc]. exists articles, acc.
  split; [reflexivity|]. split; [exact Hacc|].
  eapply pass_stored_ok. exact Hacc.
Qed.

Lemma difc_pass_ok html :
  exists articles acc,
    exec_all fl_i re_article_difc html = Some articles /\
    difc_pass html = Some acc /\
    Forall (stored_ok articles) (raw_provisions acc).
Proof.
  unfold difc_pass.
  destruct (@exec_all_total fl_i re_article_difc html) as [articles Ha];
    [consumes_tac|].
  rewrite Ha. simpl.
  match goal with |- context [foldM ?f articles empty_pass] =>
    assert (Ht : exists acc, foldM f articles empty_pass = Some acc)
  end.
  { apply pass_total; consumes_tac. }
  destruct Ht as [acc Hacc]. exists articles, acc.
  split; [reflexivity|]. split; [exact Hacc|].
  eapply pass_stored_ok. exact Hacc.
Qed.

Lemma adgm_pass_ok html :
  exists articles acc,
    exec_all fl_i re_section_adgm html = Some articles /\
    adgm_pass html = Some acc /\
    Forall (stored_ok articles) (raw_provisions acc).
Proof.
  unfold adgm_pass.
  destruct (@exec_all_total fl_i re_section_adgm html) as [articles Ha];
    [consumes_tac|].
  rewrite Ha. simpl.
  match goal with |- context [foldM ?f articles empty_pass] =>
    assert (Ht : exists acc, foldM f articles empty_pass = Some acc)
  end.
  { apply pass_total; consumes_tac. }
  destruct Ht as [acc Hacc]. exists articles, acc.
  split; [reflexivity|]. split; [exact Hacc|].
  eapply pass_stored_ok. exact Hacc.
Qed.

End ParserFacts.

(* ================================================================= *)
(** * Literal patterns and leftmost search *)

Module SearchFacts.
Import JsFacts RegexFacts.

Lemma m_Str_cons fl c w st k :
  m fl (Str (c :: w)) st k = m fl (Chr c) st (fun st' => m fl (Str w) st' k).
Proof. destruct w; reflexivity. Qed.

Lemma m_Str fl w : forall st k,
  m fl (Str w) st k =
  match strip_prefix fl w (rest st) with
  | Some post =>
      k {| before := rev (firstn (length w) (rest st)) ++ before st;
           rest := post; caps := caps st |}
  | None => None
  end.
Proof.
  induction w as [|c w IH]; intros st k.
  - destruct st; reflexivity.
  - rewrite m_Str_cons. simpl m. simpl strip_prefix.
    destruct (rest st) as [|x s'] eqn:E; [reflexivity|].
    destruct (chr_match fl c x); [|reflexivity].
    rewrite IH. unfold advance. rewrite E. simpl rest. simpl before. simpl caps.
    destruct (strip_prefix fl w s'); [|reflexivity].
    f_equal. f_equal. simpl. rewrite <- app_assoc. reflexivity.
Qed.

Lemma strip_prefix_exact w s post :
  strip_prefix fl_none w s = Some post <-> s = w ++ post.
Proof.
  revert s. induction w as [|c w IH]; intros s; simpl.
  - split; congruence.
  - destruct s as [|x s]; [split; discriminate|].
    unfold chr_match. simpl. destruct (N.eqb_spec x c) as [->|Hne].
    + rewrite IH. split; congruence.
    + split; [discriminate | congruence].
Qed.

Lemma search_none fl r : forall s bef,
  search fl r bef s = None <->
  (forall pre post, s = pre ++ post -> match_at fl r (rev pre ++ bef) post = None).
Proof.
  induction s as [|c s IH]; intros bef; simpl.
  - split.
    + intros H pre post Hs. symmetry in Hs. apply app_eq_nil in Hs.
      destruct Hs; subst. simpl. destruct (match_at fl r bef []); congruence.
    + intros H. specialize (H [] [] eq_refl). simpl in H. rewrite H. reflexivity.
  - split.
    + intros H pre post Hs.
      destruct (match_at fl r bef (c :: s)) eqn:E; [discriminate|].
      destruct pre as [|x pre]; simpl in Hs.
      * subst post. exact E.
      * inversion Hs; subst. simpl. rewrite <- app_assoc. simpl.
        apply (proj1 (IH (x :: bef)) H). reflexivity.
    + intros H. pose proof (H [] (c :: s) eq_refl) as H0. simpl in H0. rewrite H0.
      apply IH. intros pre post Hs.
      specialize (H (c :: pre) post). simpl in H. rewrite <- app_assoc in H.
      apply H. rewrite Hs. reflexivity.
Qed.

Lemma search_some fl r : forall s bef res,
  search fl r bef s = Some res ->
  exists pre post st',
    s = pre ++ post /\ match_at fl r (rev pre ++ bef) post = Some st' /\
    res = mk_result (rev pre ++ bef) post st'.
Proof.
  induction s as [|c s IH]; intros bef res H; simpl in H.
  - destruct (match_at fl r bef []) eqn:E; [|discriminate].
    inversion H; subst. exists [], [], m0. simpl. auto.
  - destruct (match_at fl r bef (c :: s)) eqn:E.
    + inversion H; subst. exists [], (c :: s), m0. simpl. auto.
    + apply IH in H. destruct H as (pre & post & st' & Hs & Hm & Hr).
      exists (c :: pre), post, st'. simpl. rewrite <- app_assoc. simpl.
      subst s. auto.
Qed.

Lemma test_true fl r s :
  test fl r s = true <->
  exists pre post, s = pre ++ post /\ match_at fl r (rev pre) post <> None.
Proof.
  unfold test, str_match. split.
  - intros H. destruct (search fl r [] s) eqn:E; [|discriminate].
    apply search_some in E. destruct E as (pre & post & st' & Hs & Hm & _).
    rewrite app_nil_r in Hm. exists pre, post. split; [exact Hs | congruence].
  - intros (pre & post & Hs & Hm).
    destruct (search fl r [] s) eqn:E; [reflexivity|].
    exfalso. apply Hm.
    pose proof (proj1 (search_none fl r s []) E pre post Hs) as Hn.
    rewrite app_nil_r in Hn. exact Hn.
Qed.

(** Testing a literal without flags is the substring test. *)
Lemma test_literal w s : test fl_none (Str w) s = true <-> contains w s.
Proof.
  rewrite test_true. unfold contains, match_at. split.
  - intros (pre & post & Hs & Hm). rewrite m_Str in Hm. simpl in Hm.
    destruct (strip_prefix fl_none w post) as [post'|] eqn:E; [|congruence].
    apply strip_prefix_exact in E. exists pre, post'. congruence.
  - intros (pre & post' & Hs). exists pre, (w ++ post'). split; [exact Hs|].
    rewrite m_Str. simpl.
    rewrite (proj2 (strip_prefix_exact w (w ++ post') post') eq_refl). discriminate.
Qed.

End SearchFacts.

(* ================================================================= *)
(** * The zone parsers: deduplication, content bounds, language *)

Section ParserClaims.
Import JsFacts RegexFacts DedupFacts ParserFacts SearchFacts.

(** C2.  Each of the three zone parsers returns a document, and its
    [provisions] are the provisions of the extraction pass deduplicated by
    [provision_ref]: no two entries share a reference, every entry is the
    first longest provision of the pass with its reference (so an earlier
    provision of equal length is kept), and every provision of the pass has
    an entry with its reference whose content is at least as long. *)
Theorem parsers_deduplicate (html : jsstring) :
  (forall law, exists p doc,
     federal_pass html = Some p /\ parseFederalLawHtml html law = Some doc /\
     deduplicated (raw_provisions p) (provisions doc)) /\
  (forall law, exists p doc,
     difc_pass html = Some p /\ parseDifcLawHtml html law = Some doc /\
     deduplicated (raw_provisions p) (provisions doc)) /\
  (forall regulation, exists p doc,
     adgm_pass html = Some p /\ parseAdgmRegulationHtml html regulation = Some doc /\
     deduplicated (raw_provisions p) (provisions doc)).
Proof.
  split; [|split].
  - intros law. destruct (federal_pass_ok html) as (articles & p & _ & Hp & _).
    unfold parseFederalLawHtml. rewrite Hp. simpl.
    eexists p, _. split; [reflexivity|]. split; [reflexivity|].
    simpl. apply dedup_provisions_spec.
  - intros law. destruct (difc_pass_ok html) as (articles & p & _ & Hp & _).
    unfold parseDifcLawHtml. rewrite Hp. simpl.
    eexists p, _. split; [reflexivity|]. split; [reflexivity|].
    simpl. apply dedup_provisions_spec.
  - intros regulation. destruct (adgm_pass_ok html) as (articles & p & _ & Hp & _).
    unfold parseAdgmRegulationHtml. rewrite Hp. simpl.
    eexists p, _. split; [reflexivity|]. split; [reflexivity|].
    simpl. apply dedup_provisions_spec.
Qed.

Lemma provisions_stored_ok articles raw :
  Forall (stored_ok articles) raw ->
  Forall (stored_ok articles) (dedup_provisions raw).
Proof.
  intros H. apply Forall_forall. intros q Hq.
  apply dedup_provisions_subset in Hq. rewrite Forall_forall in H. auto.
Qed.



Lemma ar_article_units : ar_article = [1575; 1604; 1605; 1575; 1583; 1577]%N.
Proof. reflexivity. Qed.

(** C7.  [parseFederalLawHtml] returns a document whose language is "ar"
    exactly when the raw HTML contains the Arabic word for article and "en"
    exactly when it does not; the DIFC and ADGM parsers return a document
    whose language is "en". *)
Theorem language_detection (html : jsstring) :
  (forall law, exists doc,
     parseFederalLawHtml html law = Some doc /\
     (doc_language doc = lit "ar" <-> contains ar_article html) /\
     (doc_language doc = lit "en" <-> ~ contains ar_article html)) /\
  (forall law, exists doc,
     parseDifcLawHtml html law = Some doc /\ doc_language doc = lit "en") /\
  (forall regulation, exists doc,
     parseAdgmRegulationHtml html regulation = Some doc /\
     doc_language doc = lit "en").
Proof.
  split; [|split].
  - intros law. destruct (federal_pass_ok html) as (articles & p & _ & Hp & _).
    unfold parseFederalLawHtml. rewrite Hp. simpl.
    eexists. split; [reflexivity|]. simpl. unfold federal_language.
    pose proof (test_literal ar_article html) as Ht. fold (isArabic html) in Ht.
    destruct (isArabic html).
    + split; [tauto|]. split; [intros H; vm_compute in H; discriminate|].
      intros Hn. exfalso. apply Hn. apply Ht. reflexivity.
    + split.
      * split; [intros H; vm_compute in H; discriminate|].
        intros Hc. apply Ht in Hc. discriminate.
      * split; [|reflexivity]. intros _ Hc. apply Ht in Hc. discriminate.
  - intros law. destruct (difc_pass_ok html) as (articles & p & _ & Hp & _).
    unfold parseDifcLawHtml. rewrite Hp. simpl. eexists. split; reflexivity.
  - intros regulation. destruct (adgm_pass_ok html) as (articles & p & _ & Hp & _).
    unfold parseAdgmRegulationHtml. rewrite Hp. simpl. eexists. split; reflexivity.
Qed.

End ParserClaims.

(* ================================================================= *)
(** * The citation parser *)

Ltac destruct_matches :=
  repeat match goal with
  | |- context [str_match ?f ?r ?t] => destruct (str_match f r t)
  end.

(** C4.  [parseCitation] returns the reading of the first pattern, in the
    order Arabic, article prefix, section prefix, article suffix, section
    suffix, identifier, that matches the trimmed input, whether or not a
    later pattern matches too, and the trimmed input as a bare document
    reference without article when none matches.  So a citation that is both
    an article-prefix and a section-suffix form is read as the former, one
    that is both an Arabic and an article-suffix form as the Arabic one, and
    a text without any marker is a bare reference. *)
Theorem parseCitation_priority :
  (forall citation, parseCitation citation = Some (parse_by_priority citation)) /\
  (let c := lit "Article 5, Some Law, Section 3" in
   is_match fl_i re_artFirst c = true /\ is_match fl_i re_secLast c = true /\
   parseCitation c =
     Some {| documentRef := lit "Some Law, Section 3"; articleRef := Some (lit "5") |}) /\
  (let c := ar_article ++ lit " 2 " ++ ar_min ++ lit " X, Article 3" in
   is_match fl_none re_cite_arabic c = true /\ is_match fl_i re_artLast c = true /\
   parseCitation c =
     Some {| documentRef := lit "X, Article 3"; articleRef := Some (lit "2") |}) /\
  (let c := lit "fdl-45-2021, art. 2" in
   is_match fl_i re_artLast c = true /\ is_match fl_i re_idBased c = true /\
   parseCitation c =
     Some {| documentRef := lit "fdl-45-2021"; articleRef := Some (lit "2") |}) /\
  (let c := lit "  Nonexistent Law 9999 " in
   first_matching citation_patterns (trim c) = None /\
   parseCitation c =
     Some {| documentRef := lit "Nonexistent Law 9999"; articleRef := None |}).
Proof.
  split; [|repeat split; vm_compute; reflexivity].
  intros citation. unfold parseCitation, parse_by_priority, cite. simpl.
  destruct_matches; reflexivity.
Qed.

(* ================================================================= *)
(** * Totality of the citation parser *)

Lemma parseCitation_some citation : exists p, parseCitation citation = Some p.
Proof.
  unfold parseCitation, cite. destruct_matches; eexists; reflexivity.
Qed.

Lemma status_warnings_cases st :
  status_warnings st = [msg_repealed] \/ status_warnings st = [msg_amended]
  \/ status_warnings st = [].
Proof.
  unfold status_warnings. destruct (Js.eqb st _); [left; reflexivity|].
  destruct (Js.eqb st _); [right; left; reflexivity | right; right; reflexivity].
Qed.

Lemma status_warnings_not_parse st : status_warnings st <> [msg_could_not_parse].
Proof.
  destruct (status_warnings_cases st) as [H|[H|H]]; rewrite H;
    intros E; vm_compute in E; discriminate.
Qed.

(** C10.  [parseCitation] returns a parse for every input, and no result of
    [validateCitationTool] carries the warning of the branch for a failed
    parse. *)
Theorem parseCitation_total (citation : jsstring) :
  (exists p, parseCitation citation = Some p) /\
  (forall sql_lower sql_like db r,
     validateCitationTool sql_lower sql_like db citation = Some r ->
     warnings r <> [msg_could_not_parse]).
Proof.
  split; [apply parseCitation_some|].
  intros sql_lower sql_like db r. unfold validateCitationTool.
  destruct (parseCitation_some citation) as [parsed Hp]. rewrite Hp.
  destruct (resolveDocumentId _ _ _ _) as [docId|].
  - destruct (get_first _ _) as [doc|]; [|discriminate].
    destruct (articleRef parsed) as [ref|].
    + destruct (truthy ref).
      * destruct (get_first _ _) as [provision|]; intros H; inversion H; subst; simpl.
        -- apply status_warnings_not_parse.
        -- destruct (status_warnings_cases (row_status doc)) as [E|[E|E]];
             rewrite E; simpl; intros E'; inversion E' as [E''];
             vm_compute in E''; discriminate.
      * intros H; inversion H; subst; simpl. apply status_warnings_not_parse.
    + intros H; inversion H; subst; simpl. apply status_warnings_not_parse.
  - intros H; inversion H; subst; simpl. intros E. inversion E.
Qed.

(* ================================================================= *)
(** * The resolver cascade *)

Module ResolverFacts.
Import JsFacts.

Lemma trim_start_spaces s :
  (forall c, In c s -> is_space c = true) -> trim_start s = [].
Proof.
  induction s as [|c s IH]; intros H; simpl; [reflexivity|].
  rewrite (H c (or_introl eq_refl)). apply IH. intros x Hx. apply H. right. exact Hx.
Qed.

Lemma trim_spaces s :
  (forall c, In c s -> is_space c = true) -> trim s = [].
Proof.
  intros H. unfold trim. rewrite (trim_start_spaces s H). reflexivity.
Qed.

Lemma truthy_false s : truthy s = false <-> s = [].
Proof. destruct s; simpl; split; congruence. Qed.

Lemma find_exists {A : Type} (f : A -> bool) l x :
  In x l -> f x = true -> exists y, find f l = Some y.
Proof.
  induction l as [|a l IH]; simpl; intros Hin Hx; [tauto|].
  destruct (f a) eqn:E; [eexists; reflexivity|].
  destruct Hin as [->|Hin]; [congruence | auto].
Qed.

Section Resolver.
Variable sql_lower : jsstring -> jsstring.
Variable sql_like : jsstring -> jsstring -> bool.

Lemma resolve_cascade db input :
  trim input <> [] ->
  resolveDocumentId sql_lower sql_like db input =
  first_success (stages sql_lower sql_like) db (trim input).
Proof.
  intros Hne. unfold resolveDocumentId.
  destruct (truthy (trim input)) eqn:Et.
  2:{ apply truthy_false in Et. congruence. }
  simpl. unfold stage_exact_id, stage_short_name, stage_number_year,
    stage_substring, stage_substring_lower, first_id, resolve_by_title.
  destruct (get_first (q_direct _) _); [reflexivity|]. simpl.
  destruct (get_first (q_short_name _ _) _); [reflexivity|]. simpl.
  destruct (str_match fl_none re_fdl (trim input)).
  - destruct (get_first (q_federal_ids _ _) _); [reflexivity|]. simpl.
    destruct (get_first (q_title _ _) _); [reflexivity|]. simpl.
    destruct (get_first (q_lower _ _ _) _); reflexivity.
  - destruct (get_first (q_title _ _) _); [reflexivity|]. simpl.
    destruct (get_first (q_lower _ _ _) _); reflexivity.
Qed.

Lemma resolve_blank db input :
  trim input = [] -> resolveDocumentId sql_lower sql_like db input = None.
Proof. intros H. unfold resolveDocumentId. rewrite H. reflexivity. Qed.

Lemma resolve_exact db input row :
  In row (legal_documents db) -> row_id row = trim input -> trim input <> [] ->
  resolveDocumentId sql_lower sql_like db input = Some (trim input).
Proof.
  intros Hin Hid Hne. rewrite resolve_cascade by exact Hne. simpl.
  unfold stage_exact_id, first_id.
  destruct (find_exists (q_direct (trim input)) _ _ Hin) as [y Hy].
  { unfold q_direct. apply eqb_eq. exact Hid. }
  unfold get_first. rewrite Hy. simpl.
  apply find_some in Hy. destruct Hy as [_ Hy]. unfold q_direct in Hy.
  apply eqb_eq in Hy. congruence.
Qed.

(** A resolved identifier is the identifier of a row of the store. *)
Lemma resolve_in_store db input docId :
  resolveDocumentId sql_lower sql_like db input = Some docId ->
  exists row, In row (legal_documents db) /\ row_id row = docId.
Proof.
  unfold resolveDocumentId, resolve_by_title, get_first.
  destruct (negb _); [discriminate|].
  repeat match goal with
  | |- context [find ?q ?l] =>
      let E := fresh "E" in
      destruct (find q l) eqn:E;
      [ intros H; inversion H; subst; apply find_some in E; destruct E;
        eexists; split; [eassumption | reflexivity] | ]
  | |- context [str_match ?f ?r ?t] => destruct (str_match f r t)
  end; discriminate.
Qed.

Lemma resolve_row db input docId :
  resolveDocumentId sql_lower sql_like db input = Some docId ->
  exists doc,
    get_first (fun r => Js.eqb (row_id r) docId) (legal_documents db) = Some doc /\
    row_id doc = docId.
Proof.
  intros H. apply resolve_in_store in H. destruct H as (row & Hin & Hid).
  destruct (find_exists (fun r => Js.eqb (row_id r) docId) _ _ Hin) as [y Hy].
  { apply eqb_eq. exact Hid. }
  exists y. split; [exact Hy|]. apply find_some in Hy. destruct Hy as [_ Hy].
  apply eqb_eq in Hy. exact Hy.
Qed.

End Resolver.

End ResolverFacts.



(* ================================================================= *)
(** * validate_citation *)

Module ValidateFacts.
Import JsFacts RegexFacts SearchFacts.

Lemma search_bol_none r : forall s bef,
  bef <> [] -> search fl_none (Seq Bol r) bef s = None.
Proof.
  induction s as [|c s IH]; intros bef Hb; simpl.
  - unfold match_at. simpl. unfold at_bol. simpl.
    destruct bef; [congruence|]. reflexivity.
  - unfold match_at. simpl. unfold at_bol. simpl.
    destruct bef; [congruence|]. simpl. apply IH. discriminate.
Qed.

Lemma match_ref_prefix s :
  match_at fl_none re_ref_prefix [] s =
  match strip_prefix fl_none (lit "art") s with
  | Some post => Some {| before := rev (firstn 3 s); rest := post; caps := [] |}
  | None =>
      match strip_prefix fl_none (lit "s") s with
      | Some post => Some {| before := rev (firstn 1 s); rest := post; caps := [] |}
      | None => None
      end
  end.
Proof.
  unfold match_at, re_ref_prefix.
  change (L_ "art") with (Str (lit "art")). change (C_ "s") with (Str (lit "s")).
  cbn [m]. unfold at_bol. cbn [before]. rewrite !m_Str. cbn [rest before caps].
  unfold orelse. rewrite !app_nil_r.
  destruct (strip_prefix fl_none (lit "art") s); [reflexivity|].
  destruct (strip_prefix fl_none (lit "s") s); reflexivity.
Qed.

(** Removing the match of /^(?:art|s)/ removes a leading [art] or [s]. *)
Lemma replace_ref_prefix s :
  replace_first fl_none re_ref_prefix [] s = strip_ref_prefix s.
Proof.
  unfold replace_first, str_match, strip_ref_prefix.
  destruct s as [|c s]; [reflexivity|].
  cbn [search]. rewrite match_ref_prefix.
  destruct (strip_prefix fl_none (lit "art") (c :: s)) eqn:E1; [reflexivity|].
  destruct (strip_prefix fl_none (lit "s") (c :: s)) eqn:E2; [reflexivity|].
  unfold re_ref_prefix. rewrite search_bol_none by discriminate. reflexivity.
Qed.

Lemma status_warnings_spec st :
  (st = lit "repealed" -> status_warnings st = [msg_repealed]) /\
  (st = lit "amended" -> status_warnings st = [msg_amended]) /\
  (st <> lit "repealed" -> st <> lit "amended" -> status_warnings st = []).
Proof.
  unfold status_warnings. split; [|split].
  - intros ->. reflexivity.
  - intros ->. reflexivity.
  - intros H1 H2. apply eqb_neq in H1. apply eqb_neq in H2.
    rewrite H1, H2. reflexivity.
Qed.

Lemma zone_prefix_spec zone :
  (zone = Some (lit "federal") -> zone_prefix zone = lit "Article") /\
  (zone <> Some (lit "federal") -> zone_prefix zone = lit "Section").
Proof.
  unfold zone_prefix, sql_eq. split.
  - intros ->. reflexivity.
  - intros H. destruct zone as [z|]; [|reflexivity].
    destruct (Js.eqb z (lit "federal")) eqn:E; [|reflexivity].
    apply eqb_eq in E. congruence.
Qed.

Lemma truthy_true s : s <> [] -> truthy s = true.
Proof. destruct s; [congruence | reflexivity]. Qed.

End ValidateFacts.



(* ================================================================= *)
(** * format_citation *)

Module FormatFacts.
Import JsFacts RegexFacts SearchFacts.

Lemma strip_prefix_ci w0 : forall s post,
  strip_prefix fl_i w0 s = Some post <->
  exists w, s = w ++ post /\ map to_upper w = map to_upper w0.
Proof.
  induction w0 as [|c w0 IH]; intros s post; simpl.
  - split.
    + intros H. inversion H; subst. exists []. auto.
    + intros (w & Hs & Hw). destruct w; [simpl in Hs; congruence | discriminate].
  - destruct s as [|x s].
    + split; [discriminate|]. intros (w & Hs & Hw).
      destruct w; [discriminate | discriminate].
    + unfold chr_match. simpl. destruct (N.eqb_spec (to_upper x) (to_upper c)) as [E|E].
      * rewrite IH. split.
        -- intros (w & Hs & Hw). exists (x :: w). simpl. split; congruence.
        -- intros (w & Hs & Hw). destruct w as [|y w]; [discriminate|].
           simpl in Hs, Hw. inversion Hs; subst. inversion Hw. exists w. auto.
      * split; [discriminate|]. intros (w & Hs & Hw).
        destruct w as [|y w]; [discriminate|]. simpl in Hs, Hw.
        inversion Hs; subst. inversion Hw. congruence.
Qed.

Lemma to_upper_word x : is_upper (to_upper x) = true -> is_word x = true.
Proof.
  unfold to_upper, is_word. destruct (is_lower x) eqn:E.
  - intros _. rewrite orb_true_r. reflexivity.
  - intros ->. reflexivity.
Qed.

Lemma map_length_eq (w u : jsstring) : map to_upper w = map to_upper u -> length w = length u.
Proof. intros H. apply (f_equal (@length _)) in H. rewrite !length_map in H. exact H. Qed.

Lemma token_edges u w :
  u <> [] -> Forall (fun c => is_upper c = true) u ->
  map to_upper w = u ->
  starts_with_word w = true /\ ends_with_word w = true.
Proof.
  intros Hne Hu Hw. split.
  - destruct w as [|x w]; [simpl in Hw; congruence|]. simpl.
    apply to_upper_word. subst u. inversion Hu; assumption.
  - unfold ends_with_word. destruct (rev w) as [|x rw] eqn:E.
    + apply (f_equal (@rev _)) in E. rewrite rev_involutive in E. subst w.
      simpl in Hw. congruence.
    + apply to_upper_word. rewrite Forall_forall in Hu. apply Hu.
      rewrite <- Hw. apply in_map. apply in_rev. rewrite E. left. reflexivity.
Qed.

Lemma match_word (u : jsstring) bef post :
  u <> [] -> Forall (fun c => is_upper c = true) u -> map to_upper u = u ->
  m fl_i (Str u) {| before := bef; rest := post; caps := [] |}
    (fun st' => if at_wordb st' then Some st' else None) <> None <->
  exists w post', post = w ++ post' /\ map to_upper w = u /\ starts_with_word post' = false.
Proof.
  intros Hne Hu Hup. rewrite m_Str. cbn [rest before caps]. split.
  - destruct (strip_prefix fl_i u post) as [post'|] eqn:E; [|congruence].
    apply strip_prefix_ci in E. destruct E as (w & Hs & Hw). rewrite Hup in Hw.
    unfold at_wordb. cbn [before rest].
    pose proof (map_length_eq w u) as Hlen. rewrite Hup in Hlen. specialize (Hlen Hw).
    subst post. rewrite <- Hlen, firstn_app, Nat.sub_diag, firstn_all. simpl firstn.
    rewrite app_nil_r.
    destruct (@token_edges u w Hne Hu Hw) as [_ He]. unfold ends_with_word in He.
    destruct (rev w) as [|x rw] eqn:Er; [discriminate|]. simpl. rewrite He. simpl.
    intros H. exists w, post'. split; [reflexivity|]. split; [exact Hw|].
    unfold starts_with_word. destruct post' as [|y p]; [reflexivity|].
    destruct (is_word y); [simpl in H; congruence | reflexivity].
  - intros (w & post' & Hs & Hw & Hp).
    assert (E : strip_prefix fl_i u post = Some post').
    { apply strip_prefix_ci. exists w. rewrite Hup. auto. }
    rewrite E. unfold at_wordb. cbn [before rest].
    pose proof (map_length_eq w u) as Hlen. rewrite Hup in Hlen. specialize (Hlen Hw).
    subst post. rewrite <- Hlen, firstn_app, Nat.sub_diag, firstn_all. simpl firstn.
    rewrite app_nil_r.
    destruct (@token_edges u w Hne Hu Hw) as [_ He]. unfold ends_with_word in He.
    destruct (rev w) as [|x rw] eqn:Er; [discriminate|]. simpl. rewrite He. simpl.
    unfold starts_with_word in Hp. destruct post' as [|y p]; [discriminate|].
    rewrite Hp. simpl. discriminate.
Qed.

Lemma upper_DIFC : lit "DIFC" <> [] /\ Forall (fun c => is_upper c = true) (lit "DIFC") /\ map to_upper (lit "DIFC") = lit "DIFC".
Proof. split; [discriminate|]. split; [repeat constructor | reflexivity]. Qed.
Lemma upper_ADGM : lit "ADGM" <> [] /\ Forall (fun c => is_upper c = true) (lit "ADGM") /\ map to_upper (lit "ADGM") = lit "ADGM".
Proof. split; [discriminate|]. split; [repeat constructor | reflexivity]. Qed.

Lemma match_zone_token bef post :
  match_at fl_i re_difc_adgm bef post <> None <->
  (match bef with c :: _ => is_word c | [] => false end) = false /\
  exists w post', post = w ++ post' /\
    (map to_upper w = lit "DIFC" \/ map to_upper w = lit "ADGM") /\
    starts_with_word post' = false.
Proof.
  destruct upper_DIFC as (Hd1 & Hd2 & Hd3). destruct upper_ADGM as (Ha1 & Ha2 & Ha3).
  unfold match_at, re_difc_adgm.
  change (L_ "DIFC") with (Str (lit "DIFC")). change (L_ "ADGM") with (Str (lit "ADGM")).
  cbn [Seqs m].
  pose proof (@match_word (lit "DIFC") bef post Hd1 Hd2 Hd3) as HD.
  pose proof (@match_word (lit "ADGM") bef post Ha1 Ha2 Ha3) as HA.
  set (st := {| before := bef; rest := post; caps := [] |}) in *.
  set (mD := m fl_i (Str (lit "DIFC")) st _) in *.
  set (mA := m fl_i (Str (lit "ADGM")) st _) in *.
  assert (Hedge : forall w post' u, u <> [] -> Forall (fun c => is_upper c = true) u ->
            post = w ++ post' -> map to_upper w = u ->
            at_wordb st = negb (match bef with c :: _ => is_word c | [] => false end)).
  { intros w post' u Hne Hu Hs Hw. unfold at_wordb. subst st. cbn [before rest].
    destruct (@token_edges u w Hne Hu Hw) as [Hst _].
    subst post. destruct w as [|x w]; [discriminate|]. simpl in Hst. simpl.
    rewrite Hst. destruct bef as [|c bef']; [reflexivity|].
    destruct (is_word c); reflexivity. }
  split.
  - intros H.
    assert (Eb : at_wordb st = true)
      by (destruct (at_wordb st); [reflexivity | congruence]).
    rewrite Eb in H.
    assert (Hor : mD <> None \/ mA <> None).
    { unfold orelse in H. destruct mD; [left; discriminate | right; exact H]. }
    destruct Hor as [Hm|Hm].
    + apply HD in Hm. destruct Hm as (w & post' & Hs & Hw & Hp).
      rewrite (Hedge w post' _ Hd1 Hd2 Hs Hw) in Eb.
      split; [apply negb_true_iff in Eb; exact Eb|].
      exists w, post'. auto.
    + apply HA in Hm. destruct Hm as (w & post' & Hs & Hw & Hp).
      rewrite (Hedge w post' _ Ha1 Ha2 Hs Hw) in Eb.
      split; [apply negb_true_iff in Eb; exact Eb|].
      exists w, post'. auto.
  - intros (Hb & w & post' & Hs & Hw & Hp).
    assert (Eb : at_wordb st = true).
    { destruct Hw as [Hw|Hw];
        [rewrite (Hedge w post' _ Hd1 Hd2 Hs Hw) | rewrite (Hedge w post' _ Ha1 Ha2 Hs Hw)];
        rewrite Hb; reflexivity. }
    rewrite Eb. unfold orelse. destruct mD eqn:ED; [discriminate|].
    destruct Hw as [Hw|Hw].
    + exfalso. refine (proj2 HD _ eq_refl). exists w, post'. auto.
    + apply HA. exists w, post'. auto.
Qed.

Lemma isDifcAdgm_spec law : isDifcAdgm law = true <-> has_zone_token law.
Proof.
  unfold isDifcAdgm, has_zone_token. rewrite test_true. split.
  - intros (pre & post & Hs & Hm). apply match_zone_token in Hm.
    destruct Hm as (Hb & w & post' & Hp & Hw & Hsw).
    exists pre, w, post'. subst. auto.
  - intros (pre & w & post' & Hs & Hw & Hb & Hsw).
    exists pre, (w ++ post'). split; [exact Hs|].
    apply match_zone_token. split; [exact Hb|]. exists w, post'. auto.
Qed.

End FormatFacts.

(** C9.  The numbering vocabulary of [formatCitationTool] depends on the
    law text alone.  For a citation from which an article number [a] and a
    law text are parsed: when the law text holds the word DIFC or ADGM (in
    any case, as a whole word) the full format, also when no format is
    given, is "Section a, law", the short one "s a, law up to the first
    parenthesis" and the pinpoint one "s a"; otherwise they are
    "Article a, law", "Art. a, ..." and "Art. a".  The pinpoint format of
    "Article 2, Federal Decree-Law No. 45 of 2021" is "Art. 2". *)
Theorem format_vocabulary :
  (forall citation a,
     fmt_article (trim citation) = Some a -> a <> [] ->
     let law := fmt_law (trim citation) in
     let out := fun f => formatted (formatCitationTool citation f) in
     (has_zone_token law ->
        out None = lit "Section" ++ lit " " ++ a ++ lit ", " ++ law /\
        out (Some full) = lit "Section" ++ lit " " ++ a ++ lit ", " ++ law /\
        out (Some short) =
          lit "s" ++ lit " " ++ a ++ lit ", " ++ trim (split_head (ch "(") law) /\
        out (Some pinpoint) = lit "s" ++ lit " " ++ a) /\
     (~ has_zone_token law ->
        out None = lit "Article" ++ lit " " ++ a ++ lit ", " ++ law /\
        out (Some full) = lit "Article" ++ lit " " ++ a ++ lit ", " ++ law /\
        out (Some short) =
          lit "Art." ++ lit " " ++ a ++ lit ", " ++ trim (split_head (ch "(") law) /\
        out (Some pinpoint) = lit "Art." ++ lit " " ++ a)) /\
  formatted (formatCitationTool (lit "Article 2, Federal Decree-Law No. 45 of 2021")
               (Some pinpoint)) = lit "Art. 2".
Proof.
  split; [|vm_compute; reflexivity].
  intros citation a Ha Hne law out.
  assert (Hout : forall f, out f =
            render (match f with Some f' => f' | None => full end) (Some a) law).
  { intros f. unfold out, formatCitationTool. cbn [formatted]. rewrite Ha.
    reflexivity. }
  rewrite !Hout. unfold render, provisionWord, provisionAbbrev.
  rewrite (ValidateFacts.truthy_true Hne).
  pose proof (FormatFacts.isDifcAdgm_spec law) as Hz.
  destruct (isDifcAdgm law).
  - split; [intros _; repeat split; reflexivity|].
    intros Hn. exfalso. apply Hn. apply Hz. reflexivity.
  - split; [|intros _; repeat split; reflexivity].
    intros Ht. apply Hz in Ht. discriminate.
Qed.

Lemma format_vocabulary_witness :
  formatted (formatCitationTool (lit "Section 1, adgm Data Protection Regulations 2021 (DPR)")
               (Some short))
  = lit "s 1, adgm Data Protection Regulations 2021".
Proof.
  pose proof (proj1 format_vocabulary
                (lit "Section 1, adgm Data Protection Regulations 2021 (DPR)")
                (lit "1")) as H.
  cbv zeta in H.
  destruct H as [H _]; [vm_compute; reflexivity | vm_compute; discriminate |].
  destruct H as (_ & _ & H & _).
  - exists [], (lit "adgm"), (lit " Data Protection Regulations 2021 (DPR)").
    repeat split; try reflexivity. right. reflexivity.
  - rewrite H. vm_compute. reflexivity.
Defined.

(* ================================================================= *)
(** * Quantifiers over one character class *)

Module RunFacts.
Import JsFacts RegexFacts.

Lemma take_drop_while P s : s = take_while P s ++ drop_while P s.
Proof.
  induction s as [|x s IH]; simpl; [reflexivity|].
  destruct (P x); simpl; [f_equal; exact IH | reflexivity].
Qed.

Lemma take_while_all P s : Forall (fun c => P c = true) (take_while P s).
Proof.
  induction s as [|x s IH]; simpl; [constructor|].
  destruct (P x) eqn:E; [constructor; assumption | constructor].
Qed.

Lemma drop_while_end P s : run_end P (drop_while P s).
Proof.
  induction s as [|x s IH]; simpl; [exact I|].
  destruct (P x) eqn:E; [exact IH | exact E].
Qed.

Lemma single_chr fl c st k : m fl (Chr c) st k = char_step (chr_match fl c) st k.
Proof. reflexivity. Qed.

Lemma single_cls fl neg items st k :
  m fl (Cls neg items) st k = char_step (cls_match fl neg items) st k.
Proof. reflexivity. Qed.

Lemma single_dot fl st k :
  m fl Dot st k = char_step (fun x => negb (is_line_terminator x)) st k.
Proof.
  simpl. unfold char_step. destruct (rest st); [reflexivity|].
  destruct (is_line_terminator c); reflexivity.
Qed.

Section Run.
Variables (P : char -> bool) (step : mstate -> cont -> option mstate).
Hypothesis step_char : forall st k, step st k = char_step P st k.

Lemma star_greedy_run xs : forall tail n bef cs k,
  Forall (fun c => P c = true) xs -> run_end P tail ->
  length (xs ++ tail) <= n ->
  star_loop true step n {| before := bef; rest := xs ++ tail; caps := cs |} k
  = greedy_run k bef cs xs tail.
Proof.
  induction xs as [|x xs IH]; intros tail n bef cs k Hall Hend Hn.
  - simpl. destruct n as [|n]; [reflexivity|]. simpl.
    rewrite step_char. unfold char_step. simpl.
    destruct tail as [|y tail]; [reflexivity|]. simpl in Hend. rewrite Hend. reflexivity.
  - inversion Hall as [|? ? Hx Hxs]; subst.
    destruct n as [|n]; [simpl in Hn; lia|]. simpl.
    rewrite step_char. unfold char_step, advance. simpl. rewrite Hx.
    replace (Nat.ltb (length (xs ++ tail)) (S (length (xs ++ tail)))) with true
      by (symmetry; apply Nat.ltb_lt; lia).
    rewrite IH; [reflexivity | assumption | assumption | simpl in Hn; lia].
Qed.

Lemma star_lazy_run xs : forall tail n bef cs k,
  Forall (fun c => P c = true) xs -> run_end P tail ->
  length (xs ++ tail) <= n ->
  star_loop false step n {| before := bef; rest := xs ++ tail; caps := cs |} k
  = lazy_run k bef cs xs tail.
Proof.
  induction xs as [|x xs IH]; intros tail n bef cs k Hall Hend Hn.
  - simpl. destruct n as [|n]; [reflexivity|]. simpl.
    rewrite step_char. unfold char_step. simpl.
    destruct tail as [|y tail].
    + destruct (k _); reflexivity.
    + simpl in Hend. rewrite Hend. destruct (k _); reflexivity.
  - inversion Hall as [|? ? Hx Hxs]; subst.
    destruct n as [|n]; [simpl in Hn; lia|]. simpl.
    rewrite step_char. unfold char_step, advance. simpl. rewrite Hx.
    replace (Nat.ltb (length (xs ++ tail)) (S (length (xs ++ tail)))) with true
      by (symmetry; apply Nat.ltb_lt; lia).
    rewrite IH; [reflexivity | assumption | assumption | simpl in Hn; lia].
Qed.

End Run.

Lemma greedy_run_commit k xs : forall bef cs tail r,
  k {| before := rev xs ++ bef; rest := tail; caps := cs |} = Some r ->
  greedy_run k bef cs xs tail = Some r.
Proof.
  induction xs as [|x xs IH]; intros bef cs tail r H; simpl in *.
  - exact H.
  - rewrite (IH (x :: bef) cs tail r); [reflexivity|].
    rewrite <- app_assoc in H. exact H.
Qed.

Lemma greedy_run_none k xs : forall bef cs tail,
  (forall a b, xs = a ++ b ->
     k {| before := rev a ++ bef; rest := b ++ tail; caps := cs |} = None) ->
  greedy_run k bef cs xs tail = None.
Proof.
  induction xs as [|x xs IH]; intros bef cs tail H; simpl.
  - apply (H [] []). reflexivity.
  - rewrite IH.
    + apply (H [] (x :: xs)). reflexivity.
    + intros a b Hab. specialize (H (x :: a) b). simpl in H.
      rewrite <- app_assoc in H. apply H. rewrite Hab. reflexivity.
Qed.

End RunFacts.

(* ================================================================= *)
(** * Texts in normal form are fixed by the normalizer *)

Module NormalFacts.
Import JsFacts RegexFacts SearchFacts RunFacts.

Lemma skipn_length_app {A} (xs ys : list A) : skipn (length xs) (xs ++ ys) = ys.
Proof. induction xs; simpl; auto. Qed.

(** A global replacement whose every match reads as the replacement text
    leaves the string as it is. *)
Lemma replace_go_id fl r repl : forall s bef skip,
  (forall pre post, s = pre ++ post ->
     match_at fl r (rev pre ++ bef) post = None \/
     exists st', match_at fl r (rev pre ++ bef) post = Some st' /\
                 post = repl ++ rest st' /\ repl <> []) ->
  replace_go fl r repl skip bef s = skipn skip s.
Proof.
  induction s as [|c s IH]; intros bef skip H.
  - destruct skip; simpl; [|reflexivity].
    destruct (H [] [] eq_refl) as [E|(st' & E & Hp & Hne)]; simpl in E; rewrite E.
    + reflexivity.
    + destruct repl; [congruence | discriminate].
  - assert (Hs : forall pre post, s = pre ++ post ->
              match_at fl r (rev pre ++ c :: bef) post = None \/
              exists st', match_at fl r (rev pre ++ c :: bef) post = Some st' /\
                          post = repl ++ rest st' /\ repl <> []).
    { intros pre post Hs. specialize (H (c :: pre) post). simpl in H.
      rewrite <- app_assoc in H. apply H. rewrite Hs. reflexivity. }
    destruct skip as [|n]; cbn -[Nat.sub skipn].
    + destruct (H [] (c :: s) eq_refl) as [E|(st' & E & Hp & Hne)];
        cbn [rev app] in E; rewrite E.
      * rewrite IH by exact Hs. reflexivity.
      * assert (Hlen : length (c :: s) - length (rest st') = length repl).
        { rewrite Hp at 1. rewrite length_app. lia. }
        cbn [length] in Hlen. rewrite Hlen.
        destruct repl as [|x repl']; [congruence|]. cbn [length Nat.eqb].
        rewrite IH by exact Hs.
        replace (S (length repl') - 1) with (length repl') by lia.
        simpl in Hp. inversion Hp; subst.
        rewrite skipn_length_app. reflexivity.
    + rewrite IH by exact Hs. reflexivity.
Qed.

Lemma replace_all_no_match fl r repl s :
  (forall pre post, s = pre ++ post -> match_at fl r (rev pre) post = None) ->
  replace_all fl r repl s = s.
Proof.
  intros H. unfold replace_all. rewrite replace_go_id; [reflexivity|].
  intros pre post Hs. left. rewrite app_nil_r. apply H. exact Hs.
Qed.

Lemma m_first_char fl r c : forall st k,
  first_char r = Some c ->
  match rest st with [] => True | x :: _ => chr_match fl c x = false end ->
  m fl r st k = None.
Proof.
  induction r; intros st k Hf Hx; simpl in Hf; try discriminate.
  - inversion Hf; subst. simpl. destruct (rest st); [reflexivity|]. rewrite Hx. reflexivity.
  - simpl. apply IHr1; assumption.
  - simpl. apply IHr; assumption.
Qed.

Lemma first_char_Str c w : first_char (Str (c :: w)) = Some c.
Proof. destruct w; reflexivity. Qed.

Lemma replace_all_absent fl r c repl s :
  first_char r = Some c ->
  Forall (fun x => chr_match fl c x = false) s ->
  replace_all fl r repl s = s.
Proof.
  intros Hf Hall. apply replace_all_no_match. intros pre post Hs.
  unfold match_at. apply m_first_char with (c := c); [exact Hf|]. simpl.
  destruct post as [|x post]; [exact I|].
  rewrite Forall_forall in Hall. apply Hall. rewrite Hs. apply in_or_app.
  right. left. reflexivity.
Qed.

Lemma chr_match_ne fl c x :
  is_lower c = false -> is_upper c = false -> x <> c -> chr_match fl c x = false.
Proof.
  intros Hl Hu Hne. unfold chr_match. destruct (ignoreCase fl).
  - apply N.eqb_neq. unfold to_upper. rewrite Hl.
    destruct (is_lower x) eqn:E; [|exact Hne].
    intros Heq. unfold is_upper, is_lower in *.
    apply andb_true_iff in E. destruct E as [E1 E2].
    apply N.leb_le in E1. apply N.leb_le in E2.
    assert (Hc : (65 <=? c)%N = true /\ (c <=? 90)%N = true).
    { split; apply N.leb_le; lia. }
    destruct Hc as [Hc1 Hc2]. rewrite Hc1, Hc2 in Hu. discriminate.
  - apply N.eqb_neq. exact Hne.
Qed.

Lemma markup_free_spec s :
  markup_free s = true ->
  Forall (fun x => x <> 60%N) s /\ Forall (fun x => x <> 38%N) s.
Proof.
  unfold markup_free. rewrite forallb_forall. intros H.
  split; apply Forall_forall; intros x Hx; specialize (H x Hx);
    apply andb_true_iff in H; destruct H as [H1 H2];
    apply negb_true_iff in H1; apply negb_true_iff in H2;
    apply N.eqb_neq; assumption.
Qed.

Lemma absent_chr fl c s :
  is_lower c = false -> is_upper c = false ->
  Forall (fun x => x <> c) s -> Forall (fun x => chr_match fl c x = false) s.
Proof.
  intros Hl Hu H. eapply Forall_impl; [|exact H].
  intros x Hx. apply chr_match_ne; assumption.
Qed.

Lemma decode_entities_id s : markup_free s = true -> decode_entities s = s.
Proof.
  intros H. apply markup_free_spec in H. destruct H as [Hlt Hamp].
  pose proof (@absent_chr fl_i 60%N s eq_refl eq_refl Hlt) as Hlt_i.
  pose proof (@absent_chr fl_none 60%N s eq_refl eq_refl Hlt) as Hlt_n.
  pose proof (@absent_chr fl_none 38%N s eq_refl eq_refl Hamp) as Hamp_n.
  unfold decode_entities.
  rewrite (@replace_all_absent fl_i re_br 60%N _ s eq_refl Hlt_i).
  rewrite (@replace_all_absent fl_none re_tag 60%N _ s eq_refl Hlt_n).
  assert (Hent : forall w repl, first_char (L_ w) = Some 38%N ->
            replace_all fl_none (L_ w) repl s = s).
  { intros w repl Hf. apply (@replace_all_absent fl_none (L_ w) 38%N repl s Hf Hamp_n). }
  rewrite !Hent by reflexivity. reflexivity.
Qed.

Section Accept.
Variables (P : char -> bool) (step : mstate -> cont -> option mstate).
Hypothesis step_char : forall st k, step st k = char_step P st k.

Lemma star_greedy_accept cs : forall s n bef,
  length s <= n ->
  star_loop true step n {| before := bef; rest := s; caps := cs |} Some
  = Some {| before := rev (take_while P s) ++ bef; rest := drop_while P s; caps := cs |}.
Proof.
  induction s as [|x s IH]; intros n bef Hn.
  - destruct n; simpl; [reflexivity|]. rewrite step_char. reflexivity.
  - destruct n as [|n]; [simpl in Hn; lia|]. simpl.
    rewrite step_char. unfold char_step, advance. simpl.
    destruct (P x) eqn:E; [|reflexivity].
    replace (Nat.ltb (length s) (S (length s))) with true
      by (symmetry; apply Nat.ltb_lt; lia).
    rewrite IH by (simpl in Hn; lia). simpl. rewrite <- app_assoc. reflexivity.
Qed.

End Accept.

Lemma match_plus_class fl neg items bef post :
  match_at fl (Plus true (Cls neg items)) bef post =
  match post with
  | x :: post' =>
      if cls_match fl neg items x
      then Some {| before := rev (take_while (cls_match fl neg items) post') ++ x :: bef;
                   rest := drop_while (cls_match fl neg items) post'; caps := [] |}
      else None
  | [] => None
  end.
Proof.
  unfold match_at, Plus. cbn [m]. destruct post as [|x post']; [reflexivity|].
  cbn [rest]. destruct (cls_match fl neg items x); [|reflexivity].
  unfold advance. cbn [rest before caps].
  apply star_greedy_accept; [intros; reflexivity | lia].
Qed.

Lemma pair_at pre a b post :
  no_bad_pairs (pre ++ a :: b :: post) = true -> bad_pair a b = false.
Proof.
  induction pre as [|p pre IH]; intros H.
  - simpl in H. apply andb_true_iff in H. destruct H as [H _].
    apply negb_true_iff in H. exact H.
  - apply IH. simpl in H. destruct (pre ++ a :: b :: post) eqn:E.
    + destruct pre; discriminate.
    + apply andb_true_iff in H. tauto.
Qed.

Lemma ws_normal_spec t : ws_normal t = true -> normal t.
Proof.
  unfold ws_normal. intros H.
  apply andb_true_iff in H. destruct H as [H H4].
  apply andb_true_iff in H. destruct H as [H H3].
  apply andb_true_iff in H. destruct H as [H1 H2].
  split; try assumption.
  rewrite forallb_forall in H1. apply Forall_forall. intros x Hx.
  specialize (H1 x Hx). apply andb_true_iff in H1. destruct H1 as [Ha Hb].
  apply negb_true_iff in Ha. apply negb_true_iff in Hb.
  split; apply N.eqb_neq; assumption.
Qed.

Lemma after_space t pre w post :
  normal t -> t = pre ++ w :: post -> is_space w = true ->
  match post with [] => False | y :: _ => is_line_terminator y = false end.
Proof.
  intros Hn Ht Hw. destruct post as [|y post].
  - pose proof (n_last Hn) as Hl. rewrite Ht, rev_app_distr in Hl. simpl in Hl.
    rewrite Hw in Hl. discriminate.
  - pose proof (n_pairs Hn) as Hp. rewrite Ht in Hp. apply pair_at in Hp.
    unfold bad_pair in Hp. apply orb_false_iff in Hp. destruct Hp as [Hp _].
    apply orb_false_iff in Hp. destruct Hp as [_ Hp]. rewrite Hw in Hp. exact Hp.
Qed.

Lemma after_terminator t pre w post :
  normal t -> t = pre ++ w :: post -> is_line_terminator w = true ->
  match post with [] => True | y :: _ => is_space y = false end.
Proof.
  intros Hn Ht Hw. destruct post as [|y post]; [exact I|].
  pose proof (n_pairs Hn) as Hp. rewrite Ht in Hp. apply pair_at in Hp.
  unfold bad_pair in Hp. apply orb_false_iff in Hp. destruct Hp as [_ Hp].
  rewrite Hw in Hp. exact Hp.
Qed.

Lemma after_blank t pre post :
  normal t -> t = pre ++ 32%N :: post ->
  match post with [] => True | y :: _ => y <> 32%N /\ y <> 9%N end.
Proof.
  intros Hn Ht. destruct post as [|y post]; [exact I|]. split.
  - pose proof (n_pairs Hn) as Hp. rewrite Ht in Hp. apply pair_at in Hp.
    unfold bad_pair in Hp. apply orb_false_iff in Hp. destruct Hp as [Hp _].
    apply orb_false_iff in Hp. destruct Hp as [Hp _]. simpl in Hp.
    apply N.eqb_neq. exact Hp.
  - pose proof (n_chars Hn) as Hc. rewrite Forall_forall in Hc.
    apply (Hc y). rewrite Ht. apply in_or_app. right. right. left. reflexivity.
Qed.

Lemma terminator_space c : is_line_terminator c = true -> is_space c = true.
Proof.
  unfold is_line_terminator, is_space. intros H.
  repeat (apply orb_true_iff in H; destruct H as [H|H]);
    apply N.eqb_eq in H; subst; reflexivity.
Qed.

Lemma blank_spec x : blank x = true <-> x = 32%N \/ x = 9%N.
Proof.
  unfold blank, cls_match, item_match. simpl.
  rewrite !orb_false_r, orb_true_iff, !N.eqb_eq. tauto.
Qed.

Lemma zwsp_id t : normal t -> replace_all fl_none re_zwsp [] t = t.
Proof.
  intros Hn. apply replace_all_absent with (c := 8203%N); [reflexivity|].
  apply absent_chr; [reflexivity | reflexivity |].
  eapply Forall_impl; [|exact (n_chars Hn)]. intros x [Hx _]. exact Hx.
Qed.

Lemma blanks_id t : normal t -> replace_all fl_none re_blanks (lit " ") t = t.
Proof.
  intros Hn. unfold replace_all. rewrite replace_go_id; [reflexivity|].
  intros pre post Hs. rewrite app_nil_r. unfold re_blanks. rewrite match_plus_class.
  change (cls_match fl_none false [CChar 32%N; CChar 9%N]) with blank.
  destruct post as [|x post']; [left; reflexivity|].
  destruct (blank x) eqn:Ex; [|left; reflexivity]. right.
  apply blank_spec in Ex.
  assert (Hx : x = 32%N).
  { destruct Ex as [Ex|Ex]; [exact Ex|]. exfalso.
    pose proof (n_chars Hn) as Hc. rewrite Forall_forall in Hc.
    apply (Hc x); [|exact Ex]. rewrite Hs. apply in_or_app. right. left. reflexivity. }
  subst x. pose proof (@after_blank t pre post' Hn Hs) as Ha.
  eexists. split; [reflexivity|]. cbn [rest]. split; [|discriminate].
  destruct post' as [|y post2]; [reflexivity|]. simpl.
  destruct (blank y) eqn:Ey; [|reflexivity].
  apply blank_spec in Ey. destruct Ha as [H1 H2]. destruct Ey; congruence.
Qed.


Lemma cls_space fl x : ignoreCase fl = false -> cls_match fl false [CSpace] x = is_space x.
Proof.
  intros H. unfold cls_match, item_match. simpl. rewrite H. simpl.
  rewrite !orb_false_r. reflexivity.
Qed.

Lemma blank_lines_id t : normal t -> replace_all fl_none re_blank_lines [10%N] t = t.
Proof.
  intros Hn. apply replace_all_no_match. intros pre post Hs.
  unfold match_at, re_blank_lines. cbn [Seqs m]. cbn [rest].
  destruct post as [|x post']; [reflexivity|].
  unfold chr_match. cbn [ignoreCase fl_none].
  destruct (N.eqb_spec x 10%N) as [->|Hx]; [|reflexivity].
  unfold advance. cbn [rest before caps].
  pose proof (@after_terminator t pre 10%N post' Hn Hs eq_refl) as Ha.
  rewrite (@star_greedy_run (cls_match fl_none false [CSpace]) (m fl_none (Cls false [CSpace]))
             (fun st k => eq_refl) [] post' (length post')); [| | |simpl; lia].
  - simpl. destruct post' as [|y post2]; [reflexivity|].
    destruct (N.eqb_spec y 10%N) as [->|Hy]; [discriminate Ha | reflexivity].
  - constructor.
  - destruct post' as [|y post2]; [exact I|]. unfold run_end.
    rewrite cls_space by reflexivity. exact Ha.
Qed.

Lemma last_split {A} (x : A) (a : list A) : exists a0 w, x :: a = a0 ++ [w].
Proof.
  destruct (@exists_last A (x :: a)) as (a0 & w & H); [discriminate|].
  exists a0, w. exact H.
Qed.

Lemma line_edges_id t : normal t -> replace_all fl_m re_line_edges [] t = t.
Proof.
  intros Hn. apply replace_all_no_match. intros pre post Hs.
  unfold match_at, re_line_edges.
  change (m fl_m (Alt (Seq Bol (Plus true S_)) (Seq (Plus true S_) Eol))
            {| before := rev pre; rest := post; caps := [] |} Some)
    with (orelse
            (if at_bol fl_m {| before := rev pre; rest := post; caps := [] |}
             then match_at fl_m (Plus true S_) (rev pre) post else None)
            (m fl_m (Plus true S_) {| before := rev pre; rest := post; caps := [] |}
               (fun st' => if at_eol fl_m st' then Some st' else None))).
  unfold S_. rewrite match_plus_class.
  destruct post as [|x post']; [destruct (at_bol _ _); reflexivity|].
  rewrite cls_space by reflexivity.
  destruct (is_space x) eqn:Ex.
  2:{ unfold Plus. cbn [m rest]. rewrite cls_space by reflexivity. rewrite Ex.
      destruct (at_bol _ _); reflexivity. }
  assert (Hbol : at_bol fl_m {| before := rev pre; rest := x :: post'; caps := [] |} = false).
  { unfold at_bol. cbn [before multiline fl_m]. destruct (rev pre) as [|p rp] eqn:Er.
    - apply (f_equal (@rev _)) in Er. rewrite rev_involutive in Er. simpl in Er.
      subst pre. simpl in Hs. pose proof (n_head Hn) as Hh. rewrite Hs in Hh.
      simpl in Hh. rewrite Ex in Hh. discriminate.
    - apply (f_equal (@rev _)) in Er. rewrite rev_involutive in Er. simpl in Er.
      subst pre. rewrite <- app_assoc in Hs. simpl in Hs.
      destruct (is_line_terminator p) eqn:Ep; [|reflexivity].
      pose proof (@after_terminator t _ p _ Hn Hs Ep) as Ha. simpl in Ha. congruence. }
  rewrite Hbol. unfold orelse, Plus. cbn [m rest]. rewrite cls_space by reflexivity.
  rewrite Ex. unfold advance. cbn [rest before caps].
  set (P := cls_match fl_m false [CSpace]).
  rewrite (take_drop_while P post') at 1 2.
  rewrite (@star_greedy_run P (m fl_m (Cls false [CSpace])) (fun st k => eq_refl)
             (take_while P post') (drop_while P post')).
  - apply greedy_run_none. intros a b Hab.
    destruct (last_split x a) as (a0 & w & Hw).
    assert (Hws : is_space w = true).
    { assert (Hin : In w (x :: a)) by (rewrite Hw; apply in_or_app; right; left; reflexivity).
      destruct Hin as [<-|Hin]; [exact Ex|].
      pose proof (take_while_all P post') as Hall. rewrite Forall_forall in Hall.
      unfold P in Hall. rewrite <- (cls_space fl_m w eq_refl). apply Hall.
      fold P. rewrite Hab. apply in_or_app. left. exact Hin. }
    assert (Ht : t = (pre ++ a0) ++ w :: (b ++ drop_while P post')).
    { rewrite Hs, <- app_assoc. f_equal.
      change (a0 ++ w :: b ++ drop_while P post')
        with (a0 ++ [w] ++ (b ++ drop_while P post')).
      rewrite app_assoc, <- Hw. simpl. f_equal.
      rewrite app_assoc, <- Hab. apply take_drop_while. }
    pose proof (@after_space t _ w _ Hn Ht Hws) as Ha.
    unfold at_eol. cbn [rest multiline fl_m].
    destruct (b ++ drop_while P post') as [|y rest']; [contradiction|].
    rewrite Ha. reflexivity.
  - apply take_while_all.
  - apply drop_while_end.
  - rewrite <- take_drop_while. lia.
Qed.

Lemma trim_start_id t : head_not_space t = true -> trim_start t = t.
Proof.
  destruct t as [|c t]; [reflexivity|]. simpl. intros H.
  apply negb_true_iff in H. rewrite H. reflexivity.
Qed.

Lemma trim_id t : normal t -> trim t = t.
Proof.
  intros Hn. unfold trim, trim_end.
  rewrite (trim_start_id _ (n_head Hn)), (trim_start_id _ (n_last Hn)).
  apply rev_involutive.
Qed.

Lemma collapse_whitespace_id t : ws_normal t = true -> collapse_whitespace t = t.
Proof.
  intros H. apply ws_normal_spec in H. unfold collapse_whitespace.
  rewrite (zwsp_id H), (blanks_id H), (blank_lines_id H), (line_edges_id H).
  apply trim_id. exact H.
Qed.

End NormalFacts.

(* ================================================================= *)
(** * The whitespace half of the normalizer returns a normal form *)

Module WhitespaceFacts.
Import JsFacts RegexFacts SearchFacts RunFacts NormalFacts.

Lemma replace_go_skip fl r repl xs : forall s bef n,
  replace_go fl r repl (length xs + n) bef (xs ++ s)
  = replace_go fl r repl n (rev xs ++ bef) s.
Proof.
  induction xs as [|x xs IH]; intros s bef n; [reflexivity|].
  simpl. rewrite IH, <- app_assoc. reflexivity.
Qed.

Lemma replace_go_emit fl r repl x s bef :
  match_at fl r bef (x :: s) = None ->
  replace_go fl r repl 0 bef (x :: s) = x :: replace_go fl r repl 0 (x :: bef) s.
Proof. intros H. simpl. rewrite H. reflexivity. Qed.

Lemma replace_go_match fl r repl xs s bef st' :
  xs <> [] -> match_at fl r bef (xs ++ s) = Some st' -> rest st' = s ->
  replace_go fl r repl 0 bef (xs ++ s) = repl ++ replace_go fl r repl 0 (rev xs ++ bef) s.
Proof.
  intros Hne Hm Hr. destruct xs as [|x xs]; [congruence|].
  cbn -[Nat.sub]. cbn -[Nat.sub] in Hm. rewrite Hm, Hr.
  replace (S (length (xs ++ s)) - length s) with (S (length xs))
    by (rewrite length_app; lia).
  cbn [Nat.eqb]. f_equal.
  replace (S (length xs) - 1) with (length xs + 0) by lia.
  rewrite replace_go_skip, <- app_assoc. reflexivity.
Qed.

Lemma replace_go_nil fl r repl bef :
  match_at fl r bef [] = None -> replace_go fl r repl 0 bef [] = [].
Proof. intros H. simpl. rewrite H. reflexivity. Qed.

Lemma take_while_ext (P Q : char -> bool) s :
  (forall x, P x = Q x) -> take_while P s = take_while Q s.
Proof.
  intros H. induction s as [|x s IH]; simpl; [reflexivity|].
  rewrite H, IH. reflexivity.
Qed.

Lemma drop_while_ext (P Q : char -> bool) s :
  (forall x, P x = Q x) -> drop_while P s = drop_while Q s.
Proof.
  intros H. induction s as [|x s IH]; simpl; [reflexivity|].
  rewrite H, IH. reflexivity.
Qed.

(** The match of /^\s+|\s+$/m at one position, in closed form. *)
Lemma line_edges_match bef post :
  match_at fl_m re_line_edges bef post =
  match post with
  | x :: post' =>
      if is_space x then
        if bol bef then
          Some {| before := rev (take_while is_space post') ++ x :: bef;
                  rest := drop_while is_space post'; caps := [] |}
        else greedy_run k_eol (x :: bef) [] (take_while is_space post')
               (drop_while is_space post')
      else None
  | [] => None
  end.
Proof.
  unfold match_at, re_line_edges.
  change (m fl_m (Alt (Seq Bol (Plus true S_)) (Seq (Plus true S_) Eol))
            {| before := bef; rest := post; caps := [] |} Some)
    with (orelse
            (if at_bol fl_m {| before := bef; rest := post; caps := [] |}
             then match_at fl_m (Plus true S_) bef post else None)
            (m fl_m (Plus true S_) {| before := bef; rest := post; caps := [] |} k_eol)).
  unfold S_. rewrite match_plus_class.
  assert (Hb : at_bol fl_m {| before := bef; rest := post; caps := [] |} = bol bef).
  { unfold at_bol, bol. simpl. destruct bef; reflexivity. }
  rewrite Hb. clear Hb.
  pose (P := cls_match fl_m false [CSpace]).
  assert (HP : forall x, P x = is_space x) by (intros x; apply cls_space; reflexivity).
  destruct post as [|x post']; [destruct (bol bef); reflexivity|].
  rewrite cls_space by reflexivity. unfold Plus. cbn [m rest].
  rewrite cls_space by reflexivity.
  destruct (is_space x) eqn:Ex; [|destruct (bol bef); reflexivity].
  change (cls_match fl_m false [CSpace]) with P.
  rewrite (take_while_ext P is_space post' HP), (drop_while_ext P is_space post' HP).
  destruct (bol bef); [reflexivity|]. unfold orelse, advance. cbn [rest before caps].
  rewrite (take_drop_while is_space post') at 1 2.
  apply (@star_greedy_run is_space (m fl_m (Cls false [CSpace]))).
  - intros st k. cbn [m]. unfold char_step. destruct (rest st); [reflexivity|].
    rewrite cls_space by reflexivity. reflexivity.
  - apply take_while_all.
  - apply drop_while_end.
  - rewrite <- take_drop_while. lia.
Qed.

Lemma take_while_run P R : forall tail,
  Forall (fun c => P c = true) R -> run_end P tail ->
  take_while P (R ++ tail) = R /\ drop_while P (R ++ tail) = tail.
Proof.
  induction R as [|x R IH]; intros tail Hall Hend; simpl.
  - destruct tail as [|y tail]; [auto|]. simpl in *. rewrite Hend. auto.
  - inversion Hall as [|? ? Hx HR]; subst. rewrite Hx.
    destruct (IH tail HR Hend) as [E1 E2]. rewrite E1, E2. auto.
Qed.

Lemma edges_nil bef : edges_go 0 bef [] = [].
Proof. apply replace_go_nil. rewrite line_edges_match. reflexivity. Qed.

Lemma edges_nonspace bef z s :
  is_space z = false -> edges_go 0 bef (z :: s) = z :: edges_go 0 (z :: bef) s.
Proof.
  intros Hz. apply replace_go_emit. rewrite line_edges_match, Hz. reflexivity.
Qed.

(** A run at the start of a line is removed whole. *)
Lemma edges_bol_run bef x R tail :
  bol bef = true -> Forall (fun c => is_space c = true) (x :: R) ->
  run_end is_space tail ->
  edges_go 0 bef ((x :: R) ++ tail) = edges_go 0 (rev (x :: R) ++ bef) tail.
Proof.
  intros Hb Hall Hend. inversion Hall as [|? ? Hx HR]; subst.
  destruct (@take_while_run is_space R tail HR Hend) as [E1 E2].
  rewrite (@replace_go_match fl_m re_line_edges [] (x :: R) tail bef
             {| before := rev R ++ x :: bef; rest := tail; caps := [] |}).
  - reflexivity.
  - discriminate.
  - rewrite line_edges_match. cbn [app]. rewrite Hx, Hb, E1, E2. reflexivity.
  - reflexivity.
Qed.

Lemma k_eol_spec bef rest0 :
  k_eol {| before := bef; rest := rest0; caps := [] |} =
  match rest0 with
  | [] => Some {| before := bef; rest := rest0; caps := [] |}
  | y :: _ => if is_line_terminator y
              then Some {| before := bef; rest := rest0; caps := [] |} else None
  end.
Proof. unfold k_eol, at_eol. simpl. destruct rest0; reflexivity. Qed.

(** A run up to the end of the text is removed whole. *)
Lemma edges_end_run bef x R :
  bol bef = false -> Forall (fun c => is_space c = true) (x :: R) ->
  edges_go 0 bef (x :: R) = [].
Proof.
  intros Hb Hall. inversion Hall as [|? ? Hx HR]; subst.
  destruct (@take_while_run is_space R [] HR I) as [E1 E2]. rewrite app_nil_r in E1, E2.
  rewrite <- (app_nil_r (x :: R)).
  rewrite (@replace_go_match fl_m re_line_edges [] (x :: R) [] bef
             {| before := rev R ++ x :: bef; rest := []; caps := [] |}).
  - apply edges_nil.
  - discriminate.
  - rewrite line_edges_match. cbn [app]. rewrite app_nil_r, Hx, Hb, E1, E2.
    apply greedy_run_commit. reflexivity.
  - reflexivity.
Qed.

Lemma greedy_eol_none B : forall bef z tail,
  Forall (fun c => is_line_terminator c = false) B -> is_line_terminator z = false ->
  greedy_run k_eol bef [] B (z :: tail) = None.
Proof.
  intros bef z tail HB Hz. apply greedy_run_none. intros a b Hab.
  rewrite k_eol_spec. destruct b as [|y b]; simpl.
  - rewrite Hz. reflexivity.
  - rewrite Forall_forall in HB. rewrite (HB y); [reflexivity|].
    rewrite Hab. apply in_or_app. right. left. reflexivity.
Qed.

Lemma space_not_lt z : is_space z = false -> is_line_terminator z = false.
Proof.
  intros Hz. destruct (is_line_terminator z) eqn:E; [|reflexivity].
  apply terminator_space in E. congruence.
Qed.

(** A run without line terminator inside a line stays. *)
Lemma edges_plain_run R : forall bef z tail,
  bol bef = false ->
  Forall (fun c => is_space c = true) R ->
  Forall (fun c => is_line_terminator c = false) R ->
  is_space z = false ->
  edges_go 0 bef (R ++ z :: tail) = R ++ edges_go 0 (rev R ++ bef) (z :: tail).
Proof.
  induction R as [|x R IH]; intros bef z tail Hb Hws Hlt Hz; [reflexivity|].
  inversion Hws as [|? ? Hx HR]; subst. inversion Hlt as [|? ? Hxl HRl]; subst.
  assert (Hend : run_end is_space (z :: tail)) by exact Hz.
  destruct (@take_while_run is_space R (z :: tail) HR Hend) as [E1 E2].
  cbn [app]. rewrite replace_go_emit.
  - rewrite IH; try assumption.
    cbn [rev]. rewrite <- app_assoc. reflexivity.
  - rewrite line_edges_match, Hx, Hb, E1, E2.
    apply greedy_eol_none; [exact HRl | apply space_not_lt; exact Hz].
Qed.

(** The last line terminator of a run inside a line, after a character that
    is not one, stays and the rest of the run goes. *)
Lemma edges_terminator_run bef l B z tail :
  bol bef = false -> is_line_terminator l = true ->
  Forall (fun c => is_space c = true) B ->
  Forall (fun c => is_line_terminator c = false) B ->
  is_space z = false ->
  edges_go 0 bef ((l :: B) ++ z :: tail) = l :: edges_go 0 (rev (l :: B) ++ bef) (z :: tail).
Proof.
  intros Hb Hl HB HBl Hz.
  assert (Hend : run_end is_space (z :: tail)) by exact Hz.
  destruct (@take_while_run is_space B (z :: tail) HB Hend) as [E1 E2].
  cbn [app]. rewrite replace_go_emit.
  - f_equal. destruct B as [|x B'].
    + reflexivity.
    + rewrite (@edges_bol_run (l :: bef) x B' (z :: tail)); try assumption.
      cbn [rev]. rewrite <- !app_assoc. reflexivity.
  - rewrite line_edges_match, (terminator_space l Hl), Hb, E1, E2.
    apply greedy_eol_none; [exact HBl | apply space_not_lt; exact Hz].
Qed.

Lemma greedy_eol_last A : forall bef l B z tail,
  is_line_terminator l = true ->
  Forall (fun c => is_line_terminator c = false) B -> is_line_terminator z = false ->
  greedy_run k_eol bef [] (A ++ l :: B) (z :: tail)
  = Some {| before := rev A ++ bef; rest := (l :: B) ++ z :: tail; caps := [] |}.
Proof.
  induction A as [|x A IH]; intros bef l B z tail Hl HB Hz.
  - cbn [app greedy_run rev]. rewrite greedy_eol_none by assumption.
    unfold orelse. rewrite k_eol_spec. cbn [app]. rewrite Hl. reflexivity.
  - cbn [app greedy_run]. rewrite IH by assumption. unfold orelse.
    cbn [rev]. rewrite <- app_assoc. reflexivity.
Qed.

Lemma last_terminator_split xs :
  Forall (fun c => is_line_terminator c = false) xs \/
  exists A l B, xs = A ++ l :: B /\ is_line_terminator l = true /\
                Forall (fun c => is_line_terminator c = false) B.
Proof.
  induction xs as [|x xs IH]; [left; constructor|].
  destruct IH as [IH|(A & l & B & E & Hl & HB)].
  - destruct (is_line_terminator x) eqn:Ex.
    + right. exists [], x, xs. auto.
    + left. constructor; assumption.
  - right. exists (x :: A), l, B. subst. auto.
Qed.

(** What is left of a whitespace run inside a line: the run itself when it
    has no line terminator, else at most its last line terminator. *)
Lemma edges_inner_run bef R z tail :
  bol bef = false -> R <> [] ->
  Forall (fun c => is_space c = true) R -> is_space z = false ->
  exists surv bef',
    edges_go 0 bef (R ++ z :: tail) = surv ++ edges_go 0 bef' (z :: tail) /\
    (surv = [] \/ (exists l, surv = [l]) \/
     (surv = R /\ Forall (fun c => is_line_terminator c = false) R)).
Proof.
  intros Hb Hne Hws Hz.
  destruct (last_terminator_split R) as [Hplain|(A & l & B & E & Hl & HB)].
  - exists R, (rev R ++ bef). split; [|auto].
    apply edges_plain_run; assumption.
  - subst R. apply Forall_app in Hws. destruct Hws as [HA HlB].
    inversion HlB as [|? ? _ HBs]; subst.
    destruct A as [|x A].
    + exists [l], (rev (l :: B) ++ bef). split; [|right; left; eauto].
      apply edges_terminator_run; assumption.
    + assert (Hend : run_end is_space (z :: tail)) by exact Hz.
      inversion HA as [|? ? Hx HAs]; subst.
      assert (Hrun : Forall (fun c => is_space c = true) (A ++ l :: B)).
      { apply Forall_app. split; assumption. }
      destruct (@take_while_run is_space (A ++ l :: B) (z :: tail) Hrun Hend) as [E1 E2].
      assert (Hstep : edges_go 0 bef (((x :: A) ++ l :: B) ++ z :: tail)
                      = edges_go 0 (rev (x :: A) ++ bef) ((l :: B) ++ z :: tail)).
      { rewrite <- app_assoc.
        rewrite (@replace_go_match fl_m re_line_edges [] (x :: A)
                   ((l :: B) ++ z :: tail) bef
                   {| before := rev A ++ x :: bef;
                      rest := (l :: B) ++ z :: tail; caps := [] |}).
        - reflexivity.
        - discriminate.
        - rewrite line_edges_match. cbn [app]. rewrite Hx, Hb.
          rewrite <- app_assoc in E1, E2. cbn [app] in E1, E2.
          rewrite E1, E2. apply greedy_eol_last; [exact Hl | exact HB |].
          apply space_not_lt. exact Hz.
        - reflexivity. }
      rewrite Hstep.
      destruct (bol (rev (x :: A) ++ bef)) eqn:Hb'.
      * exists [], (rev (l :: B) ++ rev (x :: A) ++ bef). split; [|auto].
        apply edges_bol_run; assumption.
      * exists [l], (rev (l :: B) ++ rev (x :: A) ++ bef).
        split; [|right; left; eauto].
        apply edges_terminator_run; assumption.
Qed.

Lemma bad_pair_nonspace_r a z : is_space z = false -> bad_pair a z = false.
Proof.
  intros Hz. unfold bad_pair. rewrite Hz, (space_not_lt z Hz).
  rewrite !andb_false_r. simpl.
  destruct (N.eqb_spec z 32%N) as [->|_]; [discriminate Hz|].
  rewrite andb_false_r. reflexivity.
Qed.

Lemma bad_pair_nonspace_l z b : is_space z = false -> bad_pair z b = false.
Proof.
  intros Hz. unfold bad_pair. rewrite Hz, (space_not_lt z Hz). simpl.
  destruct (N.eqb_spec z 32%N) as [->|_]; [discriminate Hz|]. reflexivity.
Qed.

Lemma nbp_cons a s :
  no_bad_pairs (a :: s) =
  match s with b :: _ => negb (bad_pair a b) && no_bad_pairs s | [] => true end.
Proof. reflexivity. Qed.

Lemma nbp_sep a z b :
  is_space z = false -> no_bad_pairs a = true -> no_bad_pairs b = true ->
  no_bad_pairs (a ++ z :: b) = true.
Proof.
  intros Hz Ha Hb. induction a as [|x a IH].
  - cbn [app]. rewrite nbp_cons. destruct b as [|y b]; [reflexivity|].
    rewrite (@bad_pair_nonspace_l z y Hz), Hb. reflexivity.
  - cbn [app]. rewrite nbp_cons. rewrite nbp_cons in Ha.
    destruct a as [|y a].
    + cbn [app]. rewrite (@bad_pair_nonspace_r x z Hz). simpl. apply IH. reflexivity.
    + cbn [app] in *. apply andb_true_iff in Ha. destruct Ha as [Ha1 Ha2].
      rewrite Ha1. simpl. apply IH. exact Ha2.
Qed.

Lemma nds_cons a s :
  no_double_space (a :: s) =
  match s with b :: _ => negb ((a =? 32)%N && (b =? 32)%N) && no_double_space s
          | [] => true end.
Proof. reflexivity. Qed.

Lemma nds_tail a s : no_double_space (a :: s) = true -> no_double_space s = true.
Proof.
  rewrite nds_cons. destruct s; [reflexivity|]. intros H.
  apply andb_true_iff in H. tauto.
Qed.

Lemma nds_suffix a b : no_double_space (a ++ b) = true -> no_double_space b = true.
Proof.
  induction a as [|x a IH]; [auto|]. cbn [app]. intros H. apply IH.
  eapply nds_tail. exact H.
Qed.

Lemma nds_prefix a b : no_double_space (a ++ b) = true -> no_double_space a = true.
Proof.
  induction a as [|x a IH]; [reflexivity|]. cbn [app]. rewrite !nds_cons.
  destruct a as [|y a]; [reflexivity|]. cbn [app] in *. intros H.
  apply andb_true_iff in H. destruct H as [H1 H2]. rewrite H1. simpl.
  apply IH. exact H2.
Qed.

Lemma nbp_plain R :
  Forall (fun c => is_line_terminator c = false) R ->
  no_double_space R = true -> no_bad_pairs R = true.
Proof.
  induction R as [|x R IH]; intros Hlt Hnds; [reflexivity|].
  rewrite nbp_cons. rewrite nds_cons in Hnds. destruct R as [|y R]; [reflexivity|].
  apply andb_true_iff in Hnds. destruct Hnds as [H1 H2].
  inversion Hlt as [|? ? Hx HR]; subst. inversion HR as [|? ? Hy _]; subst.
  rewrite (IH HR H2), andb_true_r. unfold bad_pair.
  rewrite Hx, Hy, andb_false_r. simpl. rewrite !orb_false_r. exact H1.
Qed.

(** Whatever the line-edge replacement returns has no line terminator next
    to whitespace, and no two spaces in a row when its input has none. *)
Lemma edges_pairs n : forall s bef,
  length s <= n ->
  (bef = [] \/ exists p b, bef = p :: b /\ is_space p = false) ->
  no_double_space s = true ->
  no_bad_pairs (edges_go 0 bef s) = true.
Proof.
  induction n as [|n IH]; intros s bef Hn Hbef Hnds.
  - destruct s; [|simpl in Hn; lia]. rewrite edges_nil. reflexivity.
  - destruct s as [|x s]; [rewrite edges_nil; reflexivity|].
    simpl in Hn. destruct (is_space x) eqn:Ex.
    2:{ rewrite (@edges_nonspace bef x s Ex). apply (@nbp_sep [] x _ Ex); [reflexivity|].
        apply IH; [lia | right; eauto | eapply nds_tail; eauto]. }
    pose proof (take_drop_while is_space s) as Es.
    pose proof (take_while_all is_space s) as Hrun.
    pose proof (drop_while_end is_space s) as Hend.
    set (R := take_while is_space s) in *. set (tail := drop_while is_space s) in *.
    assert (HR : Forall (fun c => is_space c = true) (x :: R)) by (constructor; assumption).
    assert (Hbol : bol bef = true /\ bef = [] \/ bol bef = false).
    { destruct Hbef as [->|(p & b & -> & Hp)]; [left; auto|].
      right. simpl. apply space_not_lt. exact Hp. }
    rewrite Es. change (x :: R ++ tail) with ((x :: R) ++ tail).
    destruct tail as [|z tail'] eqn:Et.
    + destruct Hbol as [[Hb _]|Hb].
      * rewrite (@edges_bol_run bef x R [] Hb HR I), edges_nil. reflexivity.
      * rewrite app_nil_r, (@edges_end_run bef x R Hb HR). reflexivity.
    + simpl in Hend.
      assert (Hlen : length tail' <= n).
      { apply (f_equal (@length _)) in Es. rewrite length_app in Es. simpl in Es. lia. }
      assert (Hnds' : no_double_space tail' = true).
      { apply nds_tail in Hnds. rewrite Es in Hnds. apply nds_suffix in Hnds.
        eapply nds_tail. exact Hnds. }
      destruct Hbol as [[Hb _]|Hb].
      * rewrite (@edges_bol_run bef x R (z :: tail') Hb HR Hend).
        rewrite (@edges_nonspace _ z tail' Hend). apply (@nbp_sep [] z _ Hend); [reflexivity|].
        apply IH; [exact Hlen | right; eauto | exact Hnds'].
      * destruct (@edges_inner_run bef (x :: R) z tail' Hb) as (surv & bef' & Eq & Hsurv);
          [discriminate | exact HR | exact Hend |].
        rewrite Eq, (@edges_nonspace _ z tail' Hend). apply nbp_sep; [exact Hend | |].
        -- destruct Hsurv as [->|[(l & ->)|[-> Hplain]]]; [reflexivity | reflexivity |].
           apply nbp_plain; [exact Hplain|].
           rewrite Es in Hnds. change (x :: R ++ z :: tail') with ((x :: R) ++ z :: tail') in Hnds.
           eapply nds_prefix. exact Hnds.
        -- apply IH; [exact Hlen | right; eauto | exact Hnds'].
Qed.

Lemma replace_go_chars fl r repl y : forall s bef skip,
  In y (replace_go fl r repl skip bef s) -> In y s \/ In y repl.
Proof.
  induction s as [|c s IH]; intros bef skip Hin.
  - destruct skip; simpl in Hin; [|tauto].
    destruct (match_at fl r bef []); [|simpl in Hin; tauto].
    rewrite app_nil_r in Hin. tauto.
  - destruct skip as [|n]; cbn -[Nat.sub] in Hin.
    + destruct (match_at fl r bef (c :: s)).
      * apply in_app_or in Hin. destruct Hin as [Hin|Hin]; [tauto|].
        destruct (Nat.eqb _ 0).
        -- destruct Hin as [->|Hin]; [left; left; reflexivity|].
           apply IH in Hin. simpl. tauto.
        -- apply IH in Hin. simpl. tauto.
      * destruct Hin as [->|Hin]; [left; left; reflexivity|].
        apply IH in Hin. simpl. tauto.
    + apply IH in Hin. simpl. tauto.
Qed.

Lemma replace_all_keeps (Q : char -> Prop) fl r repl s :
  Forall Q s -> Forall Q repl -> Forall Q (replace_all fl r repl s).
Proof.
  intros Hs Hr. apply Forall_forall. intros y Hy.
  apply replace_go_chars in Hy. rewrite Forall_forall in Hs, Hr.
  destruct Hy; auto.
Qed.

(** The global replacement of one character by nothing filters it out. *)
Lemma replace_chr_filter c : forall s bef,
  replace_go fl_none (Chr c) [] 0 bef s = filter (fun x => negb (x =? c)%N) s.
Proof.
  induction s as [|x s IH]; intros bef; [reflexivity|].
  cbn [filter]. destruct (N.eqb_spec x c) as [->|Hne]; cbn [negb].
  - change (c :: s) with ([c] ++ s).
    rewrite (@replace_go_match fl_none (Chr c) [] [c] s bef
               {| before := c :: bef; rest := s; caps := [] |}).
    + apply IH.
    + discriminate.
    + unfold match_at. cbn [m rest app]. unfold chr_match. cbn [ignoreCase fl_none].
      rewrite N.eqb_refl. reflexivity.
    + reflexivity.
  - rewrite replace_go_emit; [f_equal; apply IH|].
    unfold match_at. cbn [m rest]. unfold chr_match. cbn [ignoreCase fl_none].
    apply N.eqb_neq in Hne. rewrite Hne. reflexivity.
Qed.

Lemma zwsp_removed s : Forall (fun c => c <> 8203%N) (replace_all fl_none re_zwsp [] s).
Proof.
  unfold replace_all, re_zwsp. rewrite replace_chr_filter.
  apply Forall_forall. intros y Hy. apply filter_In in Hy. destruct Hy as [_ Hy].
  apply negb_true_iff in Hy. apply N.eqb_neq. exact Hy.
Qed.

Lemma blanks_match bef post :
  match_at fl_none re_blanks bef post =
  match post with
  | x :: post' =>
      if blank x
      then Some {| before := rev (take_while blank post') ++ x :: bef;
                   rest := drop_while blank post'; caps := [] |}
      else None
  | [] => None
  end.
Proof. unfold re_blanks. rewrite match_plus_class. reflexivity. Qed.

Lemma blank_not_tab x : blank x = false -> x <> 9%N /\ x <> 32%N.
Proof.
  intros H. split; intros ->; discriminate H.
Qed.

Lemma blanks_out n : forall s bef,
  length s <= n ->
  Forall (fun c => c <> 9%N) (blanks_go 0 bef s) /\ no_double_space (blanks_go 0 bef s) = true.
Proof.
  induction n as [|n IH]; intros s bef Hn.
  - destruct s; [|simpl in Hn; lia].
    rewrite replace_go_nil by (rewrite blanks_match; reflexivity). auto.
  - destruct s as [|x s].
    { rewrite replace_go_nil by (rewrite blanks_match; reflexivity). auto. }
    simpl in Hn. destruct (blank x) eqn:Ex.
    + pose proof (take_drop_while blank s) as Es.
      pose proof (drop_while_end blank s) as Hend.
      set (R := take_while blank s) in *. set (tail := drop_while blank s) in *.
      assert (Hm : match_at fl_none re_blanks bef ((x :: R) ++ tail)
                   = Some {| before := rev R ++ x :: bef; rest := tail; caps := [] |}).
      { rewrite blanks_match. cbn [app]. rewrite Ex, <- Es. reflexivity. }
      rewrite Es. change (x :: R ++ tail) with ((x :: R) ++ tail).
      rewrite (@replace_go_match fl_none re_blanks (lit " ") (x :: R) tail bef _
                 ltac:(discriminate) Hm eq_refl).
      destruct tail as [|z tail'] eqn:Et.
      * rewrite replace_go_nil by (rewrite blanks_match; reflexivity).
        split; [repeat constructor; discriminate | reflexivity].
      * simpl in Hend. destruct (blank_not_tab z Hend) as [Hz9 Hz32].
        rewrite replace_go_emit by (rewrite blanks_match, Hend; reflexivity).
        assert (Hlen : length tail' <= n).
        { apply (f_equal (@length _)) in Es. rewrite length_app in Es. simpl in Es. lia. }
        destruct (IH tail' (z :: rev (x :: R) ++ bef) Hlen) as [H1 H2].
        split.
        -- constructor; [discriminate|]. constructor; assumption.
        -- change (lit " " ++ z :: blanks_go 0 (z :: rev (x :: R) ++ bef) tail')
             with (32%N :: z :: blanks_go 0 (z :: rev (x :: R) ++ bef) tail').
           rewrite nds_cons. apply andb_true_iff. split.
           ++ apply negb_true_iff. apply andb_false_iff. right.
              apply N.eqb_neq. exact Hz32.
           ++ rewrite nds_cons. destruct (blanks_go 0 _ tail') as [|y out] eqn:Eo; [reflexivity|].
              apply andb_true_iff. split; [|exact H2].
              apply negb_true_iff. apply andb_false_iff. left.
              apply N.eqb_neq. exact Hz32.
    + destruct (blank_not_tab x Ex) as [Hx9 Hx32].
      rewrite replace_go_emit by (rewrite blanks_match, Ex; reflexivity).
      destruct (IH s (x :: bef) ltac:(lia)) as [H1 H2].
      split; [constructor; assumption|].
      rewrite nds_cons. destruct (blanks_go 0 _ s) as [|y out] eqn:Eo; [reflexivity|].
      apply andb_true_iff. split; [|exact H2].
      apply negb_true_iff. apply andb_false_iff. left. apply N.eqb_neq. exact Hx32.
Qed.

Lemma replace_single_nds fl r c :
  c <> 32%N ->
  forall s bef skip,
    no_double_space s = true ->
    no_double_space (replace_go fl r [c] skip bef s) = true /\
    (forall p, no_double_space (p :: s) = true ->
               no_double_space (p :: replace_go fl r [c] 0 bef s) = true).
Proof.
  intros Hc.
  assert (Hpc : forall p out, no_double_space out = true ->
            no_double_space (p :: c :: out) = true
            /\ no_double_space (c :: out) = true).
  { intros p out Ho.
    assert (Hco : no_double_space (c :: out) = true).
    { rewrite nds_cons. destruct out as [|y out']; [reflexivity|].
      rewrite Ho, andb_true_r. apply negb_true_iff. apply andb_false_iff. left.
      apply N.eqb_neq. exact Hc. }
    split; [|exact Hco]. rewrite nds_cons, Hco, andb_true_r.
    apply negb_true_iff. apply andb_false_iff. right. apply N.eqb_neq. exact Hc. }
  induction s as [|x s IH]; intros bef skip Hs.
  - split.
    + destruct skip; simpl; [|reflexivity].
      destruct (match_at fl r bef []); reflexivity.
    + intros p _. simpl. destruct (match_at fl r bef []); [|reflexivity].
      apply (Hpc p []). reflexivity.
  - pose proof (nds_tail _ _ Hs) as Hs'.
    assert (Hemit : forall p, no_double_space (p :: x :: s) = true ->
              no_double_space (p :: x :: replace_go fl r [c] 0 (x :: bef) s) = true).
    { intros p Hp. rewrite nds_cons. rewrite nds_cons in Hp.
      apply andb_true_iff in Hp. destruct Hp as [Hp1 Hp2]. rewrite Hp1. simpl.
      apply (proj2 (IH (x :: bef) 0 Hs')). exact Hp2. }
    assert (Hx : no_double_space (x :: replace_go fl r [c] 0 (x :: bef) s) = true).
    { apply (proj2 (IH (x :: bef) 0 Hs')). exact Hs. }
    assert (H0 : forall p, no_double_space (p :: x :: s) = true ->
              no_double_space (p :: replace_go fl r [c] 0 bef (x :: s)) = true
              /\ no_double_space (replace_go fl r [c] 0 bef (x :: s)) = true).
    { intros p Hp. cbn -[Nat.sub no_double_space].
      destruct (match_at fl r bef (x :: s)).
      - cbn [app]. destruct (Nat.eqb _ 0).
        + apply Hpc. exact Hx.
        + apply Hpc. apply (proj1 (IH (x :: bef) _ Hs')).
      - split; [apply Hemit; exact Hp | exact Hx]. }
    split.
    + destruct skip as [|n].
      * apply (H0 33%N). rewrite nds_cons. exact Hs.
      * cbn -[no_double_space]. apply (proj1 (IH (x :: bef) n Hs')).
    + intros p Hp. apply (H0 p Hp).
Qed.

Lemma trim_start_suffix t : exists pre, t = pre ++ trim_start t.
Proof.
  induction t as [|c t IH]; [exists []; reflexivity|]. simpl.
  destruct (is_space c).
  - destruct IH as [pre E]. exists (c :: pre). simpl. rewrite <- E. reflexivity.
  - exists []. reflexivity.
Qed.

Lemma trim_end_prefix t : exists post, t = trim_end t ++ post.
Proof.
  unfold trim_end. destruct (trim_start_suffix (rev t)) as [pre E].
  exists (rev pre). apply (f_equal (@rev _)) in E.
  rewrite rev_involutive, rev_app_distr in E. exact E.
Qed.

Lemma trim_start_head t : head_not_space (trim_start t) = true.
Proof.
  induction t as [|c t IH]; [reflexivity|]. simpl.
  destruct (is_space c) eqn:E; [exact IH|]. simpl. rewrite E. reflexivity.
Qed.

Lemma trim_start_snoc u c :
  is_space c = false -> trim_start (u ++ [c]) = trim_start u ++ [c].
Proof.
  intros Hc. induction u as [|x u IH]; simpl.
  - rewrite Hc. reflexivity.
  - destruct (is_space x); [exact IH | reflexivity].
Qed.

Lemma trim_end_head y : head_not_space y = true -> head_not_space (trim_end y) = true.
Proof.
  destruct y as [|c y]; [reflexivity|]. simpl. intros Hc.
  apply negb_true_iff in Hc. unfold trim_end. simpl rev.
  rewrite (@trim_start_snoc (rev y) c Hc), rev_app_distr. simpl. rewrite Hc. reflexivity.
Qed.

Lemma trim_ends t :
  head_not_space (trim t) = true /\ head_not_space (rev (trim t)) = true.
Proof.
  unfold trim. split.
  - apply trim_end_head. apply trim_start_head.
  - unfold trim_end. rewrite rev_involutive. apply trim_start_head.
Qed.

Lemma nbp_tail a s : no_bad_pairs (a :: s) = true -> no_bad_pairs s = true.
Proof.
  rewrite nbp_cons. destruct s; [reflexivity|]. intros H.
  apply andb_true_iff in H. tauto.
Qed.

Lemma nbp_suffix a b : no_bad_pairs (a ++ b) = true -> no_bad_pairs b = true.
Proof.
  induction a as [|x a IH]; [auto|]. cbn [app]. intros H. apply IH.
  eapply nbp_tail. exact H.
Qed.

Lemma nbp_prefix a b : no_bad_pairs (a ++ b) = true -> no_bad_pairs a = true.
Proof.
  induction a as [|x a IH]; [reflexivity|]. cbn [app]. rewrite !nbp_cons.
  destruct a as [|y a]; [reflexivity|]. cbn [app] in *. intros H.
  apply andb_true_iff in H. destruct H as [H1 H2]. rewrite H1. simpl.
  apply IH. exact H2.
Qed.

Lemma trim_pairs t : no_bad_pairs t = true -> no_bad_pairs (trim t) = true.
Proof.
  intros H. unfold trim.
  destruct (trim_start_suffix t) as [pre E]. rewrite E in H. apply nbp_suffix in H.
  destruct (trim_end_prefix (trim_start t)) as [post E']. rewrite E' in H.
  apply nbp_prefix in H. exact H.
Qed.

Lemma trim_keeps (Q : char -> Prop) t : Forall Q t -> Forall Q (trim t).
Proof.
  intros H. unfold trim.
  destruct (trim_start_suffix t) as [pre E]. rewrite E in H.
  apply Forall_app in H. destruct H as [_ H].
  destruct (trim_end_prefix (trim_start t)) as [post E']. rewrite E' in H.
  apply Forall_app in H. tauto.
Qed.

(** The whitespace half of [stripHtml] returns a text in normal form. *)
Lemma collapse_whitespace_normal s : ws_normal (collapse_whitespace s) = true.
Proof.
  unfold collapse_whitespace.
  set (s1 := replace_all fl_none re_zwsp [] s).
  set (s2 := replace_all fl_none re_blanks (lit " ") s1).
  set (s3 := replace_all fl_none re_blank_lines [10%N] s2).
  set (s4 := replace_all fl_m re_line_edges [] s3).
  assert (H1 : Forall (fun c => c <> 8203%N) s1) by apply zwsp_removed.
  destruct (@blanks_out (length s1) s1 [] (le_n _)) as [H2t H2d]. fold s2 in H2t, H2d.
  assert (H2z : Forall (fun c => c <> 8203%N) s2).
  { apply replace_all_keeps; [exact H1 | repeat constructor; discriminate]. }
  assert (H3d : no_double_space s3 = true).
  { apply (@replace_single_nds fl_none re_blank_lines 10%N ltac:(discriminate) s2 [] 0 H2d). }
  assert (H3z : Forall (fun c => c <> 8203%N) s3).
  { apply replace_all_keeps; [exact H2z | repeat constructor; discriminate]. }
  assert (H3t : Forall (fun c => c <> 9%N) s3).
  { apply replace_all_keeps; [exact H2t | repeat constructor; discriminate]. }
  assert (H4p : no_bad_pairs s4 = true).
  { apply (@edges_pairs (length s3) s3 [] (le_n _)); [left; reflexivity | exact H3d]. }
  assert (H4z : Forall (fun c => c <> 8203%N) s4).
  { apply replace_all_keeps; [exact H3z | constructor]. }
  assert (H4t : Forall (fun c => c <> 9%N) s4).
  { apply replace_all_keeps; [exact H3t | constructor]. }
  unfold ws_normal. destruct (trim_ends s4) as [He1 He2].
  rewrite He1, He2, (@trim_pairs s4 H4p), !andb_true_r.
  apply forallb_forall. intros y Hy.
  pose proof (@trim_keeps _ s4 H4z) as Hz. pose proof (@trim_keeps _ s4 H4t) as Ht.
  rewrite Forall_forall in Hz, Ht.
  apply andb_true_iff. split; apply negb_true_iff; apply N.eqb_neq; auto.
Qed.

Lemma collapse_whitespace_keeps (Q : char -> Prop) s :
  Forall Q s -> Q 32%N -> Q 10%N -> Forall Q (collapse_whitespace s).
Proof.
  intros Hs H32 H10. unfold collapse_whitespace.
  apply trim_keeps. repeat apply replace_all_keeps;
    try exact Hs; repeat constructor; assumption.
Qed.

Lemma markup_free_iff s :
  markup_free s = true <-> Forall (fun c => c <> 60%N /\ c <> 38%N) s.
Proof.
  unfold markup_free. rewrite forallb_forall, Forall_forall.
  split; intros H x Hx; specialize (H x Hx).
  - apply andb_true_iff in H. destruct H as [H1 H2].
    apply negb_true_iff in H1. apply negb_true_iff in H2.
    split; apply N.eqb_neq; assumption.
  - destruct H as [H1 H2]. apply andb_true_iff.
    split; apply negb_true_iff; apply N.eqb_neq; assumption.
Qed.

End WhitespaceFacts.

(* ================================================================= *)
(** * Idempotence of the normalizer *)



(* ================================================================= *)
(** * Provision numbers and their suffix *)

Module SuffixFacts.
Import JsFacts RegexFacts DedupFacts ParserFacts SearchFacts RunFacts.

(** ** A number with a suffix in the DIFC and ADGM patterns *)

Lemma orelse_some a b r : a = Some r -> orelse a b = Some r.
Proof. intros ->. reflexivity. Qed.

Lemma strip_prefix_self fl w post : strip_prefix fl w (w ++ post) = Some post.
Proof.
  induction w as [|c w IH]; [reflexivity|]. simpl.
  assert (E : chr_match fl c c = true).
  { unfold chr_match. destruct (ignoreCase fl); apply N.eqb_refl. }
  rewrite E. exact IH.
Qed.

Lemma firstn_length_app {A} (xs ys : list A) : firstn (length xs) (xs ++ ys) = xs.
Proof. induction xs; simpl; [reflexivity | f_equal; auto]. Qed.

Lemma m_Str_self fl w bef post cs k :
  m fl (Str w) {| before := bef; rest := w ++ post; caps := cs |} k
  = k {| before := rev w ++ bef; rest := post; caps := cs |}.
Proof.
  rewrite m_Str. cbn [rest before caps]. rewrite strip_prefix_self, firstn_length_app.
  reflexivity.
Qed.

Lemma m_star_commit fl r1 P xs tail bef cs k r :
  (forall st k, m fl r1 st k = char_step P st k) ->
  Forall (fun c => P c = true) xs -> run_end P tail ->
  k {| before := rev xs ++ bef; rest := tail; caps := cs |} = Some r ->
  m fl (Star true r1) {| before := bef; rest := xs ++ tail; caps := cs |} k = Some r.
Proof.
  intros Hstep Hall Hend Hk. cbn [m rest].
  rewrite (@star_greedy_run P (m fl r1) Hstep xs tail _ bef cs k Hall Hend (le_n _)).
  apply greedy_run_commit. exact Hk.
Qed.

Lemma slice_app xs tail bef bef' cs cs' :
  slice {| before := bef; rest := xs ++ tail; caps := cs |}
        {| before := bef'; rest := tail; caps := cs' |} = xs.
Proof.
  unfold slice. cbn [rest]. rewrite length_app.
  replace (length xs + length tail - length tail) with (length xs) by lia.
  apply firstn_length_app.
Qed.

Lemma slice_eq xs tail s0 bef bef' cs cs' :
  s0 = xs ++ tail ->
  slice {| before := bef; rest := s0; caps := cs |}
        {| before := bef'; rest := tail; caps := cs' |} = xs.
Proof. intros ->. apply slice_app. Qed.

Lemma digit_bounds d : is_digit d = true -> (48 <= d <= 57)%N.
Proof.
  unfold is_digit. intros H. apply andb_true_iff in H. destruct H as [H1 H2].
  apply N.leb_le in H1. apply N.leb_le in H2. lia.
Qed.

Lemma letter_bounds l : is_letter l = true -> (65 <= l <= 90)%N \/ (97 <= l <= 122)%N.
Proof.
  unfold is_letter, is_upper, is_lower. intros H.
  apply orb_true_iff in H. destruct H as [H|H];
    apply andb_true_iff in H; destruct H as [H1 H2];
    apply N.leb_le in H1; apply N.leb_le in H2; [left|right]; lia.
Qed.

Ltac bool_arith :=
  repeat match goal with
  | |- (_ || _)%bool = false => apply orb_false_iff; split
  | |- (_ && _)%bool = false =>
      apply andb_false_iff;
      first [ left; apply N.leb_gt; lia | right; apply N.leb_gt; lia
            | left; apply N.eqb_neq; lia | right; apply N.eqb_neq; lia ]
  | |- (_ =? _)%N = false => apply N.eqb_neq; lia
  | |- (_ <=? _)%N = false => apply N.leb_gt; lia
  | |- (_ || _)%bool = true => apply orb_true_iff
  | |- (_ && _)%bool = true => apply andb_true_iff; split
  | |- (_ <=? _)%N = true => apply N.leb_le; lia
  | |- false = false => reflexivity
  end.

Lemma digit_case d : is_digit d = true -> to_upper d = d /\ to_lower d = d.
Proof.
  intros H. apply digit_bounds in H. unfold to_upper, to_lower, is_lower, is_upper.
  assert (E1 : ((97 <=? d) && (d <=? 122))%N = false) by bool_arith.
  assert (E2 : ((65 <=? d) && (d <=? 90))%N = false) by bool_arith.
  rewrite E1, E2. auto.
Qed.

Lemma digit_not_space d : is_digit d = true -> is_space d = false.
Proof.
  intros H. apply digit_bounds in H. unfold is_space. bool_arith.
Qed.

Lemma digit_not_space_i d : is_digit d = true -> cls_match fl_i false [CSpace] d = false.
Proof.
  intros H. unfold cls_match, item_match. simpl.
  destruct (digit_case d H) as [-> ->]. rewrite (digit_not_space d H). reflexivity.
Qed.

Lemma digit_class_i d : is_digit d = true -> cls_match fl_i false [CDigit] d = true.
Proof. intros H. unfold cls_match, item_match. simpl. rewrite H. reflexivity. Qed.

Lemma letter_class_i l :
  is_letter l = true -> cls_match fl_i false [CRange 65%N 90%N; CRange 97%N 122%N] l = true.
Proof.
  unfold is_letter, is_upper, is_lower, cls_match, item_match. simpl. intros H.
  apply orb_true_iff in H. destruct H as [H|H]; rewrite H; simpl;
    rewrite ?orb_true_r; reflexivity.
Qed.

Lemma letter_not_digit_i l : is_letter l = true -> cls_match fl_i false [CDigit] l = false.
Proof.
  intros H. apply letter_bounds in H.
  unfold cls_match, item_match, is_digit, to_upper, to_lower, is_lower, is_upper. simpl.
  rewrite orb_false_r.
  destruct H as [H|H].
  - assert (E1 : ((97 <=? l) && (l <=? 122))%N = false) by bool_arith.
    assert (E2 : ((65 <=? l) && (l <=? 90))%N = true) by bool_arith.
    rewrite E1, E2. unfold is_digit. bool_arith.
  - assert (E1 : ((97 <=? l) && (l <=? 122))%N = true) by bool_arith.
    assert (E2 : ((65 <=? l) && (l <=? 90))%N = false) by bool_arith.
    rewrite E1, E2. unfold is_digit. bool_arith.
Qed.

Lemma m_Seq fl a b st k : m fl (Seq a b) st k = m fl a st (fun st' => m fl b st' k).
Proof. reflexivity. Qed.

Lemma m_Group fl i a st k :
  m fl (Group i a) st k = m fl a st (fun st' => k (set_cap i (slice st st') st')).
Proof. reflexivity. Qed.

Lemma m_Cls_hit fl neg items x post bef cs k :
  cls_match fl neg items x = true ->
  m fl (Cls neg items) {| before := bef; rest := x :: post; caps := cs |} k
  = k {| before := x :: bef; rest := post; caps := cs |}.
Proof. intros H. cbn [m rest]. rewrite H. reflexivity. Qed.

Section Suffix.
Variable look : regex.

Hypothesis body_ok : forall bef0 g1,
  m fl_i (tail_re look) {| before := bef0; rest := sample_body; caps := [(1, g1)] |} Some
  = Some {| before := rev sample_body ++ bef0; rest := [];
            caps := [(2, body_text); (1, g1)] |}.

Lemma number_match ds ls bef :
  ds <> [] -> Forall (fun c => is_digit c = true) ds ->
  Forall (fun c => is_letter c = true) ls ->
  m fl_i (Seq (Star true S_) (Seq (Group 1 num_suffix) (tail_re look)))
    {| before := bef; rest := [32%N] ++ ds ++ ls ++ sample_body; caps := [] |} Some
  = Some {| before := rev sample_body ++ rev ls ++ rev ds ++ 32%N :: bef; rest := [];
            caps := [(2, body_text); (1, ds ++ ls)] |}.
Proof.
  intros Hne Hds Hls. destruct ds as [|d0 ds']; [congruence|].
  inversion Hds as [|? ? Hd0 Hds']; subst.
  rewrite m_Seq. unfold S_ at 1.
  apply (@m_star_commit fl_i (Cls false [CSpace]) (cls_match fl_i false [CSpace]));
    [intros; reflexivity | repeat constructor | apply digit_not_space_i; exact Hd0 |].
  rewrite m_Seq, m_Group. unfold num_suffix, Plus, D_, AZ_. rewrite !m_Seq.
  cbn [app]. rewrite (@m_Cls_hit fl_i false [CDigit] d0 _ _ _ _ (digit_class_i d0 Hd0)).
  apply (@m_star_commit fl_i (Cls false [CDigit]) (cls_match fl_i false [CDigit]));
    [intros; reflexivity | | |].
  { eapply Forall_impl; [|exact Hds']. intros a Ha. apply digit_class_i. exact Ha. }
  { destruct ls as [|l ls']; [reflexivity|]. inversion Hls; subst.
    apply letter_not_digit_i. assumption. }
  apply (@m_star_commit fl_i (Cls false [CRange 65%N 90%N; CRange 97%N 122%N])
           (cls_match fl_i false [CRange 65%N 90%N; CRange 97%N 122%N]));
    [intros; reflexivity | | reflexivity |].
  { eapply Forall_impl; [|exact Hls]. intros a Ha. apply letter_class_i. exact Ha. }
  unfold set_cap. cbn [before rest caps].
  rewrite (@slice_eq (d0 :: ds' ++ ls) sample_body)
    by (cbn [app]; rewrite <- app_assoc; reflexivity).
  rewrite body_ok. f_equal. f_equal. cbn [rev].
  rewrite <- !app_assoc. reflexivity.
Qed.

End Suffix.

Lemma zone_article_re_shape markers :
  zone_article_re markers =
  Seq (Alts markers)
      (Seq (Star true S_) (Seq (Group 1 num_suffix) (tail_re (zone_look markers)))).
Proof. reflexivity. Qed.

Lemma body_ok_adgm bef0 g1 :
  m fl_i (tail_re (zone_look [L_ "Section"; L_ "Rule"; L_ "Regulation"]))
    {| before := bef0; rest := sample_body; caps := [(1, g1)] |} Some
  = Some {| before := rev sample_body ++ bef0; rest := [];
            caps := [(2, body_text); (1, g1)] |}.
Proof. vm_compute. reflexivity. Qed.

Lemma body_ok_difc bef0 g1 :
  m fl_i (tail_re (zone_look [L_ "Article"; L_ "Section"]))
    {| before := bef0; rest := sample_body; caps := [(1, g1)] |} Some
  = Some {| before := rev sample_body ++ bef0; rest := [];
            caps := [(2, body_text); (1, g1)] |}.
Proof. vm_compute. reflexivity. Qed.

Lemma exec_go_skip_all fl r :
  consumes r = true ->
  forall s bef, exec_go fl r (length s) bef s = Some [].
Proof.
  intros Hc. induction s as [|x s IH]; intros bef; simpl.
  - destruct (match_at fl r bef []) eqn:E; [|reflexivity].
    apply match_at_consumes in E; [|exact Hc]. simpl in E. lia.
  - apply IH.
Qed.

Lemma exec_all_whole fl r s st' :
  consumes r = true -> s <> [] ->
  match_at fl r [] s = Some st' -> rest st' = [] ->
  exec_all fl r s = Some [mk_result [] s st'].
Proof.
  intros Hc Hne Hm Hr. unfold exec_all. destruct s as [|x s]; [congruence|].
  cbn -[Nat.sub mk_result]. rewrite Hm, Hr. cbn [length Nat.sub Nat.eqb].
  rewrite Nat.sub_0_r. rewrite exec_go_skip_all by exact Hc. reflexivity.
Qed.

Lemma adgm_match ds ls :
  ds <> [] -> Forall (fun c => is_digit c = true) ds ->
  Forall (fun c => is_letter c = true) ls ->
  match_at fl_i re_section_adgm [] (lit "Section" ++ [32%N] ++ ds ++ ls ++ sample_body)
  = Some {| before := rev sample_body ++ rev ls ++ rev ds ++ 32%N :: rev (lit "Section");
            rest := []; caps := [(2, body_text); (1, ds ++ ls)] |}.
Proof.
  intros Hne Hds Hls. unfold match_at, re_section_adgm.
  rewrite zone_article_re_shape, m_Seq.
  change (Alts [L_ "Section"; L_ "Rule"; L_ "Regulation"])
    with (Alt (Str (lit "Section")) (Alt (L_ "Rule") (L_ "Regulation"))).
  change (m fl_i (Alt (Str (lit "Section")) (Alt (L_ "Rule") (L_ "Regulation"))) ?st ?k)
    with (orelse (m fl_i (Str (lit "Section")) st k)
                 (m fl_i (Alt (L_ "Rule") (L_ "Regulation")) st k)).
  apply orelse_some. rewrite m_Str_self.
  rewrite (@number_match _ body_ok_adgm ds ls _ Hne Hds Hls).
  rewrite app_nil_r. reflexivity.
Qed.

Lemma zone_step chapterRe prefix num text :
  (chapterRe = re_chapter_adgm \/ chapterRe = re_chapter_difc) ->
  article_step fl_i chapterRe fl_i re_title_en fl_i re_isdef_en fl_i re_def_en
    prefix (lit "en") empty_pass
    {| m_pre := []; m_text := text; m_caps := [(2, body_text); (1, num)]; m_post := [] |}
  = Some {| currentChapter := [];
            raw_provisions :=
              [ {| provision_ref := prefix ++ num; chapter := None; section := num;
                   title := []; content := body_text; language := lit "en" |} ];
            raw_definitions := [] |}.
Proof. intros [-> | ->]; vm_compute; reflexivity. Qed.

Lemma adgm_pass_suffix ds ls :
  ds <> [] -> Forall (fun c => is_digit c = true) ds ->
  Forall (fun c => is_letter c = true) ls ->
  adgm_pass (lit "Section" ++ [32%N] ++ ds ++ ls ++ sample_body)
  = Some {| currentChapter := [];
            raw_provisions :=
              [ {| provision_ref := lit "s" ++ ds ++ ls; chapter := None;
                   section := ds ++ ls; title := []; content := body_text;
                   language := lit "en" |} ];
            raw_definitions := [] |}.
Proof.
  intros Hne Hds Hls. unfold adgm_pass.
  assert (Hs : lit "Section" ++ [32%N] ++ ds ++ ls ++ sample_body <> [])
    by (vm_compute; discriminate).
  rewrite (@exec_all_whole fl_i re_section_adgm _ _ eq_refl Hs
             (adgm_match Hne Hds Hls) eq_refl).
  cbn [bind foldM]. unfold mk_result. cbn [rev caps rest].
  rewrite zone_step by (left; reflexivity). reflexivity.
Qed.

Lemma difc_match ds ls :
  ds <> [] -> Forall (fun c => is_digit c = true) ds ->
  Forall (fun c => is_letter c = true) ls ->
  match_at fl_i re_article_difc [] (lit "Article" ++ [32%N] ++ ds ++ ls ++ sample_body)
  = Some {| before := rev sample_body ++ rev ls ++ rev ds ++ 32%N :: rev (lit "Article");
            rest := []; caps := [(2, body_text); (1, ds ++ ls)] |}.
Proof.
  intros Hne Hds Hls. unfold match_at, re_article_difc.
  rewrite zone_article_re_shape, m_Seq.
  change (Alts [L_ "Article"; L_ "Section"])
    with (Alt (Str (lit "Article")) (L_ "Section")).
  change (m fl_i (Alt (Str (lit "Article")) (L_ "Section")) ?st ?k)
    with (orelse (m fl_i (Str (lit "Article")) st k)
                 (m fl_i (L_ "Section") st k)).
  apply orelse_some. rewrite m_Str_self.
  rewrite (@number_match _ body_ok_difc ds ls _ Hne Hds Hls).
  rewrite app_nil_r. reflexivity.
Qed.

Lemma difc_pass_suffix ds ls :
  ds <> [] -> Forall (fun c => is_digit c = true) ds ->
  Forall (fun c => is_letter c = true) ls ->
  difc_pass (lit "Article" ++ [32%N] ++ ds ++ ls ++ sample_body)
  = Some {| currentChapter := [];
            raw_provisions :=
              [ {| provision_ref := lit "art" ++ ds ++ ls; chapter := None;
                   section := ds ++ ls; title := []; content := body_text;
                   language := lit "en" |} ];
            raw_definitions := [] |}.
Proof.
  intros Hne Hds Hls. unfold difc_pass.
  assert (Hs : lit "Article" ++ [32%N] ++ ds ++ ls ++ sample_body <> [])
    by (vm_compute; discriminate).
  rewrite (@exec_all_whole fl_i re_article_difc _ _ eq_refl Hs
             (difc_match Hne Hds Hls) eq_refl).
  cbn [bind foldM]. unfold mk_result. cbn [rev caps rest].
  rewrite zone_step by (right; reflexivity). reflexivity.
Qed.

(* ----------------------------------------------------------------- *)
(** ** What group 1 of the federal pattern holds *)

Lemma star_loop_keeps (R : mstate -> mstate -> Prop) g step :
  (forall st, R st st) ->
  (forall a b c, R a b -> R b c -> R a c) ->
  step_keeps R step -> forall n, step_keeps R (star_loop g step n).
Proof.
  intros Hrefl Htrans Hs n. induction n as [|n IH]; intros st k res H; simpl in H.
  - exists st. split; [apply Hrefl | exact H].
  - assert (Hiter : forall r0,
      step st (fun st' =>
        if Nat.ltb (length (rest st')) (length (rest st))
        then star_loop g step n st' k else None) = Some r0 ->
      exists st', R st st' /\ k st' = Some r0).
    { intros r0 Hr. apply Hs in Hr. destruct Hr as (st1 & Ha & Hk).
      destruct (Nat.ltb _ _); [|discriminate].
      apply IH in Hk. destruct Hk as (st2 & Ha2 & Hk2).
      exists st2. split; [eapply Htrans; eauto | exact Hk2]. }
    destruct g; unfold orelse in H.
    + destruct (step st _) eqn:E.
      * inversion H; subst. apply Hiter. reflexivity.
      * exists st. split; [apply Hrefl | exact H].
    + destruct (k st) eqn:E.
      * inversion H; subst. exists st. split; [apply Hrefl | exact E].
      * apply Hiter. exact H.
Qed.

Lemma keeps_cap_advance i st : keeps_cap i st (advance st).
Proof. unfold keeps_cap, advance. destruct (rest st); reflexivity. Qed.

Lemma m_keeps_cap fl i r :
  has_group i r = false -> step_keeps (keeps_cap i) (m fl r).
Proof.
  induction r; intros Hg st k res H; simpl in H, Hg.
  - exists st. split; [reflexivity | exact H].
  - destruct (rest st) eqn:E; [discriminate|].
    destruct (chr_match fl c c0); [|discriminate].
    exists (advance st). split; [apply keeps_cap_advance | exact H].
  - destruct (rest st) eqn:E; [discriminate|].
    destruct (cls_match fl neg items c); [|discriminate].
    exists (advance st). split; [apply keeps_cap_advance | exact H].
  - destruct (rest st) eqn:E; [discriminate|].
    destruct (is_line_terminator c); [discriminate|].
    exists (advance st). split; [apply keeps_cap_advance | exact H].
  - apply orb_false_iff in Hg. destruct Hg as [Hg1 Hg2].
    apply (IHr1 Hg1) in H. destruct H as (st1 & H1 & H).
    apply (IHr2 Hg2) in H. destruct H as (st2 & H2 & H).
    exists st2. split; [|exact H]. unfold keeps_cap in *. congruence.
  - apply orb_false_iff in Hg. destruct Hg as [Hg1 Hg2].
    unfold orelse in H. destruct (m fl r1 st k) eqn:E.
    + inversion H; subst. apply (IHr1 Hg1) in E. exact E.
    + apply (IHr2 Hg2) in H. exact H.
  - refine (@star_loop_keeps (keeps_cap i) greedy (m fl r) _ _ (IHr Hg) _ st k res H).
    + intros; reflexivity.
    + unfold keeps_cap; intros; congruence.
  - apply orb_false_iff in Hg. destruct Hg as [Hij Hg].
    apply (IHr Hg) in H. destruct H as (st1 & H1 & H).
    eexists. split; [|exact H]. unfold keeps_cap in *. simpl.
    rewrite Hij. exact H1.
  - destruct (m fl r st Some) eqn:E; [|discriminate].
    apply (IHr Hg) in E. destruct E as (st1 & H1 & E). inversion E; subst.
    eexists. split; [|exact H]. exact H1.
  - destruct (at_bol fl st); [|discriminate]. exists st. split; [reflexivity|exact H].
  - destruct (at_eol fl st); [|discriminate]. exists st. split; [reflexivity|exact H].
  - destruct (at_wordb st); [|discriminate]. exists st. split; [reflexivity|exact H].
Qed.

Lemma has_group_Str i s : has_group i (Str s) = false.
Proof.
  induction s as [|c s IH]; [reflexivity|].
  destruct s; [reflexivity|]. change (has_group i (Str (c :: c0 :: s)))
    with (false || has_group i (Str (c0 :: s))). exact IH.
Qed.

Lemma over_digits_refl st : over_digits st st.
Proof. exists []. repeat split; constructor. Qed.

Lemma over_digits_trans a b c : over_digits a b -> over_digits b c -> over_digits a c.
Proof.
  intros (xs & Hx & Ha & Hc) (ys & Hy & Hb & Hc').
  exists (xs ++ ys). split; [apply Forall_app; split; assumption|].
  split; [eapply advances_by_trans; eauto | congruence].
Qed.

Lemma digit_step : step_keeps
  (fun st st' => exists x, is_digit x = true /\ advances_by [x] st st' /\
                           caps st' = caps st)
  (m fl_none D_).
Proof.
  intros st k res H. unfold D_ in H. cbn [m] in H.
  destruct (rest st) as [|x xs] eqn:E; [discriminate|].
  destruct (cls_match fl_none false [CDigit] x) eqn:Ex; [|discriminate].
  exists (advance st). split; [|exact H].
  exists x. split.
  - unfold cls_match, item_match in Ex. simpl in Ex.
    rewrite !orb_false_r in Ex. exact Ex.
  - unfold advance, advances_by. rewrite E. simpl. repeat split.
Qed.

Lemma digits_run : step_keeps
  (fun st st' => exists ds, digits ds /\ advances_by ds st st' /\ caps st' = caps st)
  (m fl_none (Plus true D_)).
Proof.
  intros st k res H. unfold Plus in H. cbn [m] in H.
  apply digit_step in H. destruct H as (st1 & (x & Hx & Ha & Hc) & H).
  revert H. generalize (length (rest st1)). intros n H.
  assert (Hd : step_keeps over_digits (m fl_none D_)).
  { intros s0 k0 r0 H0. apply digit_step in H0.
    destruct H0 as (s1 & (y & Hy & Hb & Hc0) & H0). exists s1. split; [|exact H0].
    exists [y]. repeat split; [constructor; [exact Hy|constructor] | apply Hb | apply Hb | exact Hc0]. }
  apply (@star_loop_keeps over_digits true (m fl_none D_)
           over_digits_refl over_digits_trans Hd n) in H.
  destruct H as (st2 & (ys & Hy & Hb & Hc2) & H).
  exists st2. split; [|exact H]. exists ([x] ++ ys). split; [|split].
  - split; [discriminate|]. constructor; assumption.
  - eapply advances_by_trans; eauto.
  - congruence.
Qed.

Lemma slice_advances xs st st' : advances_by xs st st' -> slice st st' = xs.
Proof.
  intros [H _]. unfold slice. rewrite H, length_app.
  replace (length xs + length (rest st') - length (rest st')) with (length xs) by lia.
  rewrite firstn_app, firstn_all, Nat.sub_diag. simpl. apply app_nil_r.
Qed.

(** A pattern [pre (\d+) post] whose group 1 is the run of digits. *)
Lemma digits_captured pre post bef s st' :
  has_group 1 post = false ->
  match_at fl_none (fold_right Seq (Seq (Group 1 (Plus true D_)) post) pre) bef s
    = Some st' ->
  exists ds, digits ds /\ get_cap 1 (caps st') = Some ds.
Proof.
  intros Hg. unfold match_at. generalize {| before := bef; rest := s; caps := [] |}.
  induction pre as [|r pre IH]; intros st H; cbn [fold_right m] in H.
  - apply digits_run in H. destruct H as (st1 & (ds & Hd & Ha & Hc) & H).
    apply (@m_keeps_cap fl_none 1 post Hg) in H. destruct H as (st2 & Hk & H).
    inversion H; subst. exists ds. split; [exact Hd|].
    unfold keeps_cap in Hk. rewrite Hk. simpl.
    rewrite (slice_advances Ha). reflexivity.
  - apply m_sound in H. destruct H as (st1 & _ & H). apply IH in H. exact H.
Qed.

Lemma federal_article_digits marker bef s st' :
  match_at fl_none (federal_article_re marker) bef s = Some st' ->
  exists ds, digits ds /\ get_cap 1 (caps st') = Some ds.
Proof.
  apply (@digits_captured [Str marker; Star true S_; Opt (C_ "("); Star true S_]).
  cbn [Seqs has_group Opt Plus]. rewrite !has_group_Str. reflexivity.
Qed.

Lemma exec_go_in fl r res : forall s skip bef l,
  exec_go fl r skip bef s = Some l -> In res l ->
  exists bef' s' st', match_at fl r bef' s' = Some st' /\ res = mk_result bef' s' st'.
Proof.
  induction s as [|c s IH]; intros skip bef l H Hin.
  - destruct skip; simpl in H.
    + destruct (match_at fl r bef []); [discriminate|]. inversion H; subst. destruct Hin.
    + inversion H; subst. destruct Hin.
  - destruct skip; cbn -[Nat.sub mk_result] in H.
    + destruct (match_at fl r bef (c :: s)) as [st'|] eqn:E.
      * destruct (Nat.eqb _ 0); [discriminate|].
        destruct (exec_go fl r _ (c :: bef) s) as [l'|] eqn:E'; [|discriminate].
        simpl in H. inversion H; subst. destruct Hin as [<- | Hin].
        -- eauto.
        -- eapply IH; eauto.
      * eapply IH; eauto.
    + eapply IH; eauto.
Qed.

Lemma federal_pass_digits html acc :
  federal_pass html = Some acc ->
  Forall (fun p => exists ds, digits ds /\ provision_ref p = lit "art" ++ ds /\
                              section p = ds)
         (raw_provisions acc).
Proof.
  unfold federal_pass. intros H.
  set (marker := if isArabic html then ar_article else lit "Article").
  assert (Hre : (if isArabic html then re_article_ar else re_article_en)
                = federal_article_re marker) by (unfold marker; destruct (isArabic html); reflexivity).
  rewrite Hre in H.
  destruct (exec_all fl_none (federal_article_re marker) html) as [articles|] eqn:E;
    [|discriminate].
  cbn [bind] in H.
  refine (@foldM_invariant _ _ _
            (fun s => Forall (fun p => exists ds, digits ds /\
                                 provision_ref p = lit "art" ++ ds /\ section p = ds)
                             (raw_provisions s))
            articles _ empty_pass acc _ H); [|constructor].
  intros s x s' Hx Hs Hstep.
  apply article_step_provisions in Hstep. destruct Hstep as (chap & ttl & Hp).
  rewrite Hp. apply Forall_forall. intros p Hin.
  apply push_provision_in in Hin. destruct Hin as [Hin|(_ & Href & Hsec & _)].
  - rewrite Forall_forall in Hs. apply Hs. exact Hin.
  - destruct (@exec_go_in fl_none (federal_article_re marker) x html 0 [] articles E Hx)
      as (bef' & s0 & st' & Hm & ->).
    apply federal_article_digits in Hm. destruct Hm as (ds & Hd & Hcap).
    exists ds. unfold grp, group in Href, Hsec. cbn [mk_result m_caps] in Href, Hsec.
    rewrite Hcap in Href, Hsec. auto.
Qed.

End SuffixFacts.

(* ================================================================= *)
(** * Suffixed numbers, zone by zone *)

Section SuffixClaims.
Import SuffixFacts DedupFacts.




End SuffixClaims.

(* ================================================================= *)
(** * The normalizer: normal form of the result and text kept *)

Module TextFacts.
Import JsFacts RegexFacts SuffixFacts NormalFacts WhitespaceFacts.

Lemma over_blank_refl st : over_blank st st.
Proof. exists []. split; [constructor | split; reflexivity]. Qed.

Lemma over_blank_trans a b c : over_blank a b -> over_blank b c -> over_blank a c.
Proof.
  intros (xs & Hx & Ha) (ys & Hy & Hb). exists (xs ++ ys).
  split; [apply Forall_app; split; assumption | eapply advances_by_trans; eauto].
Qed.

Lemma over_blank_advance st x xs :
  rest st = x :: xs -> is_blank x = true -> over_blank st (advance st).
Proof.
  intros E Hx. exists [x]. split; [repeat constructor; exact Hx|].
  unfold advance, advances_by. rewrite E. split; reflexivity.
Qed.

Lemma item_blank_match fl it x :
  ignoreCase fl = false -> item_blank it = true -> item_match fl it x = true ->
  is_blank x = true.
Proof.
  intros Hi Hb Hm. unfold item_match in Hm. rewrite Hi in Hm.
  rewrite andb_false_l, orb_false_r in Hm.
  destruct it; simpl in Hb, Hm; try discriminate.
  - apply N.eqb_eq in Hm. subst. exact Hb.
  - unfold is_blank. rewrite Hm. reflexivity.
Qed.

Lemma m_only_blank fl r :
  ignoreCase fl = false -> only_blank r = true -> step_keeps over_blank (m fl r).
Proof.
  intros Hi. induction r; intros Hb st k res H; simpl in Hb; cbn [m] in H.
  - exists st. split; [apply over_blank_refl | exact H].
  - destruct (rest st) as [|x xs] eqn:E; [discriminate|].
    destruct (chr_match fl c x) eqn:Ec; [|discriminate].
    exists (advance st). split; [|exact H].
    apply (@over_blank_advance st x xs E). unfold chr_match in Ec. rewrite Hi in Ec.
    apply N.eqb_eq in Ec. subst. exact Hb.
  - destruct (rest st) as [|x xs] eqn:E; [discriminate|].
    destruct (cls_match fl neg items x) eqn:Ec; [|discriminate].
    exists (advance st). split; [|exact H].
    apply (@over_blank_advance st x xs E).
    apply andb_true_iff in Hb. destruct Hb as [Hn Hitems].
    apply negb_true_iff in Hn. subst neg. unfold cls_match in Ec. simpl in Ec.
    apply existsb_exists in Ec. destruct Ec as (it & Hin & Hit).
    rewrite forallb_forall in Hitems.
    apply (@item_blank_match fl it x Hi (Hitems it Hin) Hit).
  - discriminate.
  - apply andb_true_iff in Hb. destruct Hb as [Hb1 Hb2].
    apply (IHr1 Hb1) in H. destruct H as (st1 & H1 & H).
    apply (IHr2 Hb2) in H. destruct H as (st2 & H2 & H).
    exists st2. split; [eapply over_blank_trans; eauto | exact H].
  - apply andb_true_iff in Hb. destruct Hb as [Hb1 Hb2].
    unfold orelse in H. destruct (m fl r1 st k) eqn:E.
    + inversion H; subst. apply (IHr1 Hb1) in E. exact E.
    + apply (IHr2 Hb2) in H. exact H.
  - refine (@star_loop_keeps over_blank greedy (m fl r)
              over_blank_refl over_blank_trans (IHr Hb) _ st k res H).
  - apply (IHr Hb) in H. destruct H as (st1 & H1 & H).
    eexists. split; [|exact H]. destruct H1 as (xs & Hx & Ha).
    exists xs. split; [exact Hx | exact Ha].
  - destruct (m fl r st Some); [|discriminate].
    eexists. split; [|exact H]. exists []. split; [constructor | split; reflexivity].
  - destruct (at_bol fl st); [|discriminate].
    exists st. split; [apply over_blank_refl | exact H].
  - destruct (at_eol fl st); [|discriminate].
    exists st. split; [apply over_blank_refl | exact H].
  - destruct (at_wordb st); [|discriminate].
    exists st. split; [apply over_blank_refl | exact H].
Qed.

Lemma match_at_blank fl r bef s st' :
  ignoreCase fl = false -> only_blank r = true ->
  match_at fl r bef s = Some st' ->
  exists xs, Forall (fun c => is_blank c = true) xs /\ s = xs ++ rest st'.
Proof.
  intros Hi Hb H. unfold match_at in H.
  apply (@m_only_blank fl r Hi Hb) in H. destruct H as (st1 & (xs & Hx & Ha & _) & H).
  inversion H; subst. exists xs. split; [exact Hx | exact Ha].
Qed.

Lemma text_of_app s t : text_of (s ++ t) = text_of s ++ text_of t.
Proof. apply filter_app. Qed.

Lemma text_of_blank xs : Forall (fun c => is_blank c = true) xs -> text_of xs = [].
Proof.
  induction 1 as [|x xs Hx _ IH]; [reflexivity|].
  unfold text_of in *. simpl. rewrite Hx. exact IH.
Qed.

(** A global replacement of blank matches by a blank text keeps the text. *)
Lemma replace_go_text fl r repl :
  ignoreCase fl = false -> only_blank r = true ->
  Forall (fun c => is_blank c = true) repl ->
  forall s skip bef,
    Forall (fun c => is_blank c = true) (firstn skip s) ->
    text_of (replace_go fl r repl skip bef s) = text_of s.
Proof.
  intros Hi Hb Hrepl. induction s as [|c s IH]; intros skip bef Hskip.
  - destruct skip; simpl; [|reflexivity].
    destruct (match_at fl r bef []); [|reflexivity].
    rewrite app_nil_r. apply text_of_blank. exact Hrepl.
  - destruct skip as [|n]; cbn -[Nat.sub text_of].
    + destruct (match_at fl r bef (c :: s)) as [st'|] eqn:E.
      * rewrite text_of_app, (text_of_blank Hrepl). cbn [app].
        destruct (@match_at_blank fl r bef (c :: s) st' Hi Hb E) as (xs & Hx & Hs).
        destruct xs as [|x xs].
        -- simpl in Hs. rewrite <- Hs, Nat.sub_diag. cbn [Nat.eqb].
           change (text_of (c :: ?u)) with (text_of ([c] ++ u)).
           rewrite !text_of_app. f_equal. apply IH. constructor.
        -- cbn [app] in Hs. inversion Hs as [[Hc Hs']]. subst x.
           rewrite <- Hs'.
           assert (Hlen : S (length s) - length (rest st') = S (length xs))
             by (rewrite Hs' at 1; rewrite length_app; lia).
           rewrite Hlen. cbn [Nat.eqb].
           replace (S (length xs) - 1) with (length xs) by lia.
           pose proof (Forall_inv Hx) as Hc'. pose proof (Forall_inv_tail Hx) as Hxs.
           change (text_of (c :: ?u)) with (text_of ([c] ++ u)).
           rewrite text_of_app, (@text_of_blank [c]) by (repeat constructor; exact Hc').
           cbn [app]. apply IH. rewrite Hs'.
           rewrite firstn_app, firstn_all, Nat.sub_diag.
           cbn [firstn]. rewrite app_nil_r. exact Hxs.
      * change (text_of (c :: ?u)) with (text_of ([c] ++ u)).
        rewrite !text_of_app. f_equal. apply IH. constructor.
    + cbn [firstn] in Hskip. inversion Hskip as [|? ? Hc Hn]; subst.
      rewrite (IH n (c :: bef) Hn).
      change (text_of (c :: s)) with (text_of ([c] ++ s)).
      rewrite text_of_app, (@text_of_blank [c]) by (repeat constructor; exact Hc).
      reflexivity.
Qed.

Lemma replace_all_text fl r repl s :
  ignoreCase fl = false -> only_blank r = true ->
  Forall (fun c => is_blank c = true) repl ->
  text_of (replace_all fl r repl s) = text_of s.
Proof.
  intros Hi Hb Hrepl. unfold replace_all. apply replace_go_text; try assumption.
  constructor.
Qed.

Lemma trim_start_text s : text_of (trim_start s) = text_of s.
Proof.
  induction s as [|c s IH]; [reflexivity|]. simpl.
  destruct (is_space c) eqn:E; [|reflexivity].
  rewrite IH. unfold text_of. simpl. unfold is_blank. rewrite E. reflexivity.
Qed.

Lemma text_of_rev s : text_of (rev s) = rev (text_of s).
Proof.
  induction s as [|c s IH]; [reflexivity|]. simpl.
  rewrite text_of_app, IH. unfold text_of at 2 3. simpl.
  destruct (negb (is_blank c)); [reflexivity | apply app_nil_r].
Qed.

Lemma trim_text s : text_of (trim s) = text_of s.
Proof.
  unfold trim, trim_end.
  rewrite text_of_rev, trim_start_text, text_of_rev, rev_involutive.
  apply trim_start_text.
Qed.

Lemma collapse_whitespace_text s : text_of (collapse_whitespace s) = text_of s.
Proof.
  unfold collapse_whitespace. rewrite trim_text.
  rewrite !replace_all_text; try reflexivity; repeat constructor.
Qed.

End TextFacts.

(** The result of [stripHtml] is always in normal form: it holds no
    zero-width space and no tab, neither starts nor ends with whitespace,
    has no two spaces in a row and no line terminator next to whitespace (so
    no empty line); the [trim()] that the parsers apply to it changes
    nothing. *)
Theorem stripHtml_normal_form (html : jsstring) :
  normal (stripHtml html) /\ trim (stripHtml html) = stripHtml html.
Proof.
  assert (Hn : normal (stripHtml html)).
  { apply NormalFacts.ws_normal_spec. unfold stripHtml.
    apply WhitespaceFacts.collapse_whitespace_normal. }
  split; [exact Hn | apply NormalFacts.trim_id; exact Hn].
Qed.

(** On a text without [<] and [&], [stripHtml] drops or replaces whitespace
    and zero-width spaces only: every other character, Arabic letters and
    diacritics among them, is kept, in order. *)
Theorem stripHtml_keeps_text (html : jsstring) :
  markup_free html = true ->
  text_of (stripHtml html) = text_of html.
Proof.
  intros Hm. unfold stripHtml. rewrite (@NormalFacts.decode_entities_id html Hm).
  apply TextFacts.collapse_whitespace_text.
Qed.

Lemma stripHtml_keeps_text_witness :
  let s := ar_article ++ lit "  5 :" ++ [9%N] ++ ar_definitions1 ++ [8203%N; 10%N; 10%N] in
  text_of (stripHtml s) = text_of s /\
  text_of s = ar_article ++ lit "5:" ++ ar_definitions1.
Proof.
  intros s. split; [|vm_compute; reflexivity].
  apply stripHtml_keeps_text. vm_compute. reflexivity.
Defined.

(* ================================================================= *)
(** * The parsers: shape of the stored provisions *)

Module ShapeFacts.
Import JsFacts RegexFacts DedupFacts ParserFacts SearchFacts ValidateFacts SuffixFacts
       NormalFacts WhitespaceFacts.

Lemma over_refl (P : jsstring -> Prop) st : P [] -> over P st st.
Proof. intros H. exists []. split; [exact H | split; reflexivity]. Qed.

(** What a capture group holds at the end of a match: a text that its
    pattern has run over. *)
Lemma group_captured fl i g post (P : jsstring -> Prop) :
  step_keeps (over P) (m fl g) -> has_group i post = false ->
  forall pre st st',
    m fl (fold_right Seq (Seq (Group i g) post) pre) st Some = Some st' ->
    exists xs, P xs /\ get_cap i (caps st') = Some xs.
Proof.
  intros Hg Hp. induction pre as [|r pre IH]; intros st st' H; cbn [fold_right m] in H.
  - apply Hg in H. destruct H as (st1 & (xs & Hx & Ha) & H).
    apply (@m_keeps_cap fl i post Hp) in H. destruct H as (st2 & Hk & H).
    inversion H; subst. exists xs. split; [exact Hx|].
    unfold keeps_cap in Hk. rewrite Hk. simpl. rewrite Nat.eqb_refl.
    rewrite (@slice_advances xs st st1 Ha). reflexivity.
  - apply m_sound in H. destruct H as (st1 & _ & H). apply IH in H. exact H.
Qed.

Lemma upper_digit x : is_digit (to_upper x) = true -> is_digit x = true.
Proof.
  unfold to_upper. destruct (is_lower x) eqn:E; [|auto].
  unfold is_lower in E. apply andb_true_iff in E. destruct E as [E1 E2].
  apply N.leb_le in E1. apply N.leb_le in E2. unfold is_digit. intros H.
  apply andb_true_iff in H. destruct H as [H1 H2].
  apply N.leb_le in H1. apply N.leb_le in H2. lia.
Qed.

Lemma lower_digit x : is_digit (to_lower x) = true -> is_digit x = true.
Proof.
  unfold to_lower. destruct (is_upper x) eqn:E; [|auto].
  unfold is_upper in E. apply andb_true_iff in E. destruct E as [E1 E2].
  apply N.leb_le in E1. apply N.leb_le in E2. unfold is_digit. intros H.
  apply andb_true_iff in H. destruct H as [H1 H2].
  apply N.leb_le in H1. apply N.leb_le in H2. lia.
Qed.

Lemma class_digit fl x : cls_match fl false [CDigit] x = true -> is_digit x = true.
Proof.
  unfold cls_match, item_match. simpl. rewrite orb_false_r. intros H.
  apply orb_true_iff in H. destruct H as [H|H]; [exact H|].
  apply andb_true_iff in H. destruct H as [_ H].
  apply orb_true_iff in H. destruct H as [H|H]; [apply upper_digit | apply lower_digit];
    exact H.
Qed.

Lemma range_letter x :
  ((65 <=? x) && (x <=? 90))%N = true \/ ((97 <=? x) && (x <=? 122))%N = true ->
  is_letter x = true.
Proof.
  unfold is_letter, is_upper, is_lower. intros [H|H]; rewrite H;
    [reflexivity | apply orb_true_r].
Qed.

Lemma upper_letter x : is_letter (to_upper x) = true -> is_letter x = true.
Proof.
  unfold to_upper. destruct (is_lower x) eqn:E; [|auto].
  intros _. unfold is_letter. rewrite E. apply orb_true_r.
Qed.

Lemma lower_letter x : is_letter (to_lower x) = true -> is_letter x = true.
Proof.
  unfold to_lower. destruct (is_upper x) eqn:E; [|auto].
  intros _. unfold is_letter. rewrite E. reflexivity.
Qed.

Lemma class_letter fl x :
  cls_match fl false [CRange 65%N 90%N; CRange 97%N 122%N] x = true -> is_letter x = true.
Proof.
  unfold cls_match, item_match. cbn [xorb existsb item_basic]. rewrite orb_false_r.
  intros H.
  assert (Hb : forall y,
    ((65 <=? y) && (y <=? 90))%N || ((97 <=? y) && (y <=? 122))%N = true ->
    is_letter y = true).
  { intros y Hy. apply range_letter. apply orb_true_iff in Hy. exact Hy. }
  destruct (ignoreCase fl); cbn [andb] in H; rewrite ?orb_false_r in H.
  - destruct (((65 <=? x) && (x <=? 90))%N) eqn:E1; [apply Hb; rewrite E1; reflexivity|].
    destruct (((97 <=? x) && (x <=? 122))%N) eqn:E2;
      [apply Hb; rewrite E1, E2; reflexivity|].
    cbn [orb] in H.
    destruct (((65 <=? to_upper x) && (to_upper x <=? 90))%N) eqn:E3.
    { apply upper_letter. apply Hb. rewrite E3. reflexivity. }
    destruct (((65 <=? to_lower x) && (to_lower x <=? 90))%N) eqn:E4.
    { apply lower_letter. apply Hb. rewrite E4. reflexivity. }
    cbn [orb] in H.
    destruct (((97 <=? to_upper x) && (to_upper x <=? 122))%N) eqn:E5.
    { apply upper_letter. apply Hb. rewrite E5. apply orb_true_r. }
    cbn [orb] in H. apply lower_letter. apply Hb. rewrite H. apply orb_true_r.
  - apply Hb. exact H.
Qed.

Section Runs.
Variable fl : flags.
Variable P : char -> bool.
Variable r : regex.
Hypothesis r_step : forall st k res,
  m fl r st k = Some res ->
  exists x xs, rest st = x :: xs /\ P x = true /\ k (advance st) = Some res.

Lemma one_of_class :
  step_keeps (over (fun xs => xs <> [] /\ Forall (fun c => P c = true) xs)) (m fl r).
Proof.
  intros st k res H. apply r_step in H. destruct H as (x & xs & E & Hx & H).
  exists (advance st). split; [|exact H]. exists [x]. split.
  - split; [discriminate | repeat constructor; exact Hx].
  - unfold advance, advances_by. rewrite E. split; reflexivity.
Qed.

Lemma run_of_class g :
  step_keeps (over (fun xs => Forall (fun c => P c = true) xs)) (m fl (Star g r)).
Proof.
  intros st k res H. cbn [m] in H.
  refine (@star_loop_keeps (over (fun xs => Forall (fun c => P c = true) xs)) g (m fl r)
            _ _ _ _ st k res H).
  - intros s0. apply over_refl. constructor.
  - intros a b c (xs & Hx & Ha) (ys & Hy & Hb). exists (xs ++ ys).
    split; [apply Forall_app; split; assumption | eapply advances_by_trans; eauto].
  - intros s0 k0 r0 H0. apply one_of_class in H0.
    destruct H0 as (s1 & (xs & [_ Hx] & Ha) & H0).
    exists s1. split; [|exact H0]. exists xs. split; assumption.
Qed.

End Runs.

Lemma class_step fl neg items (P : char -> bool) :
  (forall x, cls_match fl neg items x = true -> P x = true) ->
  forall st k res,
    m fl (Cls neg items) st k = Some res ->
    exists x xs, rest st = x :: xs /\ P x = true /\ k (advance st) = Some res.
Proof.
  intros HP st k res H. cbn [m] in H.
  destruct (rest st) as [|x xs] eqn:E; [discriminate|].
  destruct (cls_match fl neg items x) eqn:Ec; [|discriminate].
  exists x, xs. split; [reflexivity|]. split; [apply HP; exact Ec | exact H].
Qed.

(** The pattern [\d+[A-Za-z]*] runs over a number, with or without the [i]
    flag. *)
Lemma number_run fl : step_keeps (over numbered) (m fl num_suffix).
Proof.
  intros st k res H. unfold num_suffix, Plus in H. cbn [m] in H.
  fold (m fl (Star true D_)) in H. fold (m fl (Star true AZ_)) in H.
  assert (Hd := @class_step fl false [CDigit] is_digit (@class_digit fl)).
  assert (Hl := @class_step fl false [CRange 65%N 90%N; CRange 97%N 122%N] is_letter
                  (@class_letter fl)).
  apply (@one_of_class fl is_digit D_ Hd) in H.
  destruct H as (st1 & (x1 & [Hne1 Hx1] & Ha1) & H).
  apply (@run_of_class fl is_digit D_ Hd true) in H.
  destruct H as (st2 & (x2 & Hx2 & Ha2) & H).
  apply (@run_of_class fl is_letter AZ_ Hl true) in H.
  destruct H as (st3 & (x3 & Hx3 & Ha3) & H).
  exists st3. split; [|exact H]. exists ((x1 ++ x2) ++ x3). split.
  - exists (x1 ++ x2), x3. split; [|split; [exact Hx3 | reflexivity]].
    split; [destruct x1; [congruence | discriminate]|].
    apply Forall_app; split; assumption.
  - eapply advances_by_trans; [eapply advances_by_trans|]; eauto.
Qed.

Lemma zone_article_number markers bef s st' :
  has_group 1 (Alts markers) = false ->
  match_at fl_i (zone_article_re markers) bef s = Some st' ->
  exists num, numbered num /\ get_cap 1 (caps st') = Some num.
Proof.
  intros Hm H. unfold match_at in H.
  refine (@group_captured fl_i 1 num_suffix _ numbered (@number_run fl_i) _
            [Alts markers; Star true S_] _ st' H).
  cbn [Seqs has_group num_suffix Plus D_ AZ_ S_ any_]. rewrite Hm. reflexivity.
Qed.

Lemma strip_art num : strip_ref_prefix (lit "art" ++ num) = num.
Proof. reflexivity. Qed.

Lemma strip_s num : numbered num -> strip_ref_prefix (lit "s" ++ num) = num.
Proof.
  intros (ds & ls & [Hne Hd] & _ & ->).
  destruct ds as [|d ds]; [congruence|]. reflexivity.
Qed.

(** The tools' article number of a stored reference is the number read by
    the parser. *)
Lemma article_number_art num : article_number (lit "art" ++ num) = num.
Proof. unfold article_number. rewrite replace_ref_prefix. apply strip_art. Qed.

Lemma article_number_s num : numbered num -> article_number (lit "s" ++ num) = num.
Proof. intros H. unfold article_number. rewrite replace_ref_prefix. apply strip_s. exact H. Qed.

Section Built.
Variables (flChap : flags) (chapterScan : regex) (flTitle : flags) (titleRe : regex)
          (flIsDef : flags) (isDefRe : regex) (flDef : flags) (defPattern : regex)
          (prefix lang : jsstring).

Let step := article_step flChap chapterScan flTitle titleRe flIsDef isDefRe
              flDef defPattern prefix lang.

Lemma normal_nil : normal [].
Proof. split; [constructor | reflexivity | reflexivity | reflexivity]. Qed.

Lemma stripHtml_normal s : normal (trim (stripHtml s)).
Proof.
  assert (Hn : normal (stripHtml s)).
  { apply ws_normal_spec. unfold stripHtml. apply collapse_whitespace_normal. }
  rewrite (trim_id Hn). exact Hn.
Qed.

Lemma article_step_built acc am acc' :
  normal (currentChapter acc) -> step acc am = Some acc' ->
  normal (currentChapter acc') /\
  forall p, In p (raw_provisions acc') ->
    In p (raw_provisions acc) \/
    (built_from prefix lang flTitle titleRe am p /\ chapter_ok (chapter p)).
Proof.
  unfold step, article_step, scan_chapter. intros Hn H.
  destruct (exec_all flChap chapterScan (m_pre am)) as [chaps|]; [|discriminate].
  cbn [bind] in H.
  destruct (extract_definitions _ _ _ _ _ _ _) as [ds|]; [|discriminate].
  cbn [bind] in H. inversion H; subst; clear H. cbn [currentChapter raw_provisions].
  set (chap := match last_opt chaps with
               | Some lastChapter => trim (stripHtml (m_text lastChapter))
               | None => currentChapter acc end).
  assert (Hc : normal chap).
  { unfold chap. destruct (last_opt chaps); [apply stripHtml_normal | exact Hn]. }
  split; [exact Hc|]. intros p Hin. unfold push_provision in Hin.
  destruct (Nat.ltb 5 _); [|left; exact Hin].
  apply in_app_or in Hin. destruct Hin as [Hin|[Hin|[]]]; [left; exact Hin|].
  right. subst p. split; [repeat split|]. cbn [chapter].
  destruct chap as [|c chap']; cbn [truthy chapter_ok]; [exact I|].
  split; [discriminate | exact Hc].
Qed.

Lemma pass_built articles acc :
  foldM step articles empty_pass = Some acc ->
  Forall (fun p => chapter_ok (chapter p) /\
                   exists am, In am articles /\ built_from prefix lang flTitle titleRe am p)
         (raw_provisions acc).
Proof.
  intros H.
  refine (proj2 (@foldM_invariant _ _ step
            (fun s => normal (currentChapter s) /\
               Forall (fun p => chapter_ok (chapter p) /\
                   exists am, In am articles /\
                              built_from prefix lang flTitle titleRe am p)
                      (raw_provisions s))
            articles _ empty_pass acc _ H)).
  - intros s x s' Hx [Hn Hs] Hstep.
    destruct (@article_step_built s x s' Hn Hstep) as [Hn' Hp].
    split; [exact Hn'|]. apply Forall_forall. intros p Hin.
    destruct (Hp p Hin) as [Hold|[Hb Hc]].
    + rewrite Forall_forall in Hs. apply Hs. exact Hold.
    + split; [exact Hc|]. exists x. split; assumption.
  - split; [apply normal_nil | constructor].
Qed.

End Built.

End ShapeFacts.

(* ================================================================= *)
(** * The parsers: numbers, references and fields of the provisions *)

Section ProvisionShape.
Import JsFacts RegexFacts DedupFacts ParserFacts SearchFacts SuffixFacts ShapeFacts.

Lemma exec_all_numbered markers html articles :
  has_group 1 (Alts markers) = false ->
  exec_all fl_i (zone_article_re markers) html = Some articles ->
  Forall (fun am => numbered (grp 1 am)) articles.
Proof.
  intros Hm He. apply Forall_forall. intros am Hin.
  destruct (@exec_go_in fl_i (zone_article_re markers) am html 0 [] articles He Hin)
    as (bef' & s0 & st' & Hmt & ->).
  destruct (@zone_article_number markers bef' s0 st' Hm Hmt) as (num & Hn & Hcap).
  unfold grp, group. cbn [mk_result m_caps]. rewrite Hcap. exact Hn.
Qed.

Lemma exec_all_digits marker html articles :
  exec_all fl_none (federal_article_re marker) html = Some articles ->
  Forall (fun am => digits (grp 1 am)) articles.
Proof.
  intros He. apply Forall_forall. intros am Hin.
  destruct (@exec_go_in fl_none (federal_article_re marker) am html 0 [] articles He Hin)
    as (bef' & s0 & st' & Hmt & ->).
  destruct (@federal_article_digits marker bef' s0 st' Hmt) as (num & Hn & Hcap).
  unfold grp, group. cbn [mk_result m_caps]. rewrite Hcap. exact Hn.
Qed.

Lemma dedup_forall (P : ParsedProvision -> Prop) raw :
  Forall P raw -> Forall P (dedup_provisions raw).
Proof.
  intros H. apply Forall_forall. intros q Hq.
  apply dedup_provisions_subset in Hq. rewrite Forall_forall in H. auto.
Qed.

(** What the DIFC parser returns, provision by provision. *)
Lemma difc_provisions html law :
  exists articles doc,
    exec_all fl_i re_article_difc html = Some articles /\
    parseDifcLawHtml html law = Some doc /\
    doc_language doc = lit "en" /\
    Forall (fun p => chapter_ok (chapter p) /\
              exists am, In am articles /\
                built_from (lit "art") (lit "en") fl_i re_title_en am p)
           (provisions doc).
Proof.
  destruct (difc_pass_ok html) as (articles & acc & He & Hp & _).
  unfold parseDifcLawHtml. rewrite Hp. cbn [bind].
  eexists articles, _. split; [exact He|]. split; [reflexivity|].
  split; [reflexivity|]. cbn [provisions]. apply dedup_forall.
  unfold difc_pass in Hp. rewrite He in Hp. cbn [bind] in Hp.
  exact (pass_built _ _ _ _ _ _ _ _ _ _ _ Hp).
Qed.

Lemma adgm_provisions html regulation :
  exists articles doc,
    exec_all fl_i re_section_adgm html = Some articles /\
    parseAdgmRegulationHtml html regulation = Some doc /\
    doc_language doc = lit "en" /\
    Forall (fun p => chapter_ok (chapter p) /\
              exists am, In am articles /\
                built_from (lit "s") (lit "en") fl_i re_title_en am p)
           (provisions doc).
Proof.
  destruct (adgm_pass_ok html) as (articles & acc & He & Hp & _).
  unfold parseAdgmRegulationHtml. rewrite Hp. cbn [bind].
  eexists articles, _. split; [exact He|]. split; [reflexivity|].
  split; [reflexivity|]. cbn [provisions]. apply dedup_forall.
  unfold adgm_pass in Hp. rewrite He in Hp. cbn [bind] in Hp.
  exact (pass_built _ _ _ _ _ _ _ _ _ _ _ Hp).
Qed.

Lemma federal_provisions html law :
  exists articles doc,
    exec_all fl_none
      (federal_article_re (if isArabic html then ar_article else lit "Article")) html
      = Some articles /\
    parseFederalLawHtml html law = Some doc /\
    doc_language doc = federal_language html /\
    Forall (fun p => chapter_ok (chapter p) /\
              exists am, In am articles /\
                built_from (lit "art") (federal_language html)
                  (if isArabic html then fl_none else fl_i)
                  (if isArabic html then re_title_ar else re_title_en) am p)
           (provisions doc).
Proof.
  destruct (federal_pass_ok html) as (articles & acc & He & Hp & _).
  unfold parseFederalLawHtml. rewrite Hp. cbn [bind].
  assert (Hre : (if isArabic html then re_article_ar else re_article_en)
                = federal_article_re (if isArabic html then ar_article else lit "Article"))
    by (destruct (isArabic html); reflexivity).
  rewrite Hre in He.
  eexists articles, _. split; [exact He|]. split; [reflexivity|].
  split; [reflexivity|]. cbn [provisions]. apply dedup_forall.
  unfold federal_pass in Hp. rewrite Hre, He in Hp. cbn [bind] in Hp.
  exact (pass_built _ _ _ _ _ _ _ _ _ _ _ Hp).
Qed.

(** Every provision that the DIFC parser returns has as [section] a
    number, that is decimal digits followed by ASCII letters, and as
    [provision_ref] the text [art] followed by that number; for the ADGM
    parser the same holds with [s] for [art]. *)
Theorem zone_provision_numbers (html : jsstring) :
  (forall law, exists doc,
     parseDifcLawHtml html law = Some doc /\
     Forall (fun p => numbered (section p) /\
                      provision_ref p = lit "art" ++ section p) (provisions doc)) /\
  (forall regulation, exists doc,
     parseAdgmRegulationHtml html regulation = Some doc /\
     Forall (fun p => numbered (section p) /\
                      provision_ref p = lit "s" ++ section p) (provisions doc)).
Proof.
  split.
  - intros law. destruct (difc_provisions html law) as (articles & doc & He & Hd & _ & Hp).
    exists doc. split; [exact Hd|].
    pose proof (@exec_all_numbered [L_ "Article"; L_ "Section"] html articles eq_refl He)
      as Hnum.
    rewrite Forall_forall in Hnum. eapply Forall_impl; [|exact Hp].
    intros p (_ & am & Hin & Href & Hsec & _). rewrite Hsec. split; [|exact Href].
    apply Hnum. exact Hin.
  - intros reg. destruct (adgm_provisions html reg) as (articles & doc & He & Hd & _ & Hp).
    exists doc. split; [exact Hd|].
    pose proof (@exec_all_numbered [L_ "Section"; L_ "Rule"; L_ "Regulation"]
                  html articles eq_refl He) as Hnum.
    rewrite Forall_forall in Hnum. eapply Forall_impl; [|exact Hp].
    intros p (_ & am & Hin & Href & Hsec & _). rewrite Hsec. split; [|exact Href].
    apply Hnum. exact Hin.
Qed.

(** The article number that get_provision and validate_citation derive
    from a stored reference, by removing a leading [art] or [s], is the
    number that the parser has read: for every provision returned by any of
    the three parsers it equals the [section] of the provision. *)
Theorem article_number_of_parsed (html : jsstring) :
  (forall law, exists doc,
     parseFederalLawHtml html law = Some doc /\
     Forall (fun p => article_number (provision_ref p) = section p) (provisions doc)) /\
  (forall law, exists doc,
     parseDifcLawHtml html law = Some doc /\
     Forall (fun p => article_number (provision_ref p) = section p) (provisions doc)) /\
  (forall regulation, exists doc,
     parseAdgmRegulationHtml html regulation = Some doc /\
     Forall (fun p => article_number (provision_ref p) = section p) (provisions doc)).
Proof.
  split; [|split].
  - intros law. destruct (federal_provisions html law) as (articles & doc & _ & Hd & _ & Hp).
    exists doc. split; [exact Hd|]. eapply Forall_impl; [|exact Hp].
    intros p (_ & am & _ & Href & Hsec & _). rewrite Href, Hsec.
    apply article_number_art.
  - intros law. destruct (difc_provisions html law) as (articles & doc & _ & Hd & _ & Hp).
    exists doc. split; [exact Hd|]. eapply Forall_impl; [|exact Hp].
    intros p (_ & am & _ & Href & Hsec & _). rewrite Href, Hsec.
    apply article_number_art.
  - intros reg. destruct (adgm_provisions html reg) as (articles & doc & He & Hd & _ & Hp).
    exists doc. split; [exact Hd|].
    pose proof (@exec_all_numbered [L_ "Section"; L_ "Rule"; L_ "Regulation"]
                  html articles eq_refl He) as Hnum.
    rewrite Forall_forall in Hnum. eapply Forall_impl; [|exact Hp].
    intros p (_ & am & Hin & Href & Hsec & _). rewrite Href, Hsec.
    apply article_number_s. apply Hnum. exact Hin.
Qed.

Lemma extract_title_normal fl titleRe raw : normal (extract_title fl titleRe raw).
Proof.
  unfold extract_title. destruct (str_match fl titleRe raw);
    [apply stripHtml_normal | apply normal_nil].
Qed.

(** Every provision returned by a parser carries the language of its
    document; its chapter is absent or a non-empty heading in normal form,
    never the empty string; its title is in normal form. *)
Theorem provision_fields (html : jsstring) :
  let ok := fun (doc : ParsedDocument) (p : ParsedProvision) =>
    language p = doc_language doc /\ chapter_ok (chapter p) /\ normal (title p) in
  (forall law, exists doc,
     parseFederalLawHtml html law = Some doc /\ Forall (ok doc) (provisions doc)) /\
  (forall law, exists doc,
     parseDifcLawHtml html law = Some doc /\ Forall (ok doc) (provisions doc)) /\
  (forall regulation, exists doc,
     parseAdgmRegulationHtml html regulation = Some doc /\
     Forall (ok doc) (provisions doc)).
Proof.
  intros ok. split; [|split].
  - intros law. destruct (federal_provisions html law) as (articles & doc & _ & Hd & Hl & Hp).
    exists doc. split; [exact Hd|]. eapply Forall_impl; [|exact Hp].
    intros p (Hc & am & _ & _ & _ & Hlang & Ht & _). unfold ok. rewrite Hl, Ht.
    split; [exact Hlang|]. split; [exact Hc | apply extract_title_normal].
  - intros law. destruct (difc_provisions html law) as (articles & doc & _ & Hd & Hl & Hp).
    exists doc. split; [exact Hd|]. eapply Forall_impl; [|exact Hp].
    intros p (Hc & am & _ & _ & _ & Hlang & Ht & _). unfold ok. rewrite Hl, Ht.
    split; [exact Hlang|]. split; [exact Hc | apply extract_title_normal].
  - intros reg. destruct (adgm_provisions html reg) as (articles & doc & _ & Hd & Hl & Hp).
    exists doc. split; [exact Hd|]. eapply Forall_impl; [|exact Hp].
    intros p (Hc & am & _ & _ & _ & Hlang & Ht & _). unfold ok. rewrite Hl, Ht.
    split; [exact Hlang|]. split; [exact Hc | apply extract_title_normal].
Qed.

End ProvisionShape.

(* ================================================================= *)
(** * The parsers on a text without article marker *)

Module MarkerFacts.
Import JsFacts RegexFacts DedupFacts ParserFacts SearchFacts FormatFacts SuffixFacts.

(** No match anywhere: the loop over [exec] has no iteration. *)
Lemma exec_go_none fl r : forall s skip bef,
  (forall bef' pre post, s = pre ++ post -> match_at fl r bef' post = None) ->
  exec_go fl r skip bef s = Some [].
Proof.
  induction s as [|c s IH]; intros skip bef H.
  - destruct skip; simpl; [|reflexivity]. rewrite (H bef [] [] eq_refl). reflexivity.
  - assert (Hs : forall bef' pre post, s = pre ++ post -> match_at fl r bef' post = None).
    { intros bef' pre post E. apply (H bef' (c :: pre) post). rewrite E. reflexivity. }
    destruct skip; cbn -[Nat.sub mk_result].
    + rewrite (H bef [] (c :: s) eq_refl). apply IH. exact Hs.
    + apply IH. exact Hs.
Qed.

Lemma words_none fl words : forall st k,
  words <> [] ->
  (forall w, In w words -> strip_prefix fl w (rest st) = None) ->
  m fl (Alts (map Str words)) st k = None.
Proof.
  induction words as [|w words IH]; intros st k Hne H; [congruence|].
  destruct words as [|w' words].
  - cbn [map Alts]. rewrite m_Str, (H w (or_introl eq_refl)). reflexivity.
  - change (Alts (map Str (w :: w' :: words)))
      with (Alt (Str w) (Alts (map Str (w' :: words)))).
    cbn [m]. rewrite m_Str, (H w (or_introl eq_refl)). cbn [orelse].
    apply IH; [discriminate|]. intros x Hx. apply H. right. exact Hx.
Qed.

Lemma zone_no_marker words html :
  words <> [] ->
  (forall w, In w words -> ~ occurs_ci w html) ->
  exec_all fl_i (zone_article_re (map Str words)) html = Some [].
Proof.
  intros Hne H. unfold exec_all. apply exec_go_none.
  intros bef' pre post E. unfold match_at.
  rewrite zone_article_re_shape. cbn [m]. apply words_none; [exact Hne|].
  cbn [rest]. intros w Hw.
  destruct (strip_prefix fl_i w post) as [post'|] eqn:Es; [|reflexivity].
  exfalso. apply (H w Hw). apply strip_prefix_ci in Es.
  destruct Es as (u & Hu & Hup). exists pre, u, post'. split; [congruence | exact Hup].
Qed.

Lemma federal_no_marker marker html :
  ~ contains marker html ->
  exec_all fl_none (federal_article_re marker) html = Some [].
Proof.
  intros H. unfold exec_all. apply exec_go_none.
  intros bef' pre post E. unfold match_at, federal_article_re. cbn [Seqs m].
  rewrite m_Str. cbn [rest].
  destruct (strip_prefix fl_none marker post) as [post'|] eqn:Es; [|reflexivity].
  exfalso. apply H. apply strip_prefix_exact in Es. exists pre, post'. congruence.
Qed.

(** Testing a literal under the [i] flag is the substring test up to the
    case of the letters. *)
Lemma test_literal_ci w s : test fl_i (Str w) s = true <-> occurs_ci w s.
Proof.
  rewrite test_true. unfold occurs_ci, match_at. split.
  - intros (pre & post & Hs & Hm). rewrite m_Str in Hm. simpl in Hm.
    destruct (strip_prefix fl_i w post) as [post'|] eqn:E; [|congruence].
    apply strip_prefix_ci in E. destruct E as (u & Hu & Hup).
    exists pre, u, post'. split; [congruence | exact Hup].
  - intros (pre & u & post' & Hs & Hup). exists pre, (u ++ post'). split; [exact Hs|].
    rewrite m_Str. simpl.
    assert (E : strip_prefix fl_i w (u ++ post') = Some post').
    { apply strip_prefix_ci. exists u. split; [reflexivity | exact Hup]. }
    rewrite E. discriminate.
Qed.

End MarkerFacts.

(** A text without article marker gives a document without provisions and
    without definitions: for the federal parser a text that holds neither
    the Arabic word for article nor [Article] (in this very case), for the
    DIFC parser a text without [article] and [section] in any case, for the
    ADGM parser a text without [section], [rule] and [regulation] in any
    case. *)
Theorem no_marker_no_provisions (html : jsstring) :
  (~ contains ar_article html -> ~ contains (lit "Article") html ->
   forall law, exists doc,
     parseFederalLawHtml html law = Some doc /\
     provisions doc = [] /\ definitions doc = []) /\
  (~ occurs_ci (lit "Article") html -> ~ occurs_ci (lit "Section") html ->
   forall law, exists doc,
     parseDifcLawHtml html law = Some doc /\
     provisions doc = [] /\ definitions doc = []) /\
  (~ occurs_ci (lit "Section") html -> ~ occurs_ci (lit "Rule") html ->
   ~ occurs_ci (lit "Regulation") html ->
   forall regulation, exists doc,
     parseAdgmRegulationHtml html regulation = Some doc /\
     provisions doc = [] /\ definitions doc = []).
Proof.
  split; [|split].
  - intros Har Hen law. unfold parseFederalLawHtml, federal_pass.
    assert (Ea : isArabic html = false).
    { destruct (isArabic html) eqn:E; [|reflexivity].
      exfalso. apply Har. apply SearchFacts.test_literal. exact E. }
    rewrite Ea. unfold re_article_en.
    rewrite (@MarkerFacts.federal_no_marker (lit "Article") html Hen).
    cbn [bind foldM]. eexists. split; [reflexivity|]. split; reflexivity.
  - intros Ha Hs law. unfold parseDifcLawHtml, difc_pass, re_article_difc.
    change [L_ "Article"; L_ "Section"] with (map Str [lit "Article"; lit "Section"]).
    rewrite (@MarkerFacts.zone_no_marker [lit "Article"; lit "Section"] html).
    + cbn [bind foldM]. eexists. split; [reflexivity|]. split; reflexivity.
    + discriminate.
    + intros w [<-|[<-|[]]]; assumption.
  - intros Hs Hr Hg reg. unfold parseAdgmRegulationHtml, adgm_pass, re_section_adgm.
    change [L_ "Section"; L_ "Rule"; L_ "Regulation"]
      with (map Str [lit "Section"; lit "Rule"; lit "Regulation"]).
    rewrite (@MarkerFacts.zone_no_marker
               [lit "Section"; lit "Rule"; lit "Regulation"] html).
    + cbn [bind foldM]. eexists. split; [reflexivity|]. split; reflexivity.
    + discriminate.
    + intros w [<-|[<-|[<-|[]]]]; assumption.
Qed.

Lemma no_marker_no_provisions_witness :
  let html := lit "<p>Issued in Abu Dhabi. ARTICLES follow.</p>" in
  (exists doc, parseFederalLawHtml html law_pdpl = Some doc /\
               provisions doc = [] /\ definitions doc = []) /\
  (exists doc, parseAdgmRegulationHtml html reg_adgm_dpr = Some doc /\
               provisions doc = [] /\ definitions doc = []) /\
  (exists doc, parseDifcLawHtml [] law_difc_dpl = Some doc /\
               provisions doc = [] /\ definitions doc = []).
Proof.
  intros html.
  assert (Hc : forall w s, test fl_none (Str w) s = false -> ~ contains w s).
  { intros w s E Hw. apply SearchFacts.test_literal in Hw. congruence. }
  assert (Hi : forall w s, test fl_i (Str w) s = false -> ~ occurs_ci w s).
  { intros w s E Hw. apply MarkerFacts.test_literal_ci in Hw. congruence. }
  split; [|split].
  - apply (proj1 (no_marker_no_provisions html)); apply Hc; vm_compute; reflexivity.
  - apply (proj2 (proj2 (no_marker_no_provisions html))); apply Hi; vm_compute; reflexivity.
  - apply (proj1 (proj2 (no_marker_no_provisions []))); apply Hi; vm_compute; reflexivity.
Defined.

(* ================================================================= *)
(** * The parsers: the definitions *)

Module KeyedFacts.
Import JsFacts JsMapFacts.

Section Keyed.
Variable V : Type.
Variable key : V -> jsstring.
Variable size : V -> nat.

Abbreviation fl_ := (first_largest key size).
Abbreviation inv_ := (keep_inv key size).
Abbreviation step_ := (keep_step key size).

Lemma first_largest_in q l : fl_ q l -> In q l.
Proof. intros (l1 & l2 & H & _). subst l. apply in_elt. Qed.

Lemma first_largest_max q l p :
  fl_ q l -> In p l -> key p = key q -> size p <= size q.
Proof.
  intros (l1 & l2 & H & Hl1 & Hl2) Hin Hk. subst l.
  apply in_app_or in Hin. destruct Hin as [Hin|[Hin|Hin]].
  - apply Nat.lt_le_incl. apply Hl1; assumption.
  - subst p. apply le_n.
  - apply Hl2; assumption.
Qed.

Lemma first_largest_later q l p :
  fl_ q l -> (key p = key q -> size p <= size q) -> fl_ q (l ++ [p]).
Proof.
  intros (l1 & l2 & H & Hl1 & Hl2) Hp. subst l.
  exists l1, (l2 ++ [p]). split; [rewrite <- app_assoc; reflexivity|].
  split; [exact Hl1|]. intros x Hx Hk. apply in_app_or in Hx.
  destruct Hx as [Hx|[Hx|[]]]; [apply Hl2; assumption | subst x; apply Hp; exact Hk].
Qed.

Lemma first_largest_last l p :
  (forall x, In x l -> key x = key p -> size x < size p) -> fl_ p (l ++ [p]).
Proof.
  intros H. exists l, []. split; [reflexivity|]. split; [exact H | intros x []].
Qed.

Lemma keep_inv_nil : inv_ [] [].
Proof.
  split; [constructor|]. split; [intros k v H; discriminate | intros p []].
Qed.

(** The entries other than the one under the key of [p] after a [set]. *)
Lemma keep_set_others l mp p :
  inv_ l mp ->
  (forall x, In x l -> key x = key p -> size x < size p) ->
  inv_ (l ++ [p]) (JsMap.set (key p) p mp).
Proof.
  intros (Hnd & Hget & Hall) Hnew. split; [apply nodup_keys_set; exact Hnd|]. split.
  - intros k v Hkv. destruct (list_eq_dec N.eq_dec (key p) k) as [Heq|Hne].
    + subst k. rewrite get_set_eq in Hkv. inversion Hkv; subst v.
      split; [reflexivity | apply first_largest_last; exact Hnew].
    + rewrite get_set_neq in Hkv by exact Hne.
      destruct (Hget _ _ Hkv) as [Hk Hfl]. split; [exact Hk|].
      apply first_largest_later; [exact Hfl|]. intros E. congruence.
  - intros x Hx. destruct (list_eq_dec N.eq_dec (key p) (key x)) as [Heq|Hne].
    + rewrite <- Heq, get_set_eq. discriminate.
    + rewrite get_set_neq by exact Hne. apply in_app_or in Hx.
      destruct Hx as [Hx|[Hx|[]]]; [apply Hall; exact Hx | congruence].
Qed.

Lemma keep_step_inv l mp p : inv_ l mp -> inv_ (l ++ [p]) (step_ mp p).
Proof.
  intros Hinv. pose proof Hinv as (Hnd & Hget & Hall). unfold keep_step.
  destruct (JsMap.get (key p) mp) as [existing|] eqn:E.
  - destruct (Hget _ _ E) as [Hk Hfl]. destruct (Nat.ltb _ _) eqn:Elt.
    + apply Nat.ltb_lt in Elt. apply keep_set_others; [exact Hinv|].
      intros x Hx Hkx. eapply Nat.le_lt_trans; [|exact Elt].
      eapply first_largest_max; eauto. congruence.
    + apply Nat.ltb_ge in Elt. split; [exact Hnd|]. split.
      * intros k v Hkv. destruct (Hget _ _ Hkv) as [Hk' Hfl']. split; [exact Hk'|].
        apply first_largest_later; [exact Hfl'|]. intros Hkp.
        assert (v = existing) by congruence. subst v. exact Elt.
      * intros x Hx. apply in_app_or in Hx.
        destruct Hx as [Hx|[Hx|[]]]; [apply Hall; exact Hx | subst x; congruence].
  - apply keep_set_others; [exact Hinv|].
    intros x Hx Hkx. exfalso. apply (Hall x Hx). congruence.
Qed.

Lemma keep_fold_inv ps : forall l mp,
  inv_ l mp -> inv_ (l ++ ps) (fold_left step_ ps mp).
Proof.
  induction ps as [|p ps IH]; intros l mp H; simpl.
  - rewrite app_nil_r. exact H.
  - replace (l ++ p :: ps) with ((l ++ [p]) ++ ps) by (rewrite <- app_assoc; reflexivity).
    apply IH. apply keep_step_inv. exact H.
Qed.

Lemma keep_fold_spec ps :
  deduplicated_by key size ps (JsMap.values (fold_left step_ ps [])).
Proof.
  pose proof (@keep_fold_inv ps [] [] keep_inv_nil) as Hinv. simpl in Hinv.
  set (mp := fold_left step_ ps []) in *.
  pose proof Hinv as (Hnd & Hget & Hall). split; [|split].
  - replace (map key (JsMap.values mp)) with (JsMap.keys mp); [exact Hnd|].
    unfold JsMap.values, JsMap.keys. rewrite map_map. apply map_ext_in.
    intros [k v] Hin. simpl. apply in_get in Hin; [|exact Hnd].
    apply Hget in Hin. symmetry. tauto.
  - intros q Hq. apply in_values_get in Hq; [|exact Hnd].
    destruct Hq as [k Hk]. apply Hget in Hk. tauto.
  - intros p Hp. specialize (Hall p Hp).
    destruct (JsMap.get (key p) mp) as [q|] eqn:E; [|congruence].
    exists q. destruct (Hget _ _ E) as [Hk Hfl]. split; [|split].
    + eapply get_in_values; eauto.
    + exact Hk.
    + eapply first_largest_max; eauto.
Qed.

End Keyed.

End KeyedFacts.

Module DefinitionFacts.
Import JsFacts RegexFacts DedupFacts ParserFacts SearchFacts SuffixFacts ShapeFacts
       NormalFacts KeyedFacts.

Lemma dedup_definitions_spec ds :
  deduplicated_by term definition_size ds (dedup_definitions ds).
Proof. apply (@keep_fold_spec ParsedDefinition term definition_size ds). Qed.

Lemma dedup_definitions_subset ds q : In q (dedup_definitions ds) -> In q ds.
Proof.
  intros H. destruct (dedup_definitions_spec ds) as (_ & Hq & _).
  eapply first_largest_in. apply Hq. exact H.
Qed.

Lemma def_of_match_ok prefix num dm d :
  numbered num -> In d (def_of_match prefix num dm) -> definition_ok prefix d.
Proof.
  intros Hnum. unfold def_of_match.
  destruct (truthy (trim (stripHtml (grp 1 dm))) && _) eqn:E; [|intros []].
  apply andb_true_iff in E. destruct E as [Et El]. apply Nat.ltb_lt in El.
  intros [<-|[]]. unfold definition_ok. cbn [term definition source_provision].
  split; [destruct (trim (stripHtml (grp 1 dm))); [discriminate | discriminate]|].
  split; [apply stripHtml_normal|].
  split; [unfold substring0, max_definition; rewrite length_firstn; apply Nat.le_min_l|].
  split.
  - exists (trim (stripHtml (grp 2 dm))). split; [apply stripHtml_normal|].
    split; [exact El | reflexivity].
  - exists num. split; [exact Hnum | reflexivity].
Qed.

Section Step.
Variables (flChap : flags) (chapterScan : regex) (flTitle : flags) (titleRe : regex)
          (flIsDef : flags) (isDefRe : regex) (flDef : flags) (defPattern : regex)
          (prefix lang : jsstring).

Let step := article_step flChap chapterScan flTitle titleRe flIsDef isDefRe
              flDef defPattern prefix lang.

Lemma article_step_definitions acc am acc' d :
  numbered (grp 1 am) -> step acc am = Some acc' -> In d (raw_definitions acc') ->
  In d (raw_definitions acc) \/ definition_ok prefix d.
Proof.
  unfold step, article_step, extract_definitions. intros Hnum H Hin.
  destruct (scan_chapter _ _ _ _) as [chap|]; [|discriminate]. cbn [bind] in H.
  destruct (test flIsDef isDefRe (grp 2 am)).
  - destruct (exec_all flDef defPattern (grp 2 am)) as [defs|]; [|discriminate].
    cbn [bind] in H. inversion H; subst; clear H. cbn [raw_definitions] in Hin.
    apply in_app_or in Hin. destruct Hin as [Hin|Hin]; [left; exact Hin|].
    right. apply in_flat_map in Hin. destruct Hin as (dm & _ & Hd).
    exact (@def_of_match_ok prefix (grp 1 am) dm d Hnum Hd).
  - cbn [bind] in H. inversion H; subst; clear H. left. exact Hin.
Qed.

Lemma pass_definitions articles acc :
  Forall (fun am => numbered (grp 1 am)) articles ->
  foldM step articles empty_pass = Some acc ->
  Forall (definition_ok prefix) (raw_definitions acc).
Proof.
  intros Hnum H.
  refine (@foldM_invariant _ _ step
            (fun s => Forall (definition_ok prefix) (raw_definitions s))
            articles _ empty_pass acc _ H); [|constructor].
  intros s x s' Hx Hs Hstep. apply Forall_forall. intros d Hd.
  rewrite Forall_forall in Hnum.
  destruct (@article_step_definitions s x s' d (Hnum x Hx) Hstep Hd) as [Hold|Hok];
    [|exact Hok].
  rewrite Forall_forall in Hs. apply Hs. exact Hold.
Qed.

End Step.

Lemma digits_numbered ds : digits ds -> numbered ds.
Proof.
  intros H. exists ds, []. split; [exact H|]. split; [constructor|].
  symmetry. apply app_nil_r.
Qed.

End DefinitionFacts.

Section DefinitionClaims.
Import JsFacts RegexFacts DedupFacts ParserFacts SuffixFacts ShapeFacts DefinitionFacts.

Lemma dedup_definitions_forall (P : ParsedDefinition -> Prop) raw :
  Forall P raw -> Forall P (dedup_definitions raw).
Proof.
  intros H. apply Forall_forall. intros q Hq.
  apply dedup_definitions_subset in Hq. rewrite Forall_forall in H. auto.
Qed.

(** The definitions of a parsed document are those of the extraction pass
    deduplicated by term: no two share a term, each is the first among the
    longest of the pass with its term, and every definition of the pass has
    an entry with its term that is at least as long.  Each one has a
    non-empty term in normal form, a text of at most 4000 characters that is
    the term in curly quotes, a space and a normalized body longer than 3,
    cut at 4000, and as source the prefix of the zone followed by a
    number. *)
Theorem definitions_deduplicated (html : jsstring) :
  (forall law, exists p doc,
     federal_pass html = Some p /\ parseFederalLawHtml html law = Some doc /\
     deduplicated_by term definition_size (raw_definitions p) (definitions doc) /\
     Forall (definition_ok (lit "art")) (definitions doc)) /\
  (forall law, exists p doc,
     difc_pass html = Some p /\ parseDifcLawHtml html law = Some doc /\
     deduplicated_by term definition_size (raw_definitions p) (definitions doc) /\
     Forall (definition_ok (lit "art")) (definitions doc)) /\
  (forall regulation, exists p doc,
     adgm_pass html = Some p /\ parseAdgmRegulationHtml html regulation = Some doc /\
     deduplicated_by term definition_size (raw_definitions p) (definitions doc) /\
     Forall (definition_ok (lit "s")) (definitions doc)).
Proof.
  split; [|split].
  - intros law. destruct (federal_pass_ok html) as (articles & p & He & Hp & _).
    unfold parseFederalLawHtml. rewrite Hp. cbn [bind].
    eexists p, _. split; [reflexivity|]. split; [reflexivity|]. cbn [definitions].
    split; [apply dedup_definitions_spec|]. apply dedup_definitions_forall.
    assert (Hre : (if isArabic html then re_article_ar else re_article_en)
              = federal_article_re (if isArabic html then ar_article else lit "Article"))
      by (destruct (isArabic html); reflexivity).
    unfold federal_pass in Hp. rewrite Hre in He, Hp. rewrite He in Hp. cbn [bind] in Hp.
    refine (pass_definitions _ _ _ _ _ _ _ _ _ _ _ Hp).
    eapply Forall_impl; [|apply (exec_all_digits _ _ He)].
    intros am. apply digits_numbered.
  - intros law. destruct (difc_pass_ok html) as (articles & p & He & Hp & _).
    unfold parseDifcLawHtml. rewrite Hp. cbn [bind].
    eexists p, _. split; [reflexivity|]. split; [reflexivity|]. cbn [definitions].
    split; [apply dedup_definitions_spec|]. apply dedup_definitions_forall.
    unfold difc_pass in Hp. rewrite He in Hp. cbn [bind] in Hp.
    refine (pass_definitions _ _ _ _ _ _ _ _ _ _ _ Hp).
    apply (@exec_all_numbered [L_ "Article"; L_ "Section"] html articles eq_refl He).
  - intros reg. destruct (adgm_pass_ok html) as (articles & p & He & Hp & _).
    unfold parseAdgmRegulationHtml. rewrite Hp. cbn [bind].
    eexists p, _. split; [reflexivity|]. split; [reflexivity|]. cbn [definitions].
    split; [apply dedup_definitions_spec|]. apply dedup_definitions_forall.
    unfold adgm_pass in Hp. rewrite He in Hp. cbn [bind] in Hp.
    refine (pass_definitions _ _ _ _ _ _ _ _ _ _ _ Hp).
    apply (@exec_all_numbered [L_ "Section"; L_ "Rule"; L_ "Regulation"]
             html articles eq_refl He).
Qed.

End DefinitionClaims.

(* ================================================================= *)
(** * The resolver and validate_citation: what a positive answer means *)

Section ResolverSound.
Import JsFacts ResolverFacts.
Variable sql_lower : jsstring -> jsstring.
Variable sql_like : jsstring -> jsstring -> bool.

(** [resolveDocumentId] never invents an identifier: what it returns is the
    identifier of a row of [legal_documents].  When the identifiers of the
    store are non-empty and trimmed, a resolved identifier resolves to
    itself, so that resolving twice is resolving once. *)
Theorem resolve_sound (db : database) (input docId : jsstring) :
  resolveDocumentId sql_lower sql_like db input = Some docId ->
  (exists row, In row (legal_documents db) /\ row_id row = docId) /\
  (ids_trimmed db -> resolveDocumentId sql_lower sql_like db docId = Some docId).
Proof.
  intros H. pose proof (@resolve_in_store sql_lower sql_like db input docId H)
    as (row & Hin & Hid).
  split; [exists row; split; assumption|].
  intros Hids. destruct (Hids row Hin) as [Hne Ht]. rewrite Hid in Hne, Ht.
  rewrite <- Ht at 2.
  apply (@resolve_exact sql_lower sql_like db docId row Hin); congruence.
Qed.


End ResolverSound.

Lemma resolve_sound_witness :
  (exists row, In row (legal_documents fixture_db) /\ row_id row = lit "fdl-45-2021") /\
  resolveDocumentId Sqlite.lower Sqlite.like fixture_db (lit "fdl-45-2021")
    = Some (lit "fdl-45-2021").
Proof.
  destruct (@resolve_sound Sqlite.lower Sqlite.like fixture_db (lit " pdpl ")
              (lit "fdl-45-2021")) as [H1 H2].
  - vm_compute. reflexivity.
  - split; [exact H1|]. apply H2. intros row [<-|[<-|[]]]; split;
      solve [vm_compute; discriminate | vm_compute; reflexivity].
Defined.


(* ================================================================= *)
(** * The citation parser: shape of a parse *)

Module CitationFacts.
Import JsFacts RegexFacts SearchFacts SuffixFacts ShapeFacts NormalFacts WhitespaceFacts.

Lemma trim_fixed t :
  head_not_space t = true -> head_not_space (rev t) = true -> trim t = t.
Proof.
  intros H1 H2. unfold trim, trim_end.
  rewrite (trim_start_id _ H1), (trim_start_id _ H2). apply rev_involutive.
Qed.

Lemma trim_trim s : trim (trim s) = trim s.
Proof. destruct (trim_ends s) as [H1 H2]. apply trim_fixed; assumption. Qed.

(** The text of group [i] of a match of a pattern that holds the group
    once, outside every quantifier. *)
Lemma str_match_group fl i g post (P : jsstring -> Prop) pre s res :
  step_keeps (over P) (m fl g) -> has_group i post = false ->
  str_match fl (fold_right Seq (Seq (Group i g) post) pre) s = Some res ->
  P (grp i res).
Proof.
  intros Hg Hp H. unfold str_match in H. apply search_some in H.
  destruct H as (s1 & s2 & st' & _ & Hm & ->). unfold match_at in Hm.
  destruct (@group_captured fl i g post P Hg Hp pre _ st' Hm) as (xs & Hx & Hcap).
  unfold grp, group. cbn [mk_result m_caps]. rewrite Hcap. exact Hx.
Qed.

Lemma prefix_re_number fl word s res :
  str_match fl (prefix_re word) s = Some res -> numbered (grp 1 res).
Proof.
  apply (@str_match_group fl 1 num_suffix
           (Seqs [Star true S_; Opt comma_semi; Plus true S_; Group 2 (Plus true Dot); Eol])
           numbered [Bol; word; Star true S_]);
    [apply number_run | reflexivity].
Qed.

Lemma suffix_re_number fl word s res :
  str_match fl (suffix_re word) s = Some res -> numbered (grp 2 res).
Proof.
  apply (@str_match_group fl 2 num_suffix Eol numbered
           [Bol; Group 1 (Plus false Dot); comma_semi; Star true S_; word; Star true S_]);
    [apply number_run | reflexivity].
Qed.

Lemma arabic_number s res :
  str_match fl_none re_cite_arabic s = Some res -> numbered (grp 1 res).
Proof.
  apply (@str_match_group fl_none 1 num_suffix
           (Seqs [Plus true S_; Opt (Seq (Str ar_min) (Plus true S_));
                  Group 2 (Plus true Dot); Eol])
           numbered [Bol; Str ar_article; Plus true S_]);
    [apply number_run | reflexivity].
Qed.

Lemma idBased_number s res :
  str_match fl_i re_idBased s = Some res -> numbered (grp 2 res).
Proof.
  apply (@str_match_group fl_i 2 num_suffix Eol numbered
           [Bol;
            Group 1 (Seqs [Plus true (Cls false [CRange 97%N 122%N]); C_ "-";
                           Plus true (Cls false [CDigit; CChar (ch "-")])]);
            Star true S_; comma_semi; Star true S_;
            Alt (Seq (L_ "art") (Opt (C_ "."))) (Seq (C_ "s") (Opt (C_ ".")));
            Star true S_]);
    [apply number_run | reflexivity].
Qed.

End CitationFacts.

(** Every parse of [parseCitation] has a document reference without
    whitespace at either end, and an article reference, when there is one,
    that is a number: decimal digits, at least one, followed by ASCII
    letters.  So the article reference is never the empty string, and a
    citation whose article part is not such a number is read as a bare
    document reference or through another pattern. *)
Theorem parseCitation_shape (citation : jsstring) :
  exists p, parseCitation citation = Some p /\
    trim (documentRef p) = documentRef p /\
    (forall a, articleRef p = Some a -> numbered a).
Proof.
  unfold parseCitation, cite.
  destruct (str_match fl_none re_cite_arabic (trim citation)) as [r1|] eqn:E1.
  { eexists. split; [reflexivity|]. cbn. split; [apply CitationFacts.trim_trim|].
    intros a Ha. inversion Ha; subst. eapply CitationFacts.arabic_number. exact E1. }
  destruct (str_match fl_i re_artFirst (trim citation)) as [r2|] eqn:E2.
  { eexists. split; [reflexivity|]. cbn. split; [apply CitationFacts.trim_trim|].
    intros a Ha. inversion Ha; subst. eapply CitationFacts.prefix_re_number. exact E2. }
  destruct (str_match fl_i re_secFirst (trim citation)) as [r3|] eqn:E3.
  { eexists. split; [reflexivity|]. cbn. split; [apply CitationFacts.trim_trim|].
    intros a Ha. inversion Ha; subst. eapply CitationFacts.prefix_re_number. exact E3. }
  destruct (str_match fl_i re_artLast (trim citation)) as [r4|] eqn:E4.
  { eexists. split; [reflexivity|]. cbn. split; [apply CitationFacts.trim_trim|].
    intros a Ha. inversion Ha; subst. eapply CitationFacts.suffix_re_number. exact E4. }
  destruct (str_match fl_i re_secLast (trim citation)) as [r5|] eqn:E5.
  { eexists. split; [reflexivity|]. cbn. split; [apply CitationFacts.trim_trim|].
    intros a Ha. inversion Ha; subst. eapply CitationFacts.suffix_re_number. exact E5. }
  destruct (str_match fl_i re_idBased (trim citation)) as [r6|] eqn:E6.
  { eexists. split; [reflexivity|]. cbn. split; [apply CitationFacts.trim_trim|].
    intros a Ha. inversion Ha; subst. eapply CitationFacts.idBased_number. exact E6. }
  eexists. split; [reflexivity|]. cbn. split; [apply CitationFacts.trim_trim|].
  intros a Ha. discriminate.
Qed.

(* ================================================================= *)
(** * From format_citation back to the citation parser *)

Module RoundTripFacts.
Import JsFacts RegexFacts SearchFacts RunFacts SuffixFacts ShapeFacts CitationFacts
       ValidateFacts FormatFacts NormalFacts WhitespaceFacts.

Lemma m_Bol_start fl rest0 cs k :
  m fl Bol {| before := []; rest := rest0; caps := cs |} k
  = k {| before := []; rest := rest0; caps := cs |}.
Proof. reflexivity. Qed.

Lemma m_Eol_end fl bef cs k :
  m fl Eol {| before := bef; rest := []; caps := cs |} k
  = k {| before := bef; rest := []; caps := cs |}.
Proof. reflexivity. Qed.

Lemma search_bol_later fl r : forall s bef,
  multiline fl = false -> bef <> [] -> search fl (Seq Bol r) bef s = None.
Proof.
  induction s as [|c s IH]; intros bef Hm Hb; simpl.
  - unfold match_at. simpl. unfold at_bol. simpl. rewrite Hm.
    destruct bef; [congruence|]. reflexivity.
  - unfold match_at. simpl. unfold at_bol. simpl. rewrite Hm.
    destruct bef; [congruence|]. simpl. apply IH; [exact Hm | discriminate].
Qed.

(** A pattern anchored at the start matches at the start or not at all. *)
Lemma str_match_bol fl r s :
  multiline fl = false ->
  str_match fl (Seq Bol r) s =
  match match_at fl (Seq Bol r) [] s with
  | Some st' => Some (mk_result [] s st')
  | None => None
  end.
Proof.
  intros Hm. unfold str_match. destruct s as [|c s]; cbn [search].
  - destruct (match_at fl (Seq Bol r) [] []); reflexivity.
  - destruct (match_at fl (Seq Bol r) [] (c :: s)); [reflexivity|].
    apply search_bol_later; [exact Hm | discriminate].
Qed.

Lemma upper_not_space c : is_space c = false -> is_space (to_upper c) = false.
Proof.
  intros H. unfold to_upper. destruct (is_lower c) eqn:E; [|exact H].
  unfold is_lower in E. apply andb_true_iff in E. destruct E as [E1 E2].
  apply N.leb_le in E1. apply N.leb_le in E2. unfold is_space. bool_arith.
Qed.

Lemma lower_not_space c : is_space c = false -> is_space (to_lower c) = false.
Proof.
  intros H. unfold to_lower. destruct (is_upper c) eqn:E; [|exact H].
  unfold is_upper in E. apply andb_true_iff in E. destruct E as [E1 E2].
  apply N.leb_le in E1. apply N.leb_le in E2. unfold is_space. bool_arith.
Qed.

Lemma not_space_i c : is_space c = false -> cls_match fl_i false [CSpace] c = false.
Proof.
  intros H. unfold cls_match, item_match. simpl.
  rewrite H, (upper_not_space c H), (lower_not_space c H). reflexivity.
Qed.

Lemma letter_not_space l : is_letter l = true -> is_space l = false.
Proof. intros H. apply letter_bounds in H. unfold is_space. destruct H; bool_arith. Qed.

(** The number pattern on a number followed by a comma. *)
Lemma number_commit ds ls tail bef cs k r :
  digits ds -> Forall (fun c => is_letter c = true) ls ->
  k {| before := rev ls ++ rev ds ++ bef; rest := 44%N :: tail; caps := cs |} = Some r ->
  m fl_i num_suffix {| before := bef; rest := ds ++ ls ++ 44%N :: tail; caps := cs |} k
  = Some r.
Proof.
  intros [Hne Hds] Hls Hk. destruct ds as [|d0 ds']; [congruence|].
  inversion Hds as [|? ? Hd0 Hds']; subst.
  unfold num_suffix, Plus, D_, AZ_. rewrite !m_Seq. cbn [app].
  rewrite (@m_Cls_hit fl_i false [CDigit] d0 _ _ _ _ (digit_class_i d0 Hd0)).
  apply (@m_star_commit fl_i (Cls false [CDigit]) (cls_match fl_i false [CDigit]));
    [intros; reflexivity | | |].
  { eapply Forall_impl; [|exact Hds']. intros a Ha. apply digit_class_i. exact Ha. }
  { destruct ls as [|l ls']; [reflexivity|]. inversion Hls; subst.
    apply letter_not_digit_i. assumption. }
  apply (@m_star_commit fl_i (Cls false [CRange 65%N 90%N; CRange 97%N 122%N])
           (cls_match fl_i false [CRange 65%N 90%N; CRange 97%N 122%N]));
    [intros; reflexivity | | reflexivity |].
  { eapply Forall_impl; [|exact Hls]. intros a Ha. apply letter_class_i. exact Ha. }
  cbn [rev] in Hk. rewrite <- !app_assoc in Hk. cbn [app] in Hk. exact Hk.
Qed.

Section Prefix.
Variables (word_re : regex) (w : jsstring).
Hypothesis word_commit : forall bef tail cs k r,
  k {| before := rev w ++ bef; rest := tail; caps := cs |} = Some r ->
  m fl_i word_re {| before := bef; rest := w ++ tail; caps := cs |} k = Some r.

Lemma prefix_re_cited ds ls law :
  digits ds -> Forall (fun c => is_letter c = true) ls -> plain law ->
  exists bef',
    match_at fl_i (prefix_re word_re) [] (cited w (ds ++ ls) law)
    = Some {| before := bef'; rest := []; caps := [(2, law); (1, ds ++ ls)] |}.
Proof.
  intros Hd Hls (Hlne & Hhead & Hlast & Hlt).
  destruct Hd as [Hne Hds]. destruct ds as [|d0 ds']; [congruence|].
  pose proof (Forall_inv Hds) as Hd0.
  destruct law as [|c0 law']; [congruence|]. eexists.
  unfold match_at, prefix_re, cited. cbn [Seqs].
  rewrite m_Seq, m_Bol_start, m_Seq. apply word_commit.
  rewrite m_Seq. unfold S_ at 1.
  apply (@m_star_commit fl_i (Cls false [CSpace]) (cls_match fl_i false [CSpace])
           [32%N]); [intros; reflexivity | repeat constructor | | ].
  { cbn [app]. apply digit_not_space_i. exact Hd0. }
  rewrite m_Seq, m_Group. rewrite <- app_assoc.
  apply number_commit; [split; [exact Hne | exact Hds] | exact Hls |].
  rewrite m_Seq. unfold S_ at 1.
  apply (@m_star_commit fl_i (Cls false [CSpace]) (cls_match fl_i false [CSpace]) []);
    [intros; reflexivity | constructor | reflexivity |].
  cbn [rev app]. rewrite m_Seq. unfold Opt, comma_semi.
  change (m fl_i (Alt ?a Eps) ?st ?k) with (orelse (m fl_i a st k) (m fl_i Eps st k)).
  apply orelse_some.
  rewrite (@m_Cls_hit fl_i false [CChar (ch ","); CChar (ch ";")] 44%N _ _ _ _ eq_refl).
  rewrite m_Seq. unfold Plus at 1. rewrite m_Seq. unfold S_ at 1.
  rewrite (@m_Cls_hit fl_i false [CSpace] 32%N _ _ _ _ eq_refl).
  cbn [head_not_space] in Hhead. apply negb_true_iff in Hhead.
  unfold S_ at 1.
  apply (@m_star_commit fl_i (Cls false [CSpace]) (cls_match fl_i false [CSpace]) []);
    [intros; reflexivity | constructor | apply not_space_i; exact Hhead |].
  cbn [rev app]. rewrite m_Seq, m_Group. unfold Plus. rewrite m_Seq.
  pose proof (Forall_inv Hlt) as Hc0. pose proof (Forall_inv_tail Hlt) as Hlaw'.
  rewrite single_dot. unfold char_step at 1. cbn [rest]. rewrite Hc0. cbn [negb].
  unfold advance. cbn [rest before caps].
  replace law' with (law' ++ []) at 1 by apply app_nil_r.
  apply (@m_star_commit fl_i Dot (fun x => negb (is_line_terminator x)));
    [intros; apply single_dot | | exact I |].
  { eapply Forall_impl; [|exact Hlaw']. intros a Ha. cbv beta. rewrite Ha. reflexivity. }
  unfold set_cap. cbn [before rest caps].
  rewrite (@slice_eq (d0 :: ds' ++ ls) (44%N :: 32%N :: c0 :: law'))
    by (cbn [app]; rewrite <- app_assoc; reflexivity).
  rewrite (@slice_eq (c0 :: law') []) by (symmetry; apply app_nil_r).
  rewrite m_Eol_end. reflexivity.
Qed.

End Prefix.

Lemma alt_word_commit w other bef tail cs k r :
  k {| before := rev w ++ bef; rest := tail; caps := cs |} = Some r ->
  m fl_i (Alt (Str w) other) {| before := bef; rest := w ++ tail; caps := cs |} k
  = Some r.
Proof.
  intros H.
  change (m fl_i (Alt (Str w) other) ?st ?k0)
    with (orelse (m fl_i (Str w) st k0) (m fl_i other st k0)).
  apply orelse_some. rewrite m_Str_self. exact H.
Qed.

(** The groups of the match of a prefix pattern on [word a, law]. *)
Lemma prefix_re_groups word_re w a law :
  (forall bef tail cs k r,
     k {| before := rev w ++ bef; rest := tail; caps := cs |} = Some r ->
     m fl_i word_re {| before := bef; rest := w ++ tail; caps := cs |} k = Some r) ->
  numbered a -> plain law ->
  exists res, str_match fl_i (prefix_re word_re) (cited w a law) = Some res /\
              grp 1 res = a /\ grp 2 res = law.
Proof.
  intros Hw (ds & ls & Hd & Hls & ->) Hp.
  destruct (@prefix_re_cited word_re w Hw ds ls law Hd Hls Hp) as [bef' Hm].
  change (prefix_re word_re)
    with (Seq Bol (Seqs [word_re; Star true S_; Group 1 num_suffix; Star true S_;
                         Opt comma_semi; Plus true S_; Group 2 (Plus true Dot); Eol]))
    in *.
  rewrite str_match_bol by reflexivity. rewrite Hm.
  eexists. split; [reflexivity|]. split; reflexivity.
Qed.

Lemma arabic_needs_alef c0 tail :
  c0 <> 1575%N -> str_match fl_none re_cite_arabic (c0 :: tail) = None.
Proof.
  intros Hc.
  change re_cite_arabic
    with (Seq Bol (Seqs [Str ar_article; Plus true S_; Group 1 num_suffix; Plus true S_;
                         Opt (Seq (Str ar_min) (Plus true S_));
                         Group 2 (Plus true Dot); Eol])).
  rewrite str_match_bol by reflexivity. unfold match_at. cbn [Seqs].
  rewrite m_Seq, m_Bol_start, m_Seq, m_Str. cbn [rest].
  rewrite ar_article_units. cbn [strip_prefix]. unfold chr_match. cbn [ignoreCase fl_none].
  apply N.eqb_neq in Hc. rewrite Hc. reflexivity.
Qed.

Lemma article_needs_a c0 tail :
  to_upper c0 <> 65%N -> str_match fl_i re_artFirst (c0 :: tail) = None.
Proof.
  intros Hc.
  change re_artFirst
    with (Seq Bol (Seqs [art_word; Star true S_; Group 1 num_suffix; Star true S_;
                         Opt comma_semi; Plus true S_; Group 2 (Plus true Dot); Eol])).
  rewrite str_match_bol by reflexivity. unfold match_at. cbn [Seqs].
  rewrite m_Seq, m_Bol_start, m_Seq. unfold art_word.
  change (L_ "Article") with (Str (lit "Article")).
  change (L_ "Art") with (Str (lit "Art")).
  change (m fl_i (Alt ?a ?b) ?st ?k) with (orelse (m fl_i a st k) (m fl_i b st k)).
  rewrite m_Seq, !m_Str. cbn [rest].
  assert (E : forall w', strip_prefix fl_i (65%N :: w') (c0 :: tail) = None).
  { intros w'. cbn [strip_prefix]. unfold chr_match. cbn [ignoreCase fl_i].
    apply N.eqb_neq in Hc. change (to_upper 65%N) with 65%N. rewrite Hc. reflexivity. }
  change (lit "Article") with (65%N :: lit "rticle").
  change (lit "Art") with (65%N :: lit "rt").
  rewrite !E. reflexivity.
Qed.

Lemma Forall_bool (P : char -> bool) (b : bool) l :
  forallb (fun c => Bool.eqb (P c) b) l = true -> Forall (fun c => P c = b) l.
Proof.
  intros H. rewrite forallb_forall in H. apply Forall_forall. intros x Hx.
  apply Bool.eqb_prop. apply H. exact Hx.
Qed.

Lemma head_app (x y : jsstring) :
  x <> [] -> head_not_space (x ++ y) = head_not_space x.
Proof. destruct x; [congruence | reflexivity]. Qed.

Lemma cited_trimmed word a law :
  word <> [] -> head_not_space word = true -> plain law ->
  trim (cited word a law) = cited word a law.
Proof.
  intros Hw Hh (Hne & _ & Hlast & _). apply trim_fixed.
  - unfold cited. destruct word as [|c word]; [congruence | exact Hh].
  - unfold cited. rewrite !app_assoc, rev_app_distr.
    rewrite head_app; [exact Hlast|]. intros E. apply Hne.
    apply (f_equal (@rev _)) in E. rewrite rev_involutive in E. exact E.
Qed.

Lemma plain_trim law : plain law -> trim law = law.
Proof. intros (_ & H1 & H2 & _). apply trim_fixed; assumption. Qed.

Lemma numbered_nonempty a : numbered a -> a <> [].
Proof.
  intros (ds & ls & [Hne _] & _ & ->). destruct ds; [congruence | discriminate].
Qed.

End RoundTripFacts.

Section RoundTrip.
Import JsFacts RegexFacts SearchFacts SuffixFacts ShapeFacts RoundTripFacts.

Lemma parse_cited_article a law :
  numbered a -> plain law ->
  parseCitation (cited (lit "Article") a law)
  = Some {| documentRef := law; articleRef := Some a |}.
Proof.
  intros Ha Hl. unfold parseCitation.
  rewrite cited_trimmed by (try exact Hl; try discriminate; reflexivity).
  change (cited (lit "Article") a law)
    with (65%N :: lit "rticle" ++ [32%N] ++ a ++ [44%N; 32%N] ++ law) at 1.
  rewrite arabic_needs_alef by discriminate.
  destruct (@prefix_re_groups art_word (lit "Article") a law) as (res & Hm & H1 & H2);
    [intros; apply alt_word_commit; assumption | exact Ha | exact Hl |].
  unfold re_artFirst. rewrite Hm. unfold cite. rewrite H1, H2, (plain_trim Hl).
  reflexivity.
Qed.

Lemma parse_cited_section a law :
  numbered a -> plain law ->
  parseCitation (cited (lit "Section") a law)
  = Some {| documentRef := law; articleRef := Some a |}.
Proof.
  intros Ha Hl. unfold parseCitation.
  rewrite cited_trimmed by (try exact Hl; try discriminate; reflexivity).
  change (cited (lit "Section") a law)
    with (83%N :: lit "ection" ++ [32%N] ++ a ++ [44%N; 32%N] ++ law) at 1 2.
  rewrite arabic_needs_alef by discriminate.
  rewrite article_needs_a by (vm_compute; discriminate).
  change (83%N :: lit "ection" ++ [32%N] ++ a ++ [44%N; 32%N] ++ law)
    with (cited (lit "Section") a law).
  destruct (@prefix_re_groups sec_word (lit "Section") a law) as (res & Hm & H1 & H2);
    [intros; apply alt_word_commit; assumption | exact Ha | exact Hl |].
  unfold re_secFirst. rewrite Hm. unfold cite. rewrite H1, H2, (plain_trim Hl).
  reflexivity.
Qed.

(** The full format of [Article a, law] is written with the word of the
    zone of [law], and [parseCitation] reads the formatted text back as the
    law text [law] and the article [a]: what format_citation writes,
    validate_citation parses, for every number [a] and every law text on one
    line without whitespace at its ends. *)
Theorem format_then_parse (a law : jsstring) :
  numbered a -> plain law ->
  let c := cited (lit "Article") a law in
  let out := formatted (formatCitationTool c (Some full)) in
  out = cited (provisionWord law) a law /\
  formatted (formatCitationTool c None) = out /\
  parseCitation out = Some {| documentRef := law; articleRef := Some a |} /\
  parseCitation c = Some {| documentRef := law; articleRef := Some a |}.
Proof.
  intros Ha Hl c out.
  assert (Hout : out = cited (provisionWord law) a law).
  { unfold out, formatCitationTool. cbn [formatted]. unfold c.
    rewrite cited_trimmed by (try exact Hl; try discriminate; reflexivity).
    destruct (@prefix_re_groups art_word_fmt (lit "Article") a law)
      as (res & Hm & H1 & H2);
      [intros; apply alt_word_commit; assumption | exact Ha | exact Hl |].
    unfold fmt_article, fmt_law, re_fmt_artFirst. rewrite Hm.
    unfold elem, nullish. unfold grp in H1, H2.
    destruct (group 1 res) as [g1|]; [|exfalso; apply (numbered_nonempty Ha); congruence].
    destruct (group 2 res) as [g2|];
      [|exfalso; destruct Hl as [Hne _]; congruence].
    subst g1 g2. unfold render.
    destruct a as [|a0 a']; [exfalso; apply (numbered_nonempty Ha); reflexivity|].
    reflexivity. }
  split; [exact Hout|]. split; [reflexivity|].
  split; [|apply parse_cited_article; assumption].
  rewrite Hout. unfold provisionWord.
  destruct (isDifcAdgm law);
    [apply parse_cited_section | apply parse_cited_article]; assumption.
Qed.

Lemma format_then_parse_witness :
  let law := lit "DIFC Law No. 5 of 2020" in
  formatted (formatCitationTool (lit "Article 12B, DIFC Law No. 5 of 2020") (Some full))
    = lit "Section 12B, DIFC Law No. 5 of 2020" /\
  parseCitation (lit "Section 12B, DIFC Law No. 5 of 2020")
    = Some {| documentRef := law; articleRef := Some (lit "12B") |}.
Proof.
  intros law.
  assert (Ha : numbered (lit "12B")).
  { exists (lit "12"), (lit "B").
    split; [split; [discriminate | apply Forall_bool; vm_compute; reflexivity]|].
    split; [apply Forall_bool; vm_compute; reflexivity | reflexivity]. }
  assert (Hl : plain law).
  { split; [discriminate|]. split; [reflexivity|]. split; [reflexivity|].
    apply Forall_bool. vm_compute. reflexivity. }
  destruct (@format_then_parse (lit "12B") law Ha Hl) as (H1 & _ & H2 & _).
  split.
  - exact H1.
  - rewrite H1 in H2. exact H2.
Defined.

End RoundTrip.

(* ================================================================= *)
(** * The tools on the store *)

Module StoreFacts.
Import JsFacts ResolverFacts.

Lemma document_found sql_lower sql_like db input docId :
  resolved sql_lower sql_like db input = Some docId ->
  exists doc, document_by_id db docId = Some doc /\
    In doc (document_rows db) /\ row_id (doc_key doc) = docId.
Proof.
  unfold resolved. intros H.
  destruct (resolveDocumentId sql_lower sql_like (tables db) input) as [d|] eqn:E;
    [|discriminate].
  destruct (truthy d); [|discriminate]. inversion H; subst d. clear H.
  apply resolve_in_store in E. destruct E as (row & Hin & Hid).
  cbn [tables legal_documents] in Hin. apply in_map_iff in Hin.
  destruct Hin as (d & Hd & Hin). subst row.
  destruct (@find_exists _ (fun d0 => Js.eqb (row_id (doc_key d0)) docId)
              (document_rows db) d Hin) as [y Hy].
  { apply eqb_eq. exact Hid. }
  exists y. unfold document_by_id, get_first. split; [exact Hy|].
  apply find_some in Hy. destruct Hy as [Hy1 Hy2]. apply eqb_eq in Hy2. tauto.
Qed.

Lemma currency_warnings_spec st :
  (st = lit "repealed" -> currency_warnings st = [msg_currency_repealed]) /\
  (st = lit "not_yet_in_force" -> currency_warnings st = [msg_currency_not_yet]) /\
  (st <> lit "repealed" -> st <> lit "not_yet_in_force" -> currency_warnings st = []).
Proof.
  unfold currency_warnings. split; [|split].
  - intros ->. reflexivity.
  - intros ->. reflexivity.
  - intros H1 H2. apply eqb_neq in H1. apply eqb_neq in H2.
    rewrite H1, H2. reflexivity.
Qed.

End StoreFacts.

Section Currency.
Import JsFacts ResolverFacts StoreFacts.
Variable sql_lower : jsstring -> jsstring.
Variable sql_like : jsstring -> jsstring -> bool.

(** [checkCurrency] answers every request, without reading a row that is
    not there.  When the document does not resolve, or resolves to an empty
    identifier, the status of the answer is "not_found" and its one warning
    names the request.  Otherwise the answer shows the identifier, title,
    status, dates and zone of the row with the resolved identifier, with one
    warning when the status is "repealed", another when it is
    "not_yet_in_force" and none for any other status, "amended" among
    them. *)
Theorem checkCurrency_answers (db : store) (input : CheckCurrencyInput) :
  exists r, checkCurrency sql_lower sql_like db input = Some r /\
    (resolved sql_lower sql_like db (cc_in_document_id input) = None ->
     cc_status r = lit "not_found" /\ cc_title r = lit "Unknown" /\
     cc_document_id r = cc_in_document_id input /\
     cc_warnings r = [msg_document_not_found (cc_in_document_id input)]) /\
    (forall docId,
       resolved sql_lower sql_like db (cc_in_document_id input)
         = Some docId ->
       exists doc, In doc (document_rows db) /\
         cc_document_id r = docId /\ row_id (doc_key doc) = docId /\
         cc_title r = row_title (doc_key doc) /\
         cc_status r = row_status (doc_key doc) /\
         cc_issued_date r = doc_issued_date doc /\
         cc_in_force_date r = doc_in_force_date doc /\
         cc_legal_zone r = row_legal_zone (doc_key doc) /\
         (cc_status r = lit "repealed" -> cc_warnings r = [msg_currency_repealed]) /\
         (cc_status r = lit "not_yet_in_force" ->
          cc_warnings r = [msg_currency_not_yet]) /\
         (cc_status r <> lit "repealed" -> cc_status r <> lit "not_yet_in_force" ->
          cc_warnings r = [])).
Proof.
  unfold checkCurrency.
  destruct (resolved sql_lower sql_like db (cc_in_document_id input))
    as [docId|] eqn:Er.
  - destruct (@document_found sql_lower sql_like db _ docId Er) as (doc & Hd & Hin & Hid).
    rewrite Hd. eexists. split; [reflexivity|]. split; [discriminate|].
    intros id' E. inversion E; subst id'. exists doc. cbn.
    pose proof (currency_warnings_spec (row_status (doc_key doc))) as (H1 & H2 & H3).
    repeat split; assumption.
  - eexists. split; [reflexivity|]. split; [|discriminate].
    intros _. cbn. repeat split.
Qed.

End Currency.

(* ================================================================= *)
(** * get_provision *)

Module ProvisionFacts.
Import JsFacts ResolverFacts StoreFacts.

Lemma insert_by_id_perm p l : Permutation (insert_by_id p l) (p :: l).
Proof.
  induction l as [|q l IH]; simpl; [apply Permutation_refl|].
  destruct (prov_id p <=? prov_id q)%N; [apply Permutation_refl|].
  eapply Permutation_trans; [apply perm_skip; exact IH | apply perm_swap].
Qed.

Lemma order_by_id_perm l : Permutation (order_by_id l) l.
Proof.
  induction l as [|p l IH]; simpl; [constructor|].
  eapply Permutation_trans; [apply insert_by_id_perm | apply perm_skip; exact IH].
Qed.

Lemma insert_by_id_sorted p l : sorted_by_id l -> sorted_by_id (insert_by_id p l).
Proof.
  unfold sorted_by_id. induction l as [|q l IH]; intros Hs; simpl.
  - constructor; constructor.
  - inversion Hs as [|? ? Hl Hq]; subst.
    destruct (prov_id p <=? prov_id q)%N eqn:E.
    + apply N.leb_le in E. constructor; [exact Hs|]. constructor; [exact E|].
      eapply Forall_impl; [|exact Hq]. intros a Ha. cbv beta in *. lia.
    + apply N.leb_gt in E. constructor; [apply IH; exact Hl|].
      eapply Permutation_Forall; [apply Permutation_sym; apply insert_by_id_perm|].
      constructor; [lia | exact Hq].
Qed.

Lemma order_by_id_sorted l : sorted_by_id (order_by_id l).
Proof.
  induction l as [|p l IH]; simpl; [constructor|].
  apply insert_by_id_sorted. exact IH.
Qed.

Lemma in_provisions_of db docId p :
  In p (provisions_of db docId) <->
  In p (provision_rows db) /\ p_document_id (prov_key p) = docId.
Proof.
  unfold provisions_of, of_document. rewrite filter_In.
  split; intros [H1 H2]; (split; [exact H1|]); apply eqb_eq; exact H2.
Qed.

Lemma get_first_none {A : Type} (f : A -> bool) l x :
  get_first f l = None -> In x l -> f x = false.
Proof. intros H Hin. unfold get_first in H. eapply find_none; eauto. Qed.

Lemma get_first_in {A : Type} (f : A -> bool) l x :
  get_first f l = Some x -> In x l /\ f x = true.
Proof. intros H. unfold get_first in H. apply find_some in H. exact H. Qed.

Lemma get_first_hit {A : Type} (f : A -> bool) l x :
  In x l -> f x = true -> exists y, get_first f l = Some y.
Proof. intros Hin Hx. unfold get_first. eapply find_exists; eauto. Qed.

Lemma like_percent s : Sqlite.like_go [37%N] s = true.
Proof. induction s as [|x s IH]; simpl; [reflexivity|]. simpl in IH. exact IH. Qed.

(** The pattern [%%] of SQLite's LIKE matches every text. *)
Lemma like_any v : Sqlite.like v (contains_pattern []) = true.
Proof.
  unfold Sqlite.like, contains_pattern. cbn [app].
  change (Sqlite.like_go [37%N; 37%N] v)
    with ((fix any (s : jsstring) : bool :=
             Sqlite.like_go [37%N] s
             || match s with [] => false | _ :: s' => any s' end) v).
  destruct v; rewrite like_percent; reflexivity.
Qed.

Section Lookup.
Variable sql_like : jsstring -> jsstring -> bool.

Lemma q_ref_spec docId ref p :
  q_ref docId ref p = true <->
  p_document_id (prov_key p) = docId /\ p_provision_ref (prov_key p) = ref.
Proof.
  unfold q_ref, of_document. rewrite andb_true_iff.
  split; intros [H1 H2]; split; apply eqb_eq; assumption.
Qed.

Lemma q_section_spec docId ref p :
  q_section docId ref p = true <->
  p_document_id (prov_key p) = docId /\ p_section (prov_key p) = Some ref.
Proof.
  unfold q_section, of_document, sql_eq. rewrite andb_true_iff.
  destruct (p_section (prov_key p)) as [s|].
  - split; intros [H1 H2]; split; try (apply eqb_eq; assumption).
    + apply eqb_eq in H2. congruence.
    + apply eqb_eq. congruence.
  - split; intros [H1 H2]; discriminate.
Qed.

(** Whatever stage finds a provision, it is a row of the document. *)
Lemma find_provision_in db docId t p :
  find_provision sql_like db docId t = Some p ->
  In p (provisions_of db docId).
Proof.
  unfold find_provision. intros H. apply in_provisions_of.
  repeat match type of H with
  | match get_first ?f ?l with _ => _ end = _ =>
      let E := fresh "E" in
      destruct (get_first f l) eqn:E;
      [ inversion H; subst; apply get_first_in in E; destruct E as [Hin Hq];
        split; [exact Hin|];
        first [ apply q_ref_spec in Hq; tauto | apply q_section_spec in Hq; tauto ] | ]
  end.
  apply get_first_in in H. destruct H as [Hin Hq]. split; [exact Hin|].
  unfold q_like in Hq. apply andb_true_iff in Hq. destruct Hq as [Hq _].
  apply eqb_eq. exact Hq.
Qed.

Lemma find_provision_exact db docId t p :
  In p (provisions_of db docId) -> p_provision_ref (prov_key p) = t ->
  exists q, find_provision sql_like db docId t = Some q /\
            p_provision_ref (prov_key q) = t.
Proof.
  intros Hin Href. apply in_provisions_of in Hin. destruct Hin as [Hin Hd].
  destruct (@get_first_hit _ (q_ref docId t) (provision_rows db) p Hin) as [q Hq].
  { apply q_ref_spec. tauto. }
  exists q. unfold find_provision. rewrite Hq. split; [reflexivity|].
  apply get_first_in in Hq. destruct Hq as [_ Hq]. apply q_ref_spec in Hq. tauto.
Qed.

Lemma find_provision_none db docId t p :
  find_provision sql_like db docId t = None -> In p (provisions_of db docId) ->
  p_provision_ref (prov_key p) <> t /\
  p_provision_ref (prov_key p) <> lit "art" ++ t /\
  p_provision_ref (prov_key p) <> lit "s" ++ t /\
  p_section (prov_key p) <> Some t /\
  sql_like (p_provision_ref (prov_key p)) (contains_pattern t) = false.
Proof.
  unfold find_provision. intros H Hin. apply in_provisions_of in Hin.
  destruct Hin as [Hin Hd].
  destruct (get_first (q_ref docId t) _) eqn:E1; [discriminate|].
  destruct (get_first (q_ref docId (lit "art" ++ t)) _) eqn:E2; [discriminate|].
  destruct (get_first (q_ref docId (lit "s" ++ t)) _) eqn:E3; [discriminate|].
  destruct (get_first (q_section docId t) _) eqn:E4; [discriminate|].
  pose proof (get_first_none _ _ p E1 Hin) as N1.
  pose proof (get_first_none _ _ p E2 Hin) as N2.
  pose proof (get_first_none _ _ p E3 Hin) as N3.
  pose proof (get_first_none _ _ p E4 Hin) as N4.
  pose proof (get_first_none _ _ p H Hin) as N5.
  split; [intros E; rewrite (proj2 (q_ref_spec docId t p)) in N1; [discriminate|tauto]|].
  split; [intros E; rewrite (proj2 (q_ref_spec docId _ p)) in N2; [discriminate|tauto]|].
  split; [intros E; rewrite (proj2 (q_ref_spec docId _ p)) in N3; [discriminate|tauto]|].
  split; [intros E; rewrite (proj2 (q_section_spec docId t p)) in N4; [discriminate|tauto]|].
  unfold q_like, of_document in N5. apply eqb_eq in Hd. rewrite Hd in N5.
  cbn [andb] in N5. apply orb_false_iff in N5. tauto.
Qed.

End Lookup.

End ProvisionFacts.

Section GetProvision.
Import JsFacts ResolverFacts StoreFacts ProvisionFacts.
Variable sql_lower : jsstring -> jsstring.
Variable sql_like : jsstring -> jsstring -> bool.

(** The answer to a request that names a provision. *)
Lemma getProvision_named (db : store) (input : GetProvisionInput)
    (docId ref : jsstring) :
  resolved sql_lower sql_like db (in_document_id input) = Some docId ->
  requested_ref input = Some ref -> ref <> [] ->
  exists doc, In doc (document_rows db) /\ row_id (doc_key doc) = docId /\
    getProvision sql_lower sql_like db input
      = match find_provision sql_like db docId (trim ref) with
        | Some p => {| gp_results := [provision_result docId doc p]; gp_note := None |}
        | None => {| gp_results := [];
                     gp_note := Some (note_no_provision ref docId) |}
        end.
Proof.
  intros Hr Href Hne.
  destruct (@document_found sql_lower sql_like db _ docId Hr) as (doc & Hd & Hin & Hid).
  exists doc. split; [exact Hin|]. split; [exact Hid|].
  unfold getProvision. rewrite Hr, Hd. fold (requested_ref input). rewrite Href.
  destruct ref as [|c ref']; [congruence|]. cbn [truthy].
  destruct (find_provision sql_like db docId (trim (c :: ref'))); reflexivity.
Qed.

(** A request that names a provision gets at most one result, and that
    result is a row of [legal_provisions] of the resolved document, never of
    another one.  A row whose [provision_ref] is the trimmed reference itself
    is preferred to every other reading of the reference.  The answer is
    empty, with the note "Provision ... not found", only when no row of the
    document has the reference, the reference after [art] or after [s] as
    [provision_ref], or the reference as [section], and none is matched by
    the LIKE pattern. *)
Theorem getProvision_lookup (db : store) (input : GetProvisionInput)
    (docId ref : jsstring) :
  resolved sql_lower sql_like db (in_document_id input) = Some docId ->
  requested_ref input = Some ref -> ref <> [] ->
  let out := getProvision sql_lower sql_like db input in
  exists doc, In doc (document_rows db) /\ row_id (doc_key doc) = docId /\
    ((gp_results out = [] /\ gp_note out = Some (note_no_provision ref docId) /\
      forall p, In p (provisions_of db docId) ->
        p_provision_ref (prov_key p) <> trim ref /\
        p_provision_ref (prov_key p) <> lit "art" ++ trim ref /\
        p_provision_ref (prov_key p) <> lit "s" ++ trim ref /\
        p_section (prov_key p) <> Some (trim ref) /\
        sql_like (p_provision_ref (prov_key p)) (contains_pattern (trim ref)) = false)
     \/
     (exists p, In p (provisions_of db docId) /\
        gp_results out = [provision_result docId doc p] /\ gp_note out = None /\
        ((exists q, In q (provisions_of db docId) /\
                    p_provision_ref (prov_key q) = trim ref) ->
         p_provision_ref (prov_key p) = trim ref))).
Proof.
  intros Hr Href Hne out.
  destruct (@getProvision_named db input docId ref Hr Href Hne) as (doc & Hin & Hid & Hout).
  exists doc. split; [exact Hin|]. split; [exact Hid|].
  unfold out. rewrite Hout.
  destruct (find_provision sql_like db docId (trim ref)) as [p|] eqn:Ef.
  - right. exists p. split; [eapply find_provision_in; exact Ef|].
    split; [reflexivity|]. split; [reflexivity|].
    intros (q & Hq & Hqr).
    destruct (@find_provision_exact sql_like db docId _ q Hq Hqr) as (p' & Hp' & Hpr).
    congruence.
  - left. split; [reflexivity|]. split; [reflexivity|].
    intros p Hp. eapply find_provision_none; eauto.
Qed.

(** A request without reference gets all the provisions of the resolved
    document, each once, by increasing [id]; so does a request whose
    reference is the empty string, in particular one with an empty [article]
    whatever its [provision_ref] and [section]. *)
Theorem getProvision_all (db : store) (input : GetProvisionInput) (docId : jsstring) :
  resolved sql_lower sql_like db (in_document_id input) = Some docId ->
  requested_ref input = None \/ requested_ref input = Some [] ->
  let out := getProvision sql_lower sql_like db input in
  exists doc rows, In doc (document_rows db) /\ row_id (doc_key doc) = docId /\
    gp_results out = map (provision_result docId doc) rows /\ gp_note out = None /\
    Permutation rows (provisions_of db docId) /\ sorted_by_id rows /\
    length (gp_results out) = length (provisions_of db docId) /\
    Forall (fun r => gp_document_id r = docId) (gp_results out).
Proof.
  intros Hr Href out.
  destruct (@document_found sql_lower sql_like db _ docId Hr) as (doc & Hd & Hin & Hid).
  exists doc, (order_by_id (provisions_of db docId)).
  split; [exact Hin|]. split; [exact Hid|].
  assert (Hout : out = {| gp_results :=
                            map (provision_result docId doc)
                                (order_by_id (provisions_of db docId));
                          gp_note := None |}).
  { unfold out, getProvision. rewrite Hr, Hd. fold (requested_ref input).
    destruct Href as [-> | ->]; reflexivity. }
  rewrite Hout. cbn [gp_results gp_note].
  split; [reflexivity|]. split; [reflexivity|].
  split; [apply order_by_id_perm|]. split; [apply order_by_id_sorted|].
  split.
  - rewrite length_map. apply Permutation_length. apply order_by_id_perm.
  - apply Forall_forall. intros r Hin'. apply in_map_iff in Hin'.
    destruct Hin' as (p & <- & _). reflexivity.
Qed.

(** A reference made of whitespace only is read as the pattern [%%]: when
    the LIKE operator matches every text against it, as the standard one
    does, the request is answered with a provision as soon as the document
    has one, and never with "not found". *)
Theorem getProvision_blank_ref (db : store) (input : GetProvisionInput)
    (docId ref : jsstring) :
  (forall v, sql_like v (contains_pattern []) = true) ->
  resolved sql_lower sql_like db (in_document_id input) = Some docId ->
  requested_ref input = Some ref -> ref <> [] -> trim ref = [] ->
  provisions_of db docId <> [] ->
  exists r, gp_results (getProvision sql_lower sql_like db input) = [r] /\
            gp_document_id r = docId.
Proof.
  intros Hlike Hr Href Hne Ht Hrows.
  destruct (@getProvision_named db input docId ref Hr Href Hne) as (doc & _ & _ & Hout).
  rewrite Hout.
  destruct (find_provision sql_like db docId (trim ref)) as [p|] eqn:Ef.
  - eexists. split; reflexivity.
  - exfalso. destruct (provisions_of db docId) as [|p rows] eqn:E; [congruence|].
    assert (Hp : In p (provisions_of db docId)) by (rewrite E; left; reflexivity).
    destruct (@find_provision_none sql_like db docId (trim ref) p Ef Hp)
      as (_ & _ & _ & _ & Hl).
    rewrite Ht, Hlike in Hl. discriminate.
Qed.

End GetProvision.

Lemma getProvision_lookup_witness :
  let input := {| in_document_id := lit "PDPL"; in_section := None;
                  in_provision_ref := None; in_article := Some (lit " art2 ");
                  in_as_of_date := None |} in
  exists r, gp_results (getProvision Sqlite.lower Sqlite.like fixture_store input) = [r] /\
            gp_document_id r = lit "fdl-45-2021" /\ gp_provision_ref r = lit "art2".
Proof.
  intros input.
  destruct (@getProvision_lookup Sqlite.lower Sqlite.like fixture_store input
              (lit "fdl-45-2021") (lit " art2 "))
    as (doc & _ & _ & [(Hnone & _) | (p & Hp & Hres & _ & Hexact)]).
  - vm_compute. reflexivity.
  - reflexivity.
  - vm_compute. discriminate.
  - vm_compute in Hnone. discriminate.
  - eexists. split; [exact Hres|]. split; [reflexivity|]. cbn [provision_result gp_provision_ref].
    apply Hexact.
    exists {| prov_id := 7;
              prov_key := {| p_document_id := lit "fdl-45-2021";
                             p_provision_ref := lit "art2";
                             p_section := Some (lit "2") |};
              prov_chapter := None; prov_title := Some (lit "Scope");
              prov_content :=
                lit "This Decree-Law applies to the processing of personal data.";
              prov_language := Some (lit "en") |}.
    split; [vm_compute; left; reflexivity | vm_compute; reflexivity].
Defined.

Lemma getProvision_all_witness :
  let input := {| in_document_id := lit "fdl-45-2021"; in_section := None;
                  in_provision_ref := Some (lit "art2"); in_article := Some [];
                  in_as_of_date := None |} in
  map gp_provision_ref (gp_results (getProvision Sqlite.lower Sqlite.like fixture_store input))
    = [lit "art1"; lit "art2"] /\
  length (gp_results (getProvision Sqlite.lower Sqlite.like fixture_store input))
    = length (provisions_of fixture_store (lit "fdl-45-2021")).
Proof.
  intros input. split; [vm_compute; reflexivity|].
  destruct (@getProvision_all Sqlite.lower Sqlite.like fixture_store input
              (lit "fdl-45-2021"))
    as (doc & rows & _ & _ & _ & _ & _ & _ & Hlen & _).
  - vm_compute. reflexivity.
  - right. reflexivity.
  - exact Hlen.
Defined.

Lemma getProvision_blank_ref_witness :
  let input := {| in_document_id := lit "x-1"; in_section := Some (lit "  ");
                  in_provision_ref := None; in_article := None;
                  in_as_of_date := None |} in
  exists r, gp_results (getProvision Sqlite.lower Sqlite.like fixture_store input) = [r] /\
            gp_document_id r = lit "x-1".
Proof.
  intros input.
  apply (@getProvision_blank_ref Sqlite.lower Sqlite.like fixture_store input
           (lit "x-1") (lit "  ")).
  - apply ProvisionFacts.like_any.
  - vm_compute. reflexivity.
  - reflexivity.
  - vm_compute. discriminate.
  - vm_compute. reflexivity.
  - vm_compute. discriminate.
Defined.

(* ================================================================= *)
(** * validate_eu_compliance *)

Module ComplianceFacts.
Import JsFacts ResolverFacts StoreFacts.

Lemma status_eqb_eq a b : status_eqb a b = true <-> a = b.
Proof.
  destruct a as [x|], b as [y|]; simpl; split; intros H;
    try discriminate; try reflexivity.
  - apply eqb_eq in H. congruence.
  - inversion H; subst. apply eqb_refl.
Qed.

Lemma status_eqb_refl a : status_eqb a a = true.
Proof. apply status_eqb_eq. reflexivity. Qed.

Lemma status_eqb_sym a b : status_eqb a b = status_eqb b a.
Proof.
  destruct (status_eqb a b) eqn:E1, (status_eqb b a) eqn:E2; try reflexivity.
  - apply status_eqb_eq in E1. subst. rewrite status_eqb_refl in E2. discriminate.
  - apply status_eqb_eq in E2. subst. rewrite status_eqb_refl in E1. discriminate.
Qed.

Lemma get_absent k mp : ~ In k (map fst mp) -> status_map_get k mp = None.
Proof.
  induction mp as [|[k' v] mp IH]; simpl; intros H; [reflexivity|].
  destruct (status_eqb k k') eqn:E.
  - apply status_eqb_eq in E. subst. tauto.
  - apply IH. tauto.
Qed.

Lemma tally_keys st mp :
  map fst (tally st mp) = if existsb (status_eqb st) (map fst mp)
                          then map fst mp else map fst mp ++ [st].
Proof.
  induction mp as [|[k v] mp IH]; simpl; [reflexivity|].
  destruct (status_eqb st k); simpl; [reflexivity|]. rewrite IH.
  destruct (existsb _ _); reflexivity.
Qed.

Lemma tally_nodup st mp : NoDup (map fst mp) -> NoDup (map fst (tally st mp)).
Proof.
  intros H. rewrite tally_keys. destruct (existsb _ _) eqn:E; [exact H|].
  apply NoDup_app; [exact H | repeat constructor; simpl; tauto |].
  intros x Hx [Hx'|[]]. subst x.
  assert (Ht : existsb (status_eqb st) (map fst mp) = true).
  { apply existsb_exists. exists st. split; [exact Hx | apply status_eqb_refl]. }
  congruence.
Qed.

Lemma tally_count st mp k :
  count_of k (tally st mp) = count_of k mp + (if status_eqb st k then 1 else 0).
Proof.
  unfold count_of. induction mp as [|[k' v] mp IH]; simpl.
  - rewrite (status_eqb_sym k st). destruct (status_eqb st k); reflexivity.
  - destruct (status_eqb st k') eqn:E1; simpl.
    + apply status_eqb_eq in E1. subst k'. rewrite (status_eqb_sym k st).
      destruct (status_eqb st k); [rewrite Nat.add_1_r; reflexivity | rewrite Nat.add_0_r; reflexivity].
    + destruct (status_eqb k k') eqn:E2.
      * apply status_eqb_eq in E2. subst k'. rewrite E1, Nat.add_0_r. reflexivity.
      * exact IH.
Qed.

Lemma fold_tally (status : eu_reference -> option jsstring) l : forall mp k,
  NoDup (map fst mp) ->
  NoDup (map fst (fold_left (fun g e => tally (status e) g) l mp)) /\
  count_of k (fold_left (fun g e => tally (status e) g) l mp)
  = count_of k mp + length (filter (fun e => status_eqb (status e) k) l).
Proof.
  induction l as [|e l IH]; intros mp k Hnd; simpl.
  - split; [exact Hnd | rewrite Nat.add_0_r; reflexivity].
  - destruct (IH (tally (status e) mp) k (@tally_nodup (status e) mp Hnd)) as [H1 H2].
    split; [exact H1|]. rewrite H2, tally_count.
    destruct (status_eqb (status e) k); simpl; lia.
Qed.

Lemma set_absent k v mp :
  ~ In k (map fst mp) -> status_map_set k v mp = mp ++ [(k, v)].
Proof.
  induction mp as [|[k' v'] mp IH]; simpl; intros H; [reflexivity|].
  destruct (status_eqb k k') eqn:E.
  - apply status_eqb_eq in E. subst. tauto.
  - rewrite IH by tauto. reflexivity.
Qed.

(** A map made from pairs with distinct keys holds these pairs. *)
Lemma status_map_fold pairs : forall mp,
  NoDup (map fst (mp ++ pairs)) ->
  fold_left (fun m kv => status_map_set (fst kv) (snd kv) m) pairs mp = mp ++ pairs.
Proof.
  induction pairs as [|[k v] pairs IH]; intros mp Hnd; simpl.
  - symmetry. apply app_nil_r.
  - rewrite set_absent.
    + rewrite IH; rewrite <- app_assoc; [reflexivity | exact Hnd].
    + rewrite map_app in Hnd. simpl in Hnd. apply NoDup_remove_2 in Hnd.
      intros Hin. apply Hnd. apply in_or_app. left. exact Hin.
Qed.

Lemma status_map_id pairs : NoDup (map fst pairs) -> status_map pairs = pairs.
Proof. intros H. unfold status_map. apply (status_map_fold pairs [] H). Qed.

Lemma filter_length_and {A : Type} (f g : A -> bool) l :
  length (filter g (filter f l)) = length (filter (fun x => f x && g x) l).
Proof.
  induction l as [|x l IH]; simpl; [reflexivity|].
  destruct (f x); simpl; [|exact IH]. destruct (g x); simpl; congruence.
Qed.

(** What [statusMap.get(name) ?? 0] holds: the number of references of the
    document with that status. *)
Lemma status_count_spec refs docId name :
  status_count (status_map (group_by_status refs docId)) name
  = references_with refs docId name.
Proof.
  unfold group_by_status, references_with.
  destruct (@fold_tally ref_implementation_status
              (filter (fun e => Js.eqb (ref_document_id e) docId) refs)
              [] (Some name) (NoDup_nil _)) as [Hnd Hc].
  rewrite status_map_id by exact Hnd.
  change (status_count ?mp name) with (count_of (Some name) mp).
  rewrite Hc. cbn [count_of status_map_get]. rewrite Nat.add_0_l.
  apply filter_length_and.
Qed.

End ComplianceFacts.

Section Compliance.
Import JsFacts ResolverFacts StoreFacts ComplianceFacts.
Variable sql_lower : jsstring -> jsstring.
Variable sql_like : jsstring -> jsstring -> bool.

(** [validateEUCompliance] answers every request.  The answer is
    "not_applicable" when the document does not resolve (or resolves to an
    empty identifier), when the database has no table of references, and
    when the document has no reference (to the EU document of the request,
    if it names one).  Otherwise the verdict is read off all the references
    of the document, whatever EU document the request names: "compliant"
    when some have the status "complete" and none "partial" or "unknown";
    "partial" when some have the status "partial"; "unclear" in every other
    case.  References without status, or with any other status, do not
    count. *)
Theorem eu_compliance_verdict (db : store) (input : ValidateEUComplianceInput) :
  exists r, validateEUCompliance sql_lower sql_like db input = Some r /\
    (resolved sql_lower sql_like db (eu_in_document_id input) = None ->
     compliance_status r = not_applicable /\
     eu_warnings r = [msg_document_not_found (eu_in_document_id input)]) /\
    (forall docId,
       resolved sql_lower sql_like db (eu_in_document_id input)
         = Some docId ->
       eu_document_id r = docId /\
       (eu_references db = None ->
        compliance_status r = not_applicable /\ eu_warnings r = [msg_eu_unavailable]) /\
       (forall refs, eu_references db = Some refs ->
          let found := count_references refs docId (eu_in_eu_document_id input) in
          let complete := references_with refs docId (lit "complete") in
          let part := references_with refs docId (lit "partial") in
          let unknown := references_with refs docId (lit "unknown") in
          (found = 0 ->
           compliance_status r = not_applicable /\ eu_references_found r = 0 /\
           eu_warnings r = [] /\ recommendations r = [msg_eu_none]) /\
          (found <> 0 ->
           eu_references_found r = found /\
           (compliance_status r = compliant <-> 0 < complete /\ part = 0 /\ unknown = 0) /\
           (compliance_status r = partial <-> 0 < part) /\
           (compliance_status r = unclear <->
              part = 0 /\ (complete = 0 \/ 0 < unknown)) /\
           compliance_status r <> not_applicable))).
Proof.
  unfold validateEUCompliance.
  destruct (resolved sql_lower sql_like db (eu_in_document_id input))
    as [docId|] eqn:Er.
  2:{ eexists. split; [reflexivity|]. split; [|discriminate]. intros _. split; reflexivity. }
  destruct (@document_found sql_lower sql_like db _ docId Er) as (doc & Hd & Hin & Hid).
  rewrite Hd. destruct (eu_references db) as [refs|].
  2:{ eexists. split; [reflexivity|]. split; [discriminate|].
      intros id' E. inversion E; subst id'. split; [reflexivity|].
      split; [intros _; split; reflexivity | discriminate]. }
  rewrite !status_count_spec.
  set (found := count_references refs docId (eu_in_eu_document_id input)).
  set (nc := references_with refs docId (lit "complete")).
  set (np := references_with refs docId (lit "partial")).
  set (nu := references_with refs docId (lit "unknown")).
  destruct (Nat.eqb found 0) eqn:Ef.
  - apply Nat.eqb_eq in Ef. eexists. split; [reflexivity|]. split; [discriminate|].
    intros id' E. inversion E; subst id'. split; [reflexivity|].
    split; [discriminate|]. intros refs' E'. inversion E'; subst refs'.
    cbv zeta. fold found. split; [intros _; repeat split | intros Hn; congruence].
  - apply Nat.eqb_neq in Ef. eexists. split; [reflexivity|]. split; [discriminate|].
    intros id' E. inversion E; subst id'. split; [reflexivity|].
    split; [discriminate|]. intros refs' E'. inversion E'; subst refs'.
    cbv zeta. fold found nc np nu. split; [intros Hz; congruence|]. intros _.
    cbn [eu_references_found compliance_status]. split; [reflexivity|].
    destruct (Nat.ltb_spec 0 nc) as [E1|E1]; destruct (Nat.eqb_spec np 0) as [E2|E2];
      destruct (Nat.eqb_spec nu 0) as [E3|E3]; cbn [andb fst snd];
      try (destruct (Nat.ltb_spec 0 np) as [E4|E4]; cbn [fst snd]);
      repeat split; intros; try discriminate; try lia;
      try (destruct H; discriminate).
Qed.

End Compliance.

(* ================================================================= *)
(** * The retries of the client *)

Module FetchFacts.
Import JsFacts.

Lemma attempts_spec server url maxRetries : forall left attempt,
  (Z.of_nat attempt + Z.of_nat left = maxRetries + 1)%Z -> 0 < left ->
  exists k,
    k < left /\
    (forall j, j < k -> asks_retry (server (attempt + j)) = true) /\
    (asks_retry (server (attempt + k)) = true -> S k = left) /\
    snd (attempts server url maxRetries left attempt) = settle url (server (attempt + k)) /\
    requests (fst (attempts server url maxRetries left attempt)) = repeat url (S k) /\
    sleeps (fst (attempts server url maxRetries left attempt))
      = map (fun j => backoff (attempt + j)) (seq 0 k).
Proof.
  induction left as [|left IH]; intros attempt Hsum Hpos; [inversion Hpos|].
  cbn [attempts]. destruct (server attempt) as [resp|] eqn:Es.
  - destruct (retryable (resp_status resp)) eqn:Er.
    + destruct (Z.of_nat attempt <? maxRetries)%Z eqn:Elt; cbn [andb].
      * apply Z.ltb_lt in Elt.
        assert (Hleft : 0 < left) by lia.
        destruct (IH (S attempt) ltac:(lia) Hleft)
          as (k & Hk & Hbefore & Hlast & Hout & Hreq & Hsl).
        exists (S k). split; [lia|]. split; [|split; [|split; [|split]]].
        -- intros j Hj. destruct j as [|j].
           ++ rewrite Nat.add_0_r, Es. exact Er.
           ++ replace (attempt + S j) with (S attempt + j) by lia. apply Hbefore. lia.
        -- replace (attempt + S k) with (S attempt + k) by lia. intros H.
           apply Hlast in H. lia.
        -- cbn [snd]. replace (attempt + S k) with (S attempt + k) by lia. exact Hout.
        -- cbn [fst requests flat_map app]. fold (requests (fst (attempts server url
             maxRetries left (S attempt)))). rewrite Hreq. reflexivity.
        -- cbn [fst sleeps flat_map app]. fold (sleeps (fst (attempts server url
             maxRetries left (S attempt)))). rewrite Hsl.
           cbn [seq map]. rewrite Nat.add_0_r. f_equal.
           rewrite <- seq_shift, map_map. apply map_ext. intros j.
           f_equal. lia.
      * apply Z.ltb_ge in Elt. exists 0. rewrite Nat.add_0_r, Es.
        split; [lia|]. split; [intros j Hj; inversion Hj|].
        split; [intros _; lia|]. repeat split.
    + cbn [andb]. exists 0. rewrite Nat.add_0_r, Es.
      split; [lia|]. split; [intros j Hj; inversion Hj|].
      split; [cbn [asks_retry]; congruence|]. repeat split.
  - exists 0. rewrite Nat.add_0_r, Es.
    split; [lia|]. split; [intros j Hj; inversion Hj|].
    split; [cbn [asks_retry]; discriminate|]. repeat split.
Qed.

End FetchFacts.

Section Fetch.
Import JsFacts FetchFacts.



(** The rate limit: when less than 500 ms have passed since the value of
    [lastRequestTime], the client asks for a wait that ends exactly 500 ms
    after it, and otherwise for none; so, if the clock does not run
    backwards and a wait lasts at least as long as asked, the value the
    client leaves in [lastRequestTime] is at least 500 ms after the one it
    found. *)
Theorem rate_limit_spacing (server : nat -> reply) (lastRequestTime now woken : Z)
    (url : jsstring) (maxRetries : Z) :
  (now <= woken)%Z ->
  (forall ms, In (Sleep ms) (fst (rateLimit lastRequestTime now woken)) ->
              (now + ms <= woken)%Z) ->
  (forall ms, In (Sleep ms) (fst (rateLimit lastRequestTime now woken)) ->
              (0 < ms)%Z /\ (now + ms = lastRequestTime + 500)%Z) /\
  (lastRequestTime + 500
     <= run_lastRequestTime
          (fetchWithRateLimit server lastRequestTime now woken url maxRetries))%Z.
Proof.
  intros Hclock Htimer. unfold fetchWithRateLimit. cbn [run_lastRequestTime].
  unfold rateLimit in *. cbn [fst snd] in *.
  unfold MIN_DELAY_MS in *.
  destruct (now - lastRequestTime <? 500)%Z eqn:E.
  - apply Z.ltb_lt in E. split.
    + intros ms [H|[]].
      assert (Hms : (500 - (now - lastRequestTime))%Z = ms) by congruence. lia.
    + specialize (Htimer _ (or_introl eq_refl)). lia.
  - apply Z.ltb_ge in E. split; [intros ms []|]. lia.
Qed.

Lemma rate_limit_spacing_witness :
  (1000 + 500
     <= run_lastRequestTime
          (fetchWithRateLimit (fun _ => NetworkError) 1000 1200 1510 (lit "/x") 3))%Z.
Proof.
  apply (@rate_limit_spacing (fun _ => NetworkError) 1000 1200 1510 (lit "/x") 3); [lia|].
  intros ms [H|[]]. vm_compute in H. assert (Hms : 300%Z = ms) by congruence. lia.
Defined.

End Fetch.

(* ================================================================= *)
(** * The limit of the ingestion script *)

Module CliFacts.
Import JsFacts.

Lemma pos_size_nat_gt (p : positive) : (N.pos p < 2 ^ N.of_nat (Pos.size_nat p))%N.
Proof.
  induction p as [p IH|p IH|]; cbn [Pos.size_nat].
  - rewrite Nat2N.inj_succ, N.pow_succ_r'. lia.
  - rewrite Nat2N.inj_succ, N.pow_succ_r'. lia.
  - vm_compute. reflexivity.
Qed.

Lemma size_nat_gt (n : N) : (n < 2 ^ N.of_nat (N.size_nat n))%N.
Proof.
  destruct n as [|p]; [vm_compute; reflexivity | apply pos_size_nat_gt].
Qed.

Lemma digits_value_app ds : forall acc d,
  digits_value acc (ds ++ [d]) = (10 * digits_value acc ds + Z.of_N (d - 48))%Z.
Proof.
  induction ds as [|x ds IH]; intros acc d; cbn [app digits_value]; [reflexivity|].
  apply IH.
Qed.

(** The digits that [dec_go] writes in front of [acc]. *)
Lemma dec_go_spec : forall f n acc,
  (n < 2 ^ N.of_nat f)%N ->
  exists ds,
    dec_go (S f) n acc = ds ++ acc /\
    ds <> [] /\
    Forall (fun c => is_digit c = true) ds /\
    forall a, digits_value a ds = (a * 10 ^ Z.of_nat (length ds) + Z.of_N n)%Z.
Proof.
  induction f as [|f IH]; intros n acc Hn.
  - cbn [N.of_nat] in Hn. rewrite N.pow_0_r in Hn.
    assert (n = 0%N) by lia. subst n.
    exists [48%N]. repeat split.
    + discriminate.
    + repeat constructor.
    + intros a. cbn [digits_value length]. change (Z.of_N (48 - 48)) with 0%Z.
      change (10 ^ Z.of_nat 1)%Z with 10%Z. lia.
  - cbn [dec_go]. fold (dec_go (S f)).
    assert (Hmod : (n mod 10 < 10)%N) by (apply N.mod_lt; discriminate).
    pose proof (N.div_mod n 10 ltac:(discriminate)) as Hdm.
    rewrite Nat2N.inj_succ, N.pow_succ_r' in Hn.
    set (r := (n mod 10)%N) in *. set (q := (n / 10)%N) in *.
    set (bound := (2 ^ N.of_nat f)%N) in *.
    clearbody r q.
    assert (Hdig : is_digit (48 + r)%N = true).
    { unfold is_digit. apply andb_true_intro. split; apply N.leb_le; lia. }
    assert (Hr : (48 + r - 48)%N = r) by lia.
    destruct (q =? 0)%N eqn:E.
    + apply N.eqb_eq in E. exists [(48 + r)%N]. repeat split.
      * discriminate.
      * repeat constructor. exact Hdig.
      * intros a. cbn [digits_value length]. rewrite Hr.
        change (10 ^ Z.of_nat 1)%Z with 10%Z. lia.
    + apply N.eqb_neq in E.
      assert (Hq : (q < bound)%N) by (clearbody bound; lia).
      destruct (IH q ((48 + r)%N :: acc) Hq) as (ds & Hds & Hne & Hall & Hval).
      exists (ds ++ [(48 + r)%N]). repeat split.
      * rewrite <- app_assoc. exact Hds.
      * intros H. apply app_eq_nil in H. destruct H as [_ H]. discriminate.
      * apply Forall_app. split; [exact Hall | repeat constructor; exact Hdig].
      * intros a. rewrite digits_value_app, Hval, length_app, Hr. cbn [length].
        rewrite Nat2Z.inj_add, Z.pow_add_r by lia.
        change (10 ^ Z.of_nat 1)%Z with 10%Z.
        set (p := (10 ^ Z.of_nat (length ds))%Z). clearbody p. lia.
Qed.

Lemma dec_spec (n : N) :
  dec n <> [] /\ Forall (fun c => is_digit c = true) (dec n) /\
  digits_value 0 (dec n) = Z.of_N n.
Proof.
  destruct (@dec_go_spec (N.size_nat n) n [] (size_nat_gt n))
    as (ds & Hds & Hne & Hall & Hval).
  unfold dec. rewrite Hds, app_nil_r. repeat split; try assumption.
  rewrite Hval. lia.
Qed.

Lemma take_while_Forall P s :
  Forall (fun c => P c = true) s -> take_while P s = s.
Proof.
  induction 1 as [|c s Hc _ IH]; cbn [take_while]; [reflexivity|].
  rewrite Hc, IH. reflexivity.
Qed.

Lemma digit_head c :
  is_digit c = true -> is_space c = false /\ (c =? 45)%N = false /\ (c =? 43)%N = false.
Proof.
  intros H. unfold is_digit in H. apply andb_prop in H. destruct H as [H1 H2].
  apply N.leb_le in H1, H2.
  repeat split; try (apply N.eqb_neq; lia).
  unfold is_space, is_line_terminator.
  repeat (apply orb_false_intro); try (apply N.eqb_neq; lia);
    try (apply andb_false_intro1; apply N.leb_gt; lia).
Qed.

(** [parseInt] reads back what [String] writes. *)
Lemma parseInt_dec (n : N) : parseInt (dec n) = Int (Z.of_N n).
Proof.
  destruct (dec_spec n) as (Hne & Hall & Hval).
  unfold parseInt. destruct (dec n) as [|c ds] eqn:E; [congruence|].
  destruct (@digit_head c (Forall_inv Hall)) as (Hsp & Hm & Hp).
  cbn [trim_start]. rewrite Hsp, Hm, Hp. cbn [snd fst].
  rewrite (@take_while_Forall is_digit (c :: ds) Hall), Hval.
  f_equal; lia.
Qed.

Lemma parseInt_minus_dec (n : N) : parseInt (lit "-" ++ dec n) = Int (- Z.of_N n).
Proof.
  destruct (dec_spec n) as (Hne & Hall & Hval).
  change (lit "-" ++ dec n) with (45%N :: dec n).
  unfold parseInt. cbn [trim_start].
  change (is_space 45%N) with false. cbn iota. change (45 =? 45)%N with true.
  cbn iota. cbn [snd fst].
  rewrite (@take_while_Forall is_digit (dec n) Hall).
  destruct (dec n) as [|c ds] eqn:E; [congruence|].
  rewrite Hval. f_equal; lia.
Qed.

(** Arguments that are no [--limit] and no [--source] are read one by one:
    only [--skip-fetch] among them has an effect. *)
Lemma parseArgs_from_plain rest : forall pre acc,
  forallb plain_arg pre = true ->
  parseArgs_from (pre ++ rest) acc
    = parseArgs_from rest
        {| cli_limit := cli_limit acc;
           cli_skipFetch :=
             cli_skipFetch acc || existsb (fun a => Js.eqb a (lit "--skip-fetch")) pre;
           cli_source := cli_source acc |}.
Proof.
  induction pre as [|a pre IH]; intros acc Hp.
  - cbn [app existsb]. rewrite orb_false_r. destruct acc; reflexivity.
  - cbn [forallb] in Hp. apply andb_prop in Hp. destruct Hp as [Ha Hp].
    unfold plain_arg in Ha. apply andb_prop in Ha. destruct Ha as [Hl Hs].
    apply negb_true_iff in Hl, Hs.
    cbn [app parseArgs_from existsb]. rewrite Hl, Hs. cbn [andb].
    destruct (Js.eqb a (lit "--skip-fetch")).
    + rewrite (IH _ Hp). cbn [cli_limit cli_skipFetch cli_source orb].
      rewrite orb_true_r. reflexivity.
    + rewrite (IH _ Hp). cbn [orb]. reflexivity.
Qed.

Lemma parseArgs_limit (pre : list jsstring) (v : jsstring) :
  forallb plain_arg pre = true -> v <> [] ->
  parseArgs (pre ++ [lit "--limit"; v])
    = {| cli_limit := Some (parseInt v);
         cli_skipFetch := existsb (fun a => Js.eqb a (lit "--skip-fetch")) pre;
         cli_source := lit "all" |}.
Proof.
  intros Hp Hv. unfold parseArgs. rewrite (@parseArgs_from_plain _ pre _ Hp).
  cbn [cli_limit cli_skipFetch cli_source orb parseArgs_from].
  rewrite eqb_refl. destruct v as [|c v]; [congruence|]. reflexivity.
Qed.

Lemma phase_limit (A : Type) (pre : list jsstring) (v zone : jsstring) (laws : list A) :
  forallb plain_arg pre = true -> v <> [] ->
  phase_laws (parseArgs (pre ++ [lit "--limit"; v])) zone laws
    = Some (limited (Some (parseInt v)) laws).
Proof.
  intros Hp Hv. rewrite (@parseArgs_limit pre v Hp Hv).
  unfold phase_laws. cbn [cli_source cli_limit]. rewrite eqb_refl. reflexivity.
Qed.

Lemma slice_to_positive (A : Type) (laws : list A) (z : Z) :
  (0 <= z)%Z -> slice_to laws (Int z) = firstn (Z.to_nat z) laws.
Proof.
  intros Hz. unfold slice_to.
  destruct (z <? 0)%Z eqn:E; [apply Z.ltb_lt in E; lia|].
  destruct (Z.le_gt_cases z (Z.of_nat (length laws))) as [H|H].
  - rewrite Z.min_l by lia. reflexivity.
  - rewrite Z.min_r by lia. rewrite Nat2Z.id, firstn_all.
    symmetry. apply firstn_all2. lia.
Qed.

Lemma slice_to_negative (A : Type) (laws : list A) (z : Z) :
  (z < 0)%Z -> slice_to laws (Int z) = firstn (length laws - Z.to_nat (- z)) laws.
Proof.
  intros Hz. unfold slice_to.
  destruct (z <? 0)%Z eqn:E; [|apply Z.ltb_ge in E; lia].
  f_equal; lia.
Qed.

End CliFacts.

Section Limit.
Import JsFacts CliFacts.

(** The ingestion script called with arguments that end in [--limit]
    and a value, with no other [--limit] and no [--source] before: every phase
    runs; a value that is the decimal of [n > 0] selects the first [n] laws
    of each list; the value 0 selects all of them, not none; [-n] selects all
    but the last [n]; a value without a leading number selects all.  The
    value is never read as a flag of its own. *)
Theorem limit_selection (A : Type) (pre : list jsstring) (zone : jsstring)
    (laws : list A) :
  forallb plain_arg pre = true ->
  (forall n : N,
     phase_laws (parseArgs (pre ++ [lit "--limit"; dec n])) zone laws
       = Some (if (n =? 0)%N then laws else firstn (N.to_nat n) laws) /\
     phase_laws (parseArgs (pre ++ [lit "--limit"; lit "-" ++ dec n])) zone laws
       = Some (firstn (length laws - N.to_nat n) laws)) /\
  (forall v : jsstring, v <> [] ->
     (parseInt v = NaN ->
      phase_laws (parseArgs (pre ++ [lit "--limit"; v])) zone laws = Some laws) /\
     cli_skipFetch (parseArgs (pre ++ [lit "--limit"; v]))
       = existsb (fun a => Js.eqb a (lit "--skip-fetch")) pre).
Proof.
  intros Hp. split.
  - intros n. destruct (dec_spec n) as (Hne & _ & _). split.
    + etransitivity; [apply phase_limit; assumption|].
      replace (parseInt (dec n)) with (Int (Z.of_N n))
        by (symmetry; apply parseInt_dec).
      unfold limited, number_truthy. destruct (N.eqb_spec n 0) as [->|Hn].
      * reflexivity.
      * destruct (Z.eqb_spec (Z.of_N n) 0) as [H|H]; [lia|]. cbn [negb].
        rewrite slice_to_positive by lia.
        replace (Z.to_nat (Z.of_N n)) with (N.to_nat n) by lia. reflexivity.
    + etransitivity; [apply phase_limit; [assumption | discriminate]|].
      replace (parseInt (lit "-" ++ dec n)) with (Int (- Z.of_N n))
        by (symmetry; apply parseInt_minus_dec).
      unfold limited, number_truthy.
      destruct (Z.eqb_spec (- Z.of_N n) 0) as [H|H]; cbn [negb].
      * assert (n = 0%N) by lia. subst n. cbn [N.to_nat].
        rewrite Nat.sub_0_r, firstn_all. reflexivity.
      * rewrite slice_to_negative by lia. rewrite Z.opp_involutive.
        replace (Z.to_nat (Z.of_N n)) with (N.to_nat n) by lia. reflexivity.
  - intros v Hv. split.
    + intros Hnan. etransitivity; [apply phase_limit; assumption|].
      rewrite Hnan. reflexivity.
    + etransitivity; [apply f_equal; apply parseArgs_limit; assumption|].
      reflexivity.
Qed.

Lemma limit_selection_witness :
  phase_laws (parseArgs ([lit "--skip-fetch"] ++ [lit "--limit"; dec 2])) (lit "difc")
      [lit "a"; lit "b"; lit "c"]
    = Some (if (2 =? 0)%N then [lit "a"; lit "b"; lit "c"]
            else firstn (N.to_nat 2) [lit "a"; lit "b"; lit "c"]).
Proof.
  apply (proj1 (@limit_selection jsstring [lit "--skip-fetch"] (lit "difc")
                  [lit "a"; lit "b"; lit "c"] eq_refl) 2%N).
Defined.

End Limit.

(* ================================================================= *)
(** * The registry and the request handler *)

Section Registry.
Import JsFacts.

(** The tools that [buildTools] lists are those that the request handler
    runs: a name is listed exactly when the handler calls a function for it.
    No name is listed twice, and [about] is the one name that the handler
    knows and may refuse, which it does exactly when no context was
    given. *)
Theorem registry_dispatch (context : bool) (name : jsstring) :
  (In name (map tool_name (buildTools context))
     <-> exists h, dispatch context name = Calls h) /\
  NoDup (map tool_name (buildTools context)) /\
  (dispatch context name = NotConfigured <-> context = false /\ name = lit "about").
Proof.
  split; [|split].
  - split.
    + intros H. destruct context; cbn in H;
        repeat (destruct H as [H|H]; [subst name; eexists; vm_compute; reflexivity|]);
        destruct H.
    + intros [h Hh]. unfold dispatch in Hh.
      repeat match type of Hh with
      | (if Js.eqb name ?w then _ else _) = _ =>
          destruct (Js.eqb name w) eqn:E;
          [apply eqb_eq in E; subst name; clear Hh;
           destruct context; vm_compute; tauto | clear E]
      end.
      * destruct (Js.eqb name (lit "about")) eqn:E; [|discriminate].
        apply eqb_eq in E. subst name.
        destruct context; [vm_compute; tauto | discriminate].
  - destruct context; vm_compute;
      repeat (constructor; [intros H; repeat (destruct H as [H|H]; [discriminate|]);
                            destruct H|]); constructor.
  - unfold dispatch.
    repeat match goal with
    | |- (if Js.eqb name ?w then _ else _) = _ <-> _ =>
        destruct (Js.eqb name w) eqn:E;
        [apply eqb_eq in E; subst name;
         split; [discriminate | intros [_ H]; vm_compute in H; discriminate] | clear E]
    end.
    destruct (Js.eqb name (lit "about")) eqn:E.
    + apply eqb_eq in E. destruct context; split; try discriminate; try tauto.
      intros [H _]. discriminate.
    + apply eqb_neq in E. split; [discriminate | intros [_ H]; congruence].
Qed.

End Registry.
